(** * youtube-transcriber: transcript rendering and output paths

    A shallow embedding of [app/formats.py], [app/models.py],
    [app/io_utils.py], [app/config.py] and the mock provider and the
    factory of [app/transcriber.py], with the properties of the
    rendering subsystem and of what surrounds it stated and proved over
    it.

    Conventions.
    - A Python [str] is a list of Unicode code points ([str := list N]);
      [len] is the number of code points.
    - A Python [int] is a [Z].
    - A Python [float] is an IEEE 754 binary64 value, see [Module Float].
    - A Python call that can raise returns an [except]: [Ok v] when it
      returns [v], [Raise e] when it raises [e]. *)

From Stdlib Require Import ZArith NArith List Lia Bool String Ascii.
From stdpp Require Import base option list gmap.
Import ListNotations.

Local Open Scope Z_scope.

(** ** Python strings *)

Abbreviation char := N.
Abbreviation str := (list N).

(** A string literal of the source, as code points. *)
Definition lit (s : string) : str :=
  List.map N_of_ascii (list_ascii_of_string s).

Definition len (s : str) : Z := Z.of_nat (length s).

Definition nl : N := 10%N.
Definition space : N := 32%N.

(** [str.isspace] for one code point: the whitespace set of
    [str.split()] and [str.strip()]. *)
Definition isspace (c : N) : bool :=
  ((9 <=? c) && (c <=? 13) || (28 <=? c) && (c <=? 32)
   || (c =? 133) || (c =? 160) || (c =? 5760)
   || (8192 <=? c) && (c <=? 8202)
   || (c =? 8232) || (c =? 8233) || (c =? 8239) || (c =? 8287)
   || (c =? 12288))%N.

(** [sep.join(items)] *)
Fixpoint join (sep : str) (items : list str) : str :=
  match items with
  | [] => []
  | [x] => x
  | x :: rest => x ++ sep ++ join sep rest
  end.

(** [s.split()]: maximal runs of non-whitespace; [tok] is the run being
    read. *)
Fixpoint split_from (tok : str) (s : str) : list str :=
  match s with
  | [] => match tok with [] => [] | _ => [tok] end
  | c :: s' =>
      if isspace c
      then match tok with
           | [] => split_from [] s'
           | _ => tok :: split_from [] s'
           end
      else split_from (tok ++ [c]) s'
  end.

Definition split (s : str) : list str := split_from [] s.

(** [s.split(sep)] for a one-character separator: always at least one
    piece. *)
Fixpoint split_on_from (sep : N) (piece : str) (s : str) : list str :=
  match s with
  | [] => [piece]
  | c :: s' =>
      if (c =? sep)%N
      then piece :: split_on_from sep [] s'
      else split_on_from sep (piece ++ [c]) s'
  end.

Definition split_on (sep : N) (s : str) : list str := split_on_from sep [] s.

(** [s.lstrip()], [s.rstrip()], [s.strip()] with a character class. *)
Fixpoint lstrip_by (drop : N -> bool) (s : str) : str :=
  match s with
  | c :: s' => if drop c then lstrip_by drop s' else s
  | [] => []
  end.

Definition rstrip_by (drop : N -> bool) (s : str) : str :=
  rev (lstrip_by drop (rev s)).

Definition strip_by (drop : N -> bool) (s : str) : str :=
  rstrip_by drop (lstrip_by drop s).

Definition strip (s : str) : str := strip_by isspace s.

(** [s.rfind(c)] for one character: the index of the last [c], or
    [-1]. *)
Fixpoint rfind_from (c : N) (i found : Z) (s : str) : Z :=
  match s with
  | x :: s' => rfind_from c (i + 1) (if (x =? c)%N then i else found) s'
  | [] => found
  end.

Definition rfind (c : N) (s : str) : Z := rfind_from c 0 (-1) s.

(** [s.replace(old, new)] for a one-character [old]. *)
Definition replace_char (old : N) (new : str) (s : str) : str :=
  concat (List.map (fun c => if (c =? old)%N then new else [c]) s).

(** [s.startswith(prefix)] *)
Fixpoint starts_with (prefix s : str) : bool :=
  match prefix, s with
  | [], _ => true
  | p :: prefix', c :: s' => (p =? c)%N && starts_with prefix' s'
  | _ :: _, [] => false
  end.

(** [sub in s] *)
Fixpoint contains (sub s : str) : bool :=
  starts_with sub s
  || match s with
     | _ :: s' => contains sub s'
     | [] => false
     end.

(** [s.split(sep)] for a separator of one character or more: the
    occurrences are taken from the left and do not overlap; [skip]
    counts the characters of an occurrence still to pass. *)
Fixpoint split_str_from (sep : str) (skip : nat) (piece : str) (s : str)
  : list str :=
  match s with
  | [] => [piece]
  | c :: s' =>
      match skip with
      | S skip' => split_str_from sep skip' piece s'
      | O =>
          if starts_with sep s
          then piece :: split_str_from sep (length sep - 1) [] s'
          else split_str_from sep 0 (piece ++ [c]) s'
      end
  end.

Definition split_str (sep s : str) : list str := split_str_from sep 0 [] s.

(** [s.replace(old, new)] for an [old] of one character or more. *)
Fixpoint replace_from (old new : str) (skip : nat) (s : str) : str :=
  match s with
  | [] => []
  | c :: s' =>
      match skip with
      | S skip' => replace_from old new skip' s'
      | O =>
          if starts_with old s
          then new ++ replace_from old new (length old - 1) s'
          else c :: replace_from old new 0 s'
      end
  end.

Definition replace_str (old new s : str) : str := replace_from old new 0 s.

(** ** Exceptions *)

Inductive exn : Type :=
| ValueError (msg : str)
| OverflowError (msg : str)
| ZeroDivisionError (msg : str)
| TypeError (msg : str)
| FileExistsError
| FileNotFoundError
| NotADirectoryError.

Inductive except (A : Type) : Type :=
| Ok (a : A)
| Raise (e : exn).

Arguments Ok {A} a.
Arguments Raise {A} e.

#[global] Instance except_ret : MRet except := fun A a => Ok a.

#[global] Instance except_bind : MBind except := fun A B k r =>
  match r with
  | Ok a => k a
  | Raise e => Raise e
  end.

(** ** The loop of the cue wrapper, [SRTFormatter._wrap_text] *)

Module Wrap.

(** One pass of the [for word in words] loop: the state is
    [(lines, current_line)]. *)
Definition step (max_width : Z) (st : list str * list str) (word : str)
  : list str * list str :=
  let '(lines, current_line) := st in
  let current_line := current_line ++ [word] in
  if len (join [space] current_line) >? max_width then
    if Z.of_nat (length current_line) >? 1 then
      let current_line := removelast current_line in
      (lines ++ [join [space] current_line], [word])
    else
      (lines ++ [word], [])
  else (lines, current_line).

Definition loop (max_width : Z) (words : list str)
  : list str * list str :=
  fold_left (step max_width) words ([], []).

Definition lines_of (text : str) (max_width : Z) : list str :=
  let words := split text in
  let '(lines, current_line) := loop max_width words in
  match current_line with
  | [] => lines
  | _ => lines ++ [join [space] current_line]
  end.

End Wrap.


(** ** Python floats: IEEE 754 binary64

    Every finite binary64 value is a whole number of units of [2^-1074],
    so a finite float is a sign and a magnitude counted in these units:
    [Finite neg m] is [(-1)^neg * m * 2^-1074].  The magnitude of a real
    double has at most 53 significant bits ([representable]).  Arithmetic
    is exact arithmetic on magnitudes followed by one rounding to nearest,
    ties to even ([round]), as the hardware does it. *)

Inductive float : Type :=
| Finite (neg : bool) (m : Z)
| Infinity (neg : bool)
| NaN.

Module Float.

(** [1.0] in units. *)
Definition one_u : Z := 2 ^ 1074.

(** [2^1024] in units: the first magnitude that is out of range. *)
Definition huge : Z := 2 ^ 2098.

(** Spacing exponent of the doubles around a magnitude of [n] units. *)
Definition shift_of (n : Z) : Z := Z.max 0 (Z.log2 n - 52).

Definition representable (m : Z) : Prop :=
  0 <= m < huge /\ m mod 2 ^ shift_of m = 0.

Definition representableb (m : Z) : bool :=
  (0 <=? m) && (m <? huge) && (m mod 2 ^ shift_of m =? 0).

(** A well-formed double. *)
Definition valid (x : float) : Prop :=
  match x with
  | Finite _ m => representable m
  | _ => True
  end.

(** [p/q] rounded to the nearest integer, ties to even ([0 <= p], [0 < q]). *)
Definition rne (p q : Z) : Z :=
  let d := p / q in
  match 2 * (p mod q) ?= q with
  | Lt => d
  | Gt => d + 1
  | Eq => if Z.even d then d else d + 1
  end.

(** The magnitude [p/q] (in units) rounded to a double's magnitude. *)
Definition round_mag (p q : Z) : Z :=
  let s := shift_of (p / q) in
  rne p (q * 2 ^ s) * 2 ^ s.

Definition round (neg : bool) (p q : Z) : float :=
  let m := round_mag p q in
  if m <? huge then Finite neg m else Infinity neg.

Definition signed (neg : bool) (m : Z) : Z := if neg then - m else m.

Definition zero : float := Finite false 0.
Definition one : float := Finite false one_u.
Definition half : float := Finite false (one_u / 2).

(** An [int] as a float (exact below [2^53]; the source only converts the
    literals 3600, 60, 1 and 1000). *)
Definition of_int (n : Z) : float := round (n <? 0) (Z.abs n * one_u) 1.

(** A decimal literal [n/d] of the source, correctly rounded. *)
Definition of_decimal (n d : Z) : float := round (n <? 0) (Z.abs n * one_u) d.

Definition opp (x : float) : float :=
  match x with
  | Finite a m => Finite (negb a) m
  | Infinity a => Infinity (negb a)
  | NaN => NaN
  end.

Definition add (x y : float) : float :=
  match x, y with
  | NaN, _ | _, NaN => NaN
  | Infinity a, Infinity b => if Bool.eqb a b then Infinity a else NaN
  | Infinity a, Finite _ _ => Infinity a
  | Finite _ _, Infinity b => Infinity b
  | Finite a m, Finite b n =>
      let v := signed a m + signed b n in
      if v =? 0 then Finite (a && b) 0
      else round (v <? 0) (Z.abs v) 1
  end.

Definition sub (x y : float) : float := add x (opp y).

Definition mul (x y : float) : float :=
  match x, y with
  | NaN, _ | _, NaN => NaN
  | Infinity a, Infinity b => Infinity (xorb a b)
  | Infinity a, Finite b n => if n =? 0 then NaN else Infinity (xorb a b)
  | Finite a m, Infinity b => if m =? 0 then NaN else Infinity (xorb a b)
  | Finite a m, Finite b n => round (xorb a b) (m * n) one_u
  end.

Definition div (x y : float) : float :=
  match x, y with
  | NaN, _ | _, NaN => NaN
  | Infinity _, Infinity _ => NaN
  | Infinity a, Finite b _ => Infinity (xorb a b)
  | Finite a _, Infinity b => Finite (xorb a b) 0
  | Finite a m, Finite b n =>
      if n =? 0 then (if m =? 0 then NaN else Infinity (xorb a b))
      else round (xorb a b) (m * one_u) n
  end.

(** C's [fmod]: exact, with the sign of [x]. *)
Definition fmod (x y : float) : float :=
  match x, y with
  | Finite a m, Finite _ n => if n =? 0 then NaN else Finite a (m mod n)
  | Finite a m, Infinity _ => Finite a m
  | _, _ => NaN
  end.

(** C's [floor]. *)
Definition floor (x : float) : float :=
  match x with
  | Finite false m => Finite false (m / one_u * one_u)
  | Finite true m => Finite true ((m + one_u - 1) / one_u * one_u)
  | _ => x
  end.

(** [x < y] *)
Definition ltb (x y : float) : bool :=
  match x, y with
  | NaN, _ | _, NaN => false
  | Infinity a, Infinity b => a && negb b
  | Infinity a, Finite _ _ => a
  | Finite _ _, Infinity b => negb b
  | Finite a m, Finite b n => signed a m <? signed b n
  end.

(** [x == 0.0] and C's truth value of a double, [x != 0.0]. *)
Definition is_zero (x : float) : bool :=
  match x with
  | Finite _ m => m =? 0
  | _ => false
  end.

Definition nonzero (x : float) : bool := negb (is_zero x).

Definition sign_bit (x : float) : bool :=
  match x with
  | Finite a _ | Infinity a => a
  | NaN => false
  end.

(** [copysign(0.0, y)] *)
Definition zero_like (y : float) : float := Finite (sign_bit y) 0.

Definition is_nan (x : float) : bool :=
  match x with
  | NaN => true
  | _ => false
  end.

Definition is_finite (x : float) : bool :=
  match x with
  | Finite _ _ => true
  | _ => false
  end.

(** The exact value of a finite float, in units of [2^-1074]. *)
Definition units (x : float) : Z :=
  match x with
  | Finite a m => signed a m
  | _ => 0
  end.

(** [x >= 0] *)
Definition ge0 (x : float) : bool := negb (ltb x zero) && negb (is_nan x).

(** CPython's [_float_div_mod] ([wx] is not zero): the pair
    [(floordiv, mod)]. *)
Definition _float_div_mod (vx wx : float) : float * float :=
  let mod_ := fmod vx wx in
  let div_ := div (sub vx mod_) wx in
  let '(mod_, div_) :=
    if nonzero mod_ then
      if xorb (ltb wx zero) (ltb mod_ zero)
      then (add mod_ wx, sub div_ one)
      else (mod_, div_)
    else (zero_like wx, div_) in
  let floordiv :=
    if nonzero div_ then
      let floordiv := floor div_ in
      if ltb half (sub div_ floordiv) then add floordiv one else floordiv
    else zero_like (div vx wx) in
  (floordiv, mod_).

(** [v // w] on floats. *)
Definition floor_div (v w : float) : except float :=
  if is_zero w
  then Raise (ZeroDivisionError (lit "float floor division by zero"))
  else Ok (_float_div_mod v w).1.

(** [v % w] on floats, CPython's [float_rem]. *)
Definition rem (v w : float) : except float :=
  if is_zero w then Raise (ZeroDivisionError (lit "float modulo"))
  else
    let mod_ := fmod v w in
    Ok (if nonzero mod_ then
          if xorb (ltb w zero) (ltb mod_ zero) then add mod_ w else mod_
        else zero_like w).

Definition validb (x : float) : bool :=
  match x with
  | Finite _ m => representableb m
  | _ => true
  end.

(** [int(x)]: truncation toward zero. *)
Definition to_int (x : float) : except Z :=
  match x with
  | Finite a m => Ok (signed a (m / one_u))
  | Infinity _ =>
      Raise (OverflowError (lit "cannot convert float infinity to integer"))
  | NaN => Raise (ValueError (lit "cannot convert float NaN to integer"))
  end.

End Float.

(** ** Formatting integers *)

Definition digit (d : Z) : N := Z.to_N (48 + d).

Fixpoint digits_fuel (fuel : nat) (n : Z) (acc : str) : str :=
  match fuel with
  | O => acc
  | S fuel =>
      let acc := digit (n mod 10) :: acc in
      if n <? 10 then acc else digits_fuel fuel (n / 10) acc
  end.

(** [str(n)] for [0 <= n]: the decimal digits, most significant first. *)
Definition digits (n : Z) : str :=
  digits_fuel (S (Z.to_nat (Z.log2 n))) n [].

(** [str(n)] *)
Definition str_of_int (n : Z) : str :=
  (if n <? 0 then lit "-" else []) ++ digits (Z.abs n).

(** [format(n, "0<width>d")]: zero padding after the sign. *)
Definition format_0d (width : nat) (n : Z) : str :=
  let sign := if n <? 0 then lit "-" else [] in
  let ds := digits (Z.abs n) in
  sign ++ repeat 48%N (width - length sign - length ds) ++ ds.

(** [format(x, ".1f")]: the exact value rounded to one decimal, ties to
    even. *)
Definition format_1f (x : float) : str :=
  match x with
  | Finite a m =>
      let q := Float.rne (m * 10) Float.one_u in
      (if a then lit "-" else []) ++ digits (q / 10) ++ lit "." ++ digits (q mod 10)
  | Infinity a => (if a then lit "-" else []) ++ lit "inf"
  | NaN => lit "nan"
  end.

(** ** The timestamp codec *)

(** Convert seconds to SRT time format (hh:mm:ss,ms). *)
Definition seconds_to_srt_time (seconds : float) : except str :=
  q ← Float.floor_div seconds (Float.of_int 3600);
  hours ← Float.to_int q;
  r ← Float.rem seconds (Float.of_int 3600);
  q ← Float.floor_div r (Float.of_int 60);
  minutes ← Float.to_int q;
  r ← Float.rem seconds (Float.of_int 60);
  secs ← Float.to_int r;
  r ← Float.rem seconds (Float.of_int 1);
  millis ← Float.to_int (Float.mul r (Float.of_int 1000));
  Ok (format_0d 2 hours ++ lit ":" ++ format_0d 2 minutes ++ lit ":"
      ++ format_0d 2 secs ++ lit "," ++ format_0d 3 millis).

(** Convert seconds to VTT time format (hh:mm:ss.ms). *)
Definition seconds_to_vtt_time (seconds : float) : except str :=
  q ← Float.floor_div seconds (Float.of_int 3600);
  hours ← Float.to_int q;
  r ← Float.rem seconds (Float.of_int 3600);
  q ← Float.floor_div r (Float.of_int 60);
  minutes ← Float.to_int q;
  r ← Float.rem seconds (Float.of_int 60);
  secs ← Float.to_int r;
  r ← Float.rem seconds (Float.of_int 1);
  millis ← Float.to_int (Float.mul r (Float.of_int 1000));
  Ok (format_0d 2 hours ++ lit ":" ++ format_0d 2 minutes ++ lit ":"
      ++ format_0d 2 secs ++ lit "." ++ format_0d 3 millis).

(** ** The data model, [app/models.py] *)

(** A value of Python type [Any] as it can stand in [raw_response]:
    what [json] can write, or some other object ([PyObject], by the name
    of its type), which [json] refuses. *)
#[warnings="-register-all"]
Inductive pyval : Type :=
| PyNone
| PyBool (b : bool)
| PyInt (n : Z)
| PyFloat (x : float)
| PyStr (s : str)
| PyList (items : list pyval)
| PyDict (items : list (str * pyval))
| PyObject (type_name : str).

(** A [dict] with string keys: the items in insertion order, keys
    distinct. *)
Abbreviation dict := (list (str * pyval)).

Fixpoint dict_get {V} (d : list (str * V)) (key : str) : option V :=
  match d with
  | [] => None
  | (k, v) :: d' => if decide (k = key) then Some v else dict_get d' key
  end.

(** [d[key] = value] *)
Fixpoint dict_set {V} (d : list (str * V)) (key : str) (value : V)
  : list (str * V) :=
  match d with
  | [] => [(key, value)]
  | (k, v) :: d' =>
      if decide (k = key) then (k, value) :: d'
      else (k, v) :: dict_set d' key value
  end.

Module Segment.
Record t : Type := mk {
  start_time : float;
  end_time : float;
  text : str;
  speaker : option str;
  confidence : option float
}.
End Segment.

Module TranscriptionResult.
Record t : Type := mk {
  text : str;
  language : str;
  segments : list Segment.t;
  duration : float;
  raw_response : option dict
}.
End TranscriptionResult.

(** ** What the renderers take from their surroundings *)

(** The reading of the wall clock, [datetime.now()]. *)
Record datetime : Type := {
  year : Z; month : Z; day : Z;
  hour : Z; minute : Z; second : Z; microsecond : Z
}.

(** [datetime.isoformat()] of a naive datetime. *)
Definition isoformat (d : datetime) : str :=
  format_0d 4 (year d) ++ lit "-" ++ format_0d 2 (month d) ++ lit "-"
  ++ format_0d 2 (day d) ++ lit "T" ++ format_0d 2 (hour d) ++ lit ":"
  ++ format_0d 2 (minute d) ++ lit ":" ++ format_0d 2 (second d)
  ++ (if microsecond d =? 0 then []
      else lit "." ++ format_0d 6 (microsecond d)).

(** Functions of the Python runtime that are tables rather than
    algorithms; the development holds for any such functions.
    - [float_repr]: [float.__repr__] of a finite float, the shortest
      decimal that reads back as the same double;
    - [lower_unicode]: [str.lower()] of a string that is not pure ASCII;
    - [isalnum_unicode]: [str.isalnum()] of a code point above 127. *)
Record python : Type := {
  float_repr : float -> str;
  lower_unicode : str -> str;
  isalnum_unicode : N -> bool
}.

(** [s.lower()] *)
Definition lower (py : python) (s : str) : str :=
  if forallb (fun c => c <? 128)%N s
  then List.map (fun c => if (65 <=? c)%N && (c <=? 90)%N then (c + 32)%N else c) s
  else lower_unicode py s.

(** ** [json.dumps(data, indent=2, ensure_ascii=False)] *)

Module Json.

Definition quote : N := 34%N.

Definition hex_digit (d : Z) : N :=
  if d <? 10 then Z.to_N (48 + d) else Z.to_N (87 + d).

(** One character inside a JSON string. *)
Definition escape (c : N) : str :=
  if (c =? 34)%N then [92; 34]%N
  else if (c =? 92)%N then [92; 92]%N
  else if (c =? 10)%N then lit "\n"
  else if (c =? 13)%N then lit "\r"
  else if (c =? 9)%N then lit "\t"
  else if (c =? 8)%N then lit "\b"
  else if (c =? 12)%N then lit "\f"
  else if (c <? 32)%N then
    lit "\u00" ++ [hex_digit (Z.of_N c / 16); hex_digit (Z.of_N c mod 16)]
  else [c].

Definition string (s : str) : str :=
  quote :: concat (List.map escape s) ++ [quote].

Definition number (py : python) (x : float) : str :=
  match x with
  | NaN => lit "NaN"
  | Infinity false => lit "Infinity"
  | Infinity true => lit "-Infinity"
  | Finite _ _ => float_repr py x
  end.

Definition newline_indent (level : nat) : str :=
  nl :: concat (repeat (lit "  ") level).

Definition bracket (opening closing : str) (level : nat) (parts : list str)
  : str :=
  opening ++ newline_indent (S level)
  ++ join (lit "," ++ newline_indent (S level)) parts
  ++ newline_indent level ++ closing.

Fixpoint encode (py : python) (level : nat) (v : pyval) : except str :=
  match v with
  | PyNone => Ok (lit "null")
  | PyBool true => Ok (lit "true")
  | PyBool false => Ok (lit "false")
  | PyInt n => Ok (str_of_int n)
  | PyFloat x => Ok (number py x)
  | PyStr s => Ok (string s)
  | PyList [] => Ok (lit "[]")
  | PyList items =>
      parts ← (fix each (l : list pyval) : except (list str) :=
                 match l with
                 | [] => Ok []
                 | x :: l' =>
                     chunk ← encode py (S level) x;
                     chunks ← each l';
                     Ok (chunk :: chunks)
                 end) items;
      Ok (bracket (lit "[") (lit "]") level parts)
  | PyDict [] => Ok (lit "{}")
  | PyDict items =>
      parts ← (fix each (l : list (str * pyval)) : except (list str) :=
                 match l with
                 | [] => Ok []
                 | (k, x) :: l' =>
                     chunk ← encode py (S level) x;
                     chunks ← each l';
                     Ok ((string k ++ lit ": " ++ chunk) :: chunks)
                 end) items;
      Ok (bracket (lit "{") (lit "}") level parts)
  | PyObject type_name =>
      Raise (TypeError (lit "Object of type " ++ type_name
                        ++ lit " is not JSON serializable"))
  end.

Definition dumps (py : python) (data : pyval) : except str :=
  encode py 0 data.

End Json.

(** ** The renderers, [app/formats.py]

    A renderer takes the transcript; the two that stamp their output
    also take the clock reading [now] of the call. *)

Inductive OutputFormatter : Type :=
| PlainTextFormatter
| MarkdownFormatter
| SRTFormatter
| VTTFormatter
| JSONFormatter.

Module PlainTextFormatter.

Definition format (result : TranscriptionResult.t) : except str :=
  Ok (TranscriptionResult.text result).

End PlainTextFormatter.

Module MarkdownFormatter.

Fixpoint each_segment (segments : list Segment.t) (lines : list str)
  : except (list str) :=
  match segments with
  | [] => Ok lines
  | segment :: rest =>
      start ← seconds_to_srt_time (Segment.start_time segment);
      end_ ← seconds_to_srt_time (Segment.end_time segment);
      let speaker :=
        match Segment.speaker segment with
        | Some (c :: name) => lit " (" ++ (c :: name) ++ lit ")"
        | _ => []
        end in
      each_segment rest
        (lines ++ [lit "**[" ++ start ++ lit " - " ++ end_ ++ lit "]** "
                   ++ Segment.text segment ++ speaker; []])
  end.

Definition format (now : datetime) (result : TranscriptionResult.t)
  : except str :=
  let lines :=
    [lit "# Transcript"; [];
     lit "**Language:** " ++ TranscriptionResult.language result
     ++ lit " | **Duration:** "
     ++ format_1f (TranscriptionResult.duration result)
     ++ lit "s | **Transcribed:** " ++ isoformat now;
     []; lit "---"; []] in
  lines ← each_segment (TranscriptionResult.segments result) lines;
  Ok (join [nl] lines).

End MarkdownFormatter.

Module SRTFormatter.

(** Wrap text to max width, breaking on word boundaries. *)
Definition _wrap_text (text : str) (max_width : Z) : str :=
  join [nl] (Wrap.lines_of text max_width).

Fixpoint each_segment (idx : Z) (segments : list Segment.t)
  (lines : list str) : except (list str) :=
  match segments with
  | [] => Ok lines
  | segment :: rest =>
      start ← seconds_to_srt_time (Segment.start_time segment);
      end_ ← seconds_to_srt_time (Segment.end_time segment);
      let text := _wrap_text (Segment.text segment) 42 in
      each_segment (idx + 1) rest
        (lines ++ [str_of_int idx; start ++ lit " --> " ++ end_; text; []])
  end.

Definition format (result : TranscriptionResult.t) : except str :=
  lines ← each_segment 1 (TranscriptionResult.segments result) [];
  Ok (strip (join [nl] lines)).

End SRTFormatter.

Module VTTFormatter.

Fixpoint each_segment (segments : list Segment.t) (lines : list str)
  : except (list str) :=
  match segments with
  | [] => Ok lines
  | segment :: rest =>
      start ← seconds_to_vtt_time (Segment.start_time segment);
      end_ ← seconds_to_vtt_time (Segment.end_time segment);
      let text := SRTFormatter._wrap_text (Segment.text segment) 42 in
      each_segment rest (lines ++ [start ++ lit " --> " ++ end_; text; []])
  end.

Definition format (result : TranscriptionResult.t) : except str :=
  lines ← each_segment (TranscriptionResult.segments result)
            [lit "WEBVTT"; []];
  Ok (strip (join [nl] lines)).

End VTTFormatter.

Module JSONFormatter.

Definition or_none {A} (f : A -> pyval) (o : option A) : pyval :=
  match o with
  | Some a => f a
  | None => PyNone
  end.

Definition segment_data (segment : Segment.t) : pyval :=
  PyDict
    [(lit "start", PyFloat (Segment.start_time segment));
     (lit "end", PyFloat (Segment.end_time segment));
     (lit "text", PyStr (Segment.text segment));
     (lit "speaker", or_none PyStr (Segment.speaker segment));
     (lit "confidence", or_none PyFloat (Segment.confidence segment))].

(** The dictionary [data] handed to [json.dumps].  [if
    result.raw_response:] is false for [None] and for an empty dict. *)
Definition data (now : datetime) (result : TranscriptionResult.t) : dict :=
  let data :=
    [(lit "metadata",
      PyDict
        [(lit "language", PyStr (TranscriptionResult.language result));
         (lit "duration", PyFloat (TranscriptionResult.duration result));
         (lit "transcribed_at", PyStr (isoformat now));
         (lit "segment_count",
          PyInt (Z.of_nat (length (TranscriptionResult.segments result))))]);
     (lit "transcript", PyStr (TranscriptionResult.text result));
     (lit "segments",
      PyList (List.map segment_data (TranscriptionResult.segments result)))]
  in
  match TranscriptionResult.raw_response result with
  | Some (item :: items) =>
      dict_set data (lit "raw_api_response") (PyDict (item :: items))
  | _ => data
  end.

Definition format (py : python) (now : datetime)
  (result : TranscriptionResult.t) : except str :=
  Json.dumps py (PyDict (data now result)).

End JSONFormatter.

Module OutputFormatter.

(** [formatter.format(result)], by the class of [formatter]. *)
Definition format (py : python) (formatter : OutputFormatter)
  (now : datetime) (result : TranscriptionResult.t) : except str :=
  match formatter with
  | PlainTextFormatter => PlainTextFormatter.format result
  | MarkdownFormatter => MarkdownFormatter.format now result
  | SRTFormatter => SRTFormatter.format result
  | VTTFormatter => VTTFormatter.format result
  | JSONFormatter => JSONFormatter.format py now result
  end.

End OutputFormatter.

Module FormatterFactory.

(** The one instance of each class, by format name. *)
Definition FORMATTERS : list (str * OutputFormatter) :=
  [(lit "txt", PlainTextFormatter);
   (lit "md", MarkdownFormatter);
   (lit "srt", SRTFormatter);
   (lit "vtt", VTTFormatter);
   (lit "json", JSONFormatter)].

(** Get formatter by name.  No formatter instance is falsy, so
    [not formatter] holds exactly when the lookup gave [None]. *)
Definition get_formatter (py : python) (format_name : str)
  : except OutputFormatter :=
  match dict_get FORMATTERS (lower py format_name) with
  | Some formatter => Ok formatter
  | None => Raise (ValueError (lit "Unknown format: " ++ format_name))
  end.

(** Get list of supported formats. *)
Definition get_supported_formats : list str := List.map fst FORMATTERS.

End FormatterFactory.

(** ** Paths, [pathlib.PurePosixPath] *)

Definition slash : N := 47%N.
Definition dot : N := 46%N.

Definition is_slash (c : N) : bool := (c =? slash)%N.

Module Path.

(** A parsed path: the root ([""], ["/"] or ["//"]) and the components
    after it, none of them empty or ["."]. *)
Record t : Type := mk { root : str; parts : list str }.

Definition keeps (component : str) : bool :=
  negb (bool_decide (component = []) || bool_decide (component = [dot])).

(** The components of a relative path string. *)
Definition components (rel : str) : list str :=
  List.filter keeps (split_on slash rel).

(** [splitroot]: one leading slash or three and more make the root
    ["/"], exactly two make ["//"]. *)
Definition splitroot (s : str) : str * str :=
  let stripped := lstrip_by is_slash s in
  match (length s - length stripped)%nat with
  | O => ([], s)
  | 2%nat => ([slash; slash], stripped)
  | _ => ([slash], stripped)
  end.

(** [Path(s)] *)
Definition parse (s : str) : t :=
  let '(root, rel) := splitroot s in
  {| root := root; parts := components rel |}.

(** [self / segment]: a segment with a root replaces the path. *)
Definition joinpath (self : t) (segment : str) : t :=
  let other := parse segment in
  match root other with
  | [] => {| root := root self; parts := parts self ++ parts other |}
  | _ => other
  end.

(** [str(self)] *)
Definition to_str (self : t) : str :=
  match root self, parts self with
  | [], [] => [dot]
  | root, parts => root ++ join [slash] parts
  end.

(** [self.parent] *)
Definition parent (self : t) : t :=
  {| root := root self; parts := removelast (parts self) |}.

(** [self.name]: the last component, or the empty string. *)
Definition name (self : t) : str := default [] (last (parts self)).

(** [self.suffix]: from the last dot of the name on, unless that dot is
    the first or the last character. *)
Definition suffix (self : t) : str :=
  let name := name self in
  let i := rfind dot name in
  if (0 <? i) && (i <? len name - 1) then drop (Z.to_nat i) name else [].

(** [self.stem]: the name without its suffix. *)
Definition stem (self : t) : str :=
  let name := name self in
  let i := rfind dot name in
  if (0 <? i) && (i <? len name - 1) then take (Z.to_nat i) name else name.

End Path.

(** ** The file system

    Directories and files by absolute location (the list of names from
    the root, which is always a directory), and the working directory.
    There are no symbolic links and no permissions. *)

Inductive node : Type := File | Dir.

Record filesystem : Type := {
  cwd : list str;
  entries : gmap (list str) node
}.

Module Fs.

Definition dotdot : str := [dot; dot].

Definition kind (fs : filesystem) (location : list str) : option node :=
  match location with
  | [] => Some Dir
  | _ => entries fs !! location
  end.

(** Where a path starts: at the root, or at the working directory. *)
Definition start (fs : filesystem) (p : Path.t) : list str :=
  match Path.root p with
  | [] => cwd fs
  | _ => []
  end.

(** Follow directory names from the directory [location]: every name
    must be an existing directory, [".."] steps to the parent. *)
Fixpoint walk (fs : filesystem) (location : list str) (names : list str)
  : except (list str) :=
  match names with
  | [] => Ok location
  | name :: rest =>
      if decide (name = dotdot) then walk fs (removelast location) rest
      else
        match kind fs (location ++ [name]) with
        | Some Dir => walk fs (location ++ [name]) rest
        | Some File => Raise NotADirectoryError
        | None => Raise FileNotFoundError
        end
  end.

(** [self.is_dir()] *)
Definition is_dir (fs : filesystem) (p : Path.t) : bool :=
  match walk fs (start fs p) (Path.parts p) with
  | Ok _ => true
  | Raise _ => false
  end.

(** [os.mkdir(self)] *)
Definition os_mkdir (fs : filesystem) (p : Path.t) : except filesystem :=
  match rev (Path.parts p) with
  | [] => Raise FileExistsError
  | name :: _ =>
      location ← walk fs (start fs p) (removelast (Path.parts p));
      if decide (name = dotdot) then Raise FileExistsError
      else
        match kind fs (location ++ [name]) with
        | Some _ => Raise FileExistsError
        | None =>
            Ok {| cwd := cwd fs;
                  entries := <[location ++ [name] := Dir]> (entries fs) |}
        end
  end.

(** [self.mkdir(parents=True, exist_ok=True)].  [depth] counts the
    components left: at [0] the path is its own parent. *)
Fixpoint mkdir_parents (depth : nat) (fs : filesystem) (p : Path.t)
  : except filesystem :=
  match os_mkdir fs p with
  | Ok fs' => Ok fs'
  | Raise FileNotFoundError =>
      match depth with
      | O => Raise FileNotFoundError
      | S depth =>
          fs ← mkdir_parents depth fs (Path.parent p);
          match os_mkdir fs p with
          | Ok fs' => Ok fs'
          | Raise FileNotFoundError => Raise FileNotFoundError
          | Raise e => if is_dir fs p then Ok fs else Raise e
          end
      end
  | Raise e => if is_dir fs p then Ok fs else Raise e
  end.

Definition mkdir (fs : filesystem) (p : Path.t) : except filesystem :=
  mkdir_parents (length (Path.parts p)) fs p.

(** [self.resolve()] without symbolic links: the absolute location, each
    [".."] cancelling the name before it. *)
Definition resolve (fs : filesystem) (p : Path.t) : list str :=
  fold_left
    (fun location name =>
       if decide (name = dotdot) then removelast location
       else location ++ [name])
    (Path.parts p) (start fs p).

(** Whether [location] is [directory] or lies below it. *)
Fixpoint inside (directory location : list str) : bool :=
  match directory, location with
  | [], _ => true
  | d :: directory', l :: location' =>
      bool_decide (d = l) && inside directory' location'
  | _ :: _, [] => false
  end.




End Fs.

(** ** Sources and URLs *)

(** What the development takes from [urllib.parse]: [urlparse] gives the
    parts of a URL or raises [ValueError]; the development holds for
    any such function. *)
Module ParseResult.
Record t : Type := mk {
  scheme : str; netloc : str; path : str;
  params : str; query : str; fragment : str
}.
End ParseResult.

Record urllib : Type := {
  urlparse : str -> except ParseResult.t
}.

(** [urllib.parse.parse_qs]: the values of every key of a query string,
    never an empty list; as [urlparse], taken as it is. *)
Record querylib : Type := {
  parse_qs : str -> list (str * (str * list str))
}.

(** A source: a URL or a file path ([str | Path]). *)
Inductive source : Type :=
| Url (url : str)
| FilePath (path : Path.t).

(** [str(source)] *)
Definition str_of_source (s : source) : str :=
  match s with
  | Url url => url
  | FilePath path => Path.to_str path
  end.

(** ** [FileUtils], [app/io_utils.py] *)

Module FileUtils.

(** [\w] of a Unicode pattern: [str.isalnum] or an underscore. *)
Definition is_word (py : python) (c : N) : bool :=
  (if (c <? 128)%N
   then ((48 <=? c) && (c <=? 57) || (65 <=? c) && (c <=? 90)
         || (97 <=? c) && (c <=? 122))%N
   else isalnum_unicode py c)
  || (c =? 95)%N.

(** [SAFE_FILENAME_PATTERN.sub("-", s)], the pattern being
    [[^\w\-. ]]. *)
Definition replace_unsafe (py : python) (s : str) : str :=
  List.map
    (fun c =>
       if is_word py c || (c =? 45)%N || (c =? dot)%N || (c =? space)%N
       then c else 45%N)
    s.

(** [re.compile(c{2,}).sub(c, s)]: every run of two or more [c] becomes
    one [c]. *)
Fixpoint squeeze_from (c : N) (in_run : bool) (s : str) : str :=
  match s with
  | x :: s' =>
      if (x =? c)%N
      then if in_run then squeeze_from c true s'
           else x :: squeeze_from c true s'
      else x :: squeeze_from c false s'
  | [] => []
  end.

Definition squeeze (c : N) (s : str) : str := squeeze_from c false s.

(** [s[:n]] *)
Definition slice_to (n : Z) (s : str) : str :=
  if 0 <=? n then take (Z.to_nat n) s
  else take (Z.to_nat (len s + n)) s.

(** [s.rsplit(" ", 1)[0]]: what stands before the last space, or all of
    [s]. *)
Definition before_last_space (s : str) : str :=
  match rev (split_on space s) with
  | _ :: (_ :: _) as front => join [space] (rev front)
  | _ => s
  end.

(** Sanitize filename to be safe across filesystems. *)
Definition sanitize_filename (py : python) (filename : str) (max_length : Z)
  : str :=
  let safe := replace_unsafe py filename in
  let safe := squeeze dot safe in
  let safe := squeeze space safe in
  let safe := strip_by (fun c => (c =? space)%N || (c =? dot)%N) safe in
  let safe :=
    if len safe >? max_length
    then rstrip_by (fun c => (c =? dot)%N)
           (before_last_space (slice_to max_length safe))
    else safe in
  match safe with
  | [] => lit "transcript"
  | _ => safe
  end.

(** Generate output path with format suffix. *)
Definition generate_output_path (fs : filesystem)
  (base_name language format : str) (output_dir : Path.t)
  : except (Path.t * filesystem) :=
  fs ← Fs.mkdir fs output_dir;
  let filename := base_name ++ lit "." ++ language ++ lit "." ++ format in
  Ok (Path.joinpath output_dir filename, fs).

Definition SUPPORTED_AUDIO_FORMATS : list str :=
  [lit ".mp3"; lit ".wav"; lit ".m4a"; lit ".flac"; lit ".ogg"; lit ".aac";
   lit ".wma"].

Definition SUPPORTED_VIDEO_FORMATS : list str :=
  [lit ".mp4"; lit ".webm"; lit ".mkv"; lit ".avi"; lit ".mov"; lit ".flv";
   lit ".m4v"].

(** Check if file is a supported audio or video format. *)
Definition is_valid_file (py : python) (path : Path.t) : bool :=
  let suffix := lower py (Path.suffix path) in
  bool_decide (suffix ∈ SUPPORTED_AUDIO_FORMATS ++ SUPPORTED_VIDEO_FORMATS).

(** Basic URL validation.  [all([result.scheme, result.netloc])] holds
    when neither string is empty; any exception gives [False]. *)
Definition is_valid_url (lib : urllib) (url : str) : bool :=
  match urlparse lib url with
  | Ok result =>
      negb (bool_decide (ParseResult.scheme result = []))
      && negb (bool_decide (ParseResult.netloc result = []))
  | Raise _ => false
  end.

(** Extract title/ID from URL. *)
Definition _extract_from_url (lib : urllib) (qlib : querylib) (url : str)
  : except str :=
  if contains (lit "youtube.com") url || contains (lit "youtu.be") url then
    video_id ←
      (if contains (lit "youtu.be/") url then
         Ok (default []
               (head (split_on 63
                        (default [] (last (split_str (lit "youtu.be/") url))))))
       else
         parsed ← urlparse lib url;
         let parsed := parse_qs qlib (ParseResult.query parsed) in
         Ok (match dict_get parsed (lit "v") with
             | Some (first, _) => first
             | None => []
             end));
    Ok (match video_id with
        | [] => lit "youtube-video"
        | _ => video_id
        end)
  else
    parsed ← urlparse lib url;
    let domain := replace_str (lit "www.") [] (ParseResult.netloc parsed) in
    let path :=
      default []
        (last (split_on slash (strip_by is_slash (ParseResult.path parsed))))
    in
    Ok (match path, domain with
        | _ :: _, _ => path
        | [], _ :: _ => domain
        | [], [] => lit "recording"
        end).

(** Extract base name from file path or URL. *)
Definition extract_base_name (py : python) (lib : urllib) (qlib : querylib)
  (source : source) : except str :=
  name ←
    match source with
    | FilePath path => Ok (Path.stem path)
    | Url url => _extract_from_url lib qlib url
    end;
  Ok (sanitize_filename py name 200).

End FileUtils.

(** ** Input validation, [app/io_utils.py] *)

Module InputValidator.

(** One pass of the loop of [validate_urls]: the state is
    [(valid, errors)]. *)
Definition each_line (lib : urllib) (st : list str * list str) (line : str)
  : list str * list str :=
  let '(valid, errors) := st in
  let url := strip line in
  match url with
  | [] => (valid, errors)
  | _ =>
      if FileUtils.is_valid_url lib url then (valid ++ [url], errors)
      else (valid, errors ++ [lit "Invalid URL: " ++ url])
  end.

(** Parse and validate URLs from text input. *)
Definition validate_urls (lib : urllib) (urls : str)
  : list str * list str :=
  fold_left (each_line lib) (split_on nl (strip urls)) ([], []).



End InputValidator.

(** ** Configuration, [app/config.py] *)

Module AppConfig.

Definition OUTPUT_FORMATS : list str :=
  [lit "txt"; lit "md"; lit "srt"; lit "vtt"; lit "json"].

(** Create output directory if it doesn't exist.  [OUTPUT_DIR] comes
    from the environment. *)
Definition ensure_output_dir (fs : filesystem) (OUTPUT_DIR : Path.t)
  : except filesystem :=
  Fs.mkdir fs OUTPUT_DIR.

End AppConfig.

Module APIConfig.

(** The class attributes that are read from the environment. *)
Record t : Type := mk {
  DEEPGRAM_API_KEY : str;
  OPENAI_API_KEY : str;
  PROVIDER : str
}.

(** Validate that required API keys are present. *)
Definition validate (cls : t) : bool :=
  if decide (PROVIDER cls = lit "mock") then true
  else if bool_decide (PROVIDER cls = lit "deepgram")
          && bool_decide (DEEPGRAM_API_KEY cls = [])
  then false
  else if bool_decide (PROVIDER cls = lit "whisper")
          && bool_decide (OPENAI_API_KEY cls = [])
  then false
  else true.

End APIConfig.

(** ** Transcription options, [app/models.py] *)

Module QualityPreset.
Inductive t : Type := FAST | BALANCED | BEST_QUALITY.

Definition value (q : t) : str :=
  match q with
  | FAST => lit "fast"
  | BALANCED => lit "balanced"
  | BEST_QUALITY => lit "best_quality"
  end.
End QualityPreset.

Module TimestampLevel.
Inductive t : Type := NONE | WORD | UTTERANCE.
End TimestampLevel.

Module TranscriptionOptions.
Record t : Type := mk {
  source : source;
  language : str;
  quality : QualityPreset.t;
  diarization : bool;
  smart_format : bool;
  timestamps : TimestampLevel.t;
  output_formats : list str
}.
End TranscriptionOptions.

(** ** The providers, [app/transcriber.py] *)

(** [float(n)] for an [int]: rounded to the nearest double, and
    [OverflowError] when that is out of range. *)
Definition float_of_int (n : Z) : except float :=
  let x := Float.of_int n in
  if Float.is_finite x then Ok x
  else Raise (OverflowError (lit "int too large to convert to float")).

(** [max(a, b)] of two floats: [b] when [b > a], else [a]. *)
Definition float_max (a b : float) : float :=
  if Float.ltb a b then b else a.

Inductive BaseTranscriber : Type :=
| MockTranscriber
| DeepgramTranscriber (api_key : str)
| WhisperTranscriber (api_key : str).

Module MockTranscriber.

Definition DUMMY_EN : list str :=
  [lit "Welcome to this presentation. Today we'll discuss transcription technology.";
   lit "Machine learning has revolutionized how we process audio.";
   lit "The accuracy of modern speech-to-text systems is impressive.";
   lit "From interviews to lectures, transcription saves time and effort.";
   lit "Let's explore the key features of this transcription tool."].

Definition DUMMY_FR : list str :=
  [lit "Bienvenue dans cette pr" ++ [233%N]
   ++ lit "sentation. Nous discuterons de la technologie de transcription.";
   lit "L'apprentissage automatique a r" ++ [233%N] ++ lit "volutionn"
   ++ [233%N] ++ lit " le traitement audio.";
   lit "La pr" ++ [233%N] ++ lit "cision des syst" ++ [232%N]
   ++ lit "mes modernes de reconnaissance vocale est impressionnante."].

Definition DUMMY_TRANSCRIPTS : list (str * list str) :=
  [(lit "en", DUMMY_EN); (lit "fr", DUMMY_FR)].

(** One pass of the loop of [_generate_segments]: the state is
    [(segments, start_time)]. *)
Definition each_sentence (st : list Segment.t * float) (sentence : str)
  : except (list Segment.t * float) :=
  let '(segments, start_time) := st in
  let sentence := strip sentence in
  match sentence with
  | [] => Ok (segments, start_time)
  | _ =>
      word_count ← float_of_int (Z.of_nat (length (split sentence)));
      let duration :=
        float_max Float.one (Float.div word_count (Float.of_int 3)) in
      let end_time := Float.add start_time duration in
      let segment :=
        {| Segment.start_time := start_time;
           Segment.end_time := end_time;
           Segment.text := sentence;
           Segment.speaker := None;
           Segment.confidence := Some (Float.of_decimal 95 100) |} in
      Ok (segments ++ [segment], end_time)
  end.

Fixpoint each_of (sentences : list str) (st : list Segment.t * float)
  : except (list Segment.t * float) :=
  match sentences with
  | [] => Ok st
  | sentence :: rest =>
      st ← each_sentence st sentence;
      each_of rest st
  end.

(** Generate segments from full text. *)
Definition _generate_segments (text language : str)
  (options : TranscriptionOptions.t) : except (list Segment.t) :=
  let sentences := split_on 124 (replace_char dot (lit ".|!") text) in
  st ← each_of sentences ([], Float.zero);
  Ok st.1.

(** Generate mock transcription result.  ([time.sleep] only takes
    time.) *)
Definition transcribe (source : source) (options : TranscriptionOptions.t)
  : except TranscriptionResult.t :=
  let lang :=
    if decide (TranscriptionOptions.language options = lit "auto")
    then lit "en" else TranscriptionOptions.language options in
  let transcripts :=
    match dict_get DUMMY_TRANSCRIPTS lang with
    | Some transcripts => transcripts
    | None => DUMMY_EN
    end in
  let full_text := join [space] transcripts in
  segments ← _generate_segments full_text lang options;
  let duration :=
    match last segments with
    | Some segment => Segment.end_time segment
    | None => Float.zero
    end in
  Ok {| TranscriptionResult.text := full_text;
        TranscriptionResult.language := lang;
        TranscriptionResult.segments := segments;
        TranscriptionResult.duration := duration;
        TranscriptionResult.raw_response :=
          Some [(lit "provider", PyStr (lit "mock"));
                (lit "source", PyStr (str_of_source source));
                (lit "quality",
                 PyStr (QualityPreset.value
                          (TranscriptionOptions.quality options)))] |}.

End MockTranscriber.

Module DeepgramTranscriber.

(** Initialize with API key. *)
Definition __init__ (api_key : str) : except BaseTranscriber :=
  match api_key with
  | [] => Raise (ValueError (lit "Deepgram API key required"))
  | _ => Ok (DeepgramTranscriber api_key)
  end.

End DeepgramTranscriber.

Module WhisperTranscriber.

(** Initialize with API key. *)
Definition __init__ (api_key : str) : except BaseTranscriber :=
  match api_key with
  | [] => Raise (ValueError (lit "OpenAI API key required"))
  | _ => Ok (WhisperTranscriber api_key)
  end.

End WhisperTranscriber.

Module TranscriberFactory.

(** Create transcriber based on configuration.  [provider or
    APIConfig.PROVIDER] takes the configured provider for [None] and
    for the empty string. *)
Definition create (cls : APIConfig.t) (provider : option str)
  : except BaseTranscriber :=
  let provider :=
    match provider with
    | Some (c :: name) => c :: name
    | _ => APIConfig.PROVIDER cls
    end in
  if decide (provider = lit "mock") then Ok MockTranscriber
  else if decide (provider = lit "deepgram")
  then DeepgramTranscriber.__init__ (APIConfig.DEEPGRAM_API_KEY cls)
  else if decide (provider = lit "whisper")
  then WhisperTranscriber.__init__ (APIConfig.OPENAI_API_KEY cls)
  else Raise (ValueError (lit "Unknown transcriber provider: " ++ provider)).

End TranscriberFactory.


(** ** Reading the output back: what the properties are stated with *)

Definition is_digit (c : N) : bool := ((48 <=? c) && (c <=? 57))%N.

(** The number a string of decimal digits stands for. *)
Definition decode (s : str) : Z :=
  fold_left (fun acc c => 10 * acc + (Z.of_N c - 48)) s 0.

Fixpoint take_digits (s : str) : str :=
  match s with
  | c :: s' => if is_digit c then c :: take_digits s' else []
  | [] => []
  end.

Fixpoint drop_digits (s : str) : str :=
  match s with
  | c :: s' => if is_digit c then drop_digits s' else s
  | [] => []
  end.

(** Whether all of [s] matches [\d{2,}:\d{2}:\d{2}<sep>\d{3}]. *)
Definition matches_timestamp (sep : N) (s : str) : bool :=
  (2 <=? length (take_digits s))%nat
  && match drop_digits s with
     | [c1; m1; m2; c2; s1; s2; c3; f1; f2; f3] =>
         (c1 =? 58)%N && is_digit m1 && is_digit m2
         && (c2 =? 58)%N && is_digit s1 && is_digit s2
         && (c3 =? sep)%N && is_digit f1 && is_digit f2 && is_digit f3
     | _ => false
     end.

(** A number below 100 as two digits, below 1000 as three. *)
Definition two_digits (n : Z) : str := [digit (n / 10); digit (n mod 10)].

Definition three_digits (n : Z) : str :=
  [digit (n / 100); digit (n / 10 mod 10); digit (n mod 10)].

(** Inputs of the examples: the literals [3661.5] and [0.009], and the
    double [10135896396895174656.0] (about [1.01e19]). *)
Definition sample_time : float := Float.of_decimal 36615 10.
Definition nine_thousandths : float := Float.of_decimal 9 1000.

(** Two clock readings one second apart, and a runtime record for the
    examples (the theorems hold for every such record). *)
Definition new_year : datetime :=
  {| year := 2024; month := 1; day := 1;
     hour := 0; minute := 0; second := 0; microsecond := 0 |}.


Definition some_python : python :=
  {| float_repr := fun _ => lit "0.0";
     lower_unicode := fun s => s;
     isalnum_unicode := fun _ => false |}.

(** A transcript without segments, and one whose [raw_response] is an
    empty dict. *)
Definition no_segments : TranscriptionResult.t :=
  {| TranscriptionResult.text := [];
     TranscriptionResult.language := lit "en";
     TranscriptionResult.segments := [];
     TranscriptionResult.duration := Float.zero;
     TranscriptionResult.raw_response := None |}.


(** The head of a Markdown report: everything before the segments. *)
Definition markdown_header (now : datetime) (result : TranscriptionResult.t)
  : list str :=
  [lit "# Transcript"; [];
   lit "**Language:** " ++ TranscriptionResult.language result
   ++ lit " | **Duration:** "
   ++ format_1f (TranscriptionResult.duration result)
   ++ lit "s | **Transcribed:** " ++ isoformat now;
   []; lit "---"; []].



(** Induction over [pyval], through the lists inside. *)
Section PyvalInduction.
Variable P : pyval -> Prop.
Hypothesis HNone : P PyNone.
Hypothesis HBool : forall b, P (PyBool b).
Hypothesis HInt : forall n, P (PyInt n).
Hypothesis HFloat : forall x, P (PyFloat x).
Hypothesis HStr : forall s, P (PyStr s).
Hypothesis HList : forall items, Forall P items -> P (PyList items).
Hypothesis HDict :
  forall items, Forall (fun kv => P (snd kv)) items -> P (PyDict items).
Hypothesis HObject : forall t, P (PyObject t).

Fixpoint pyval_induction (v : pyval) : P v :=
  match v with
  | PyNone => HNone
  | PyBool b => HBool b
  | PyInt n => HInt n
  | PyFloat x => HFloat x
  | PyStr s => HStr s
  | PyList items =>
      HList items
        ((fix each (l : list pyval) : Forall P l :=
            match l with
            | [] => @List.Forall_nil _ P
            | x :: l' => @List.Forall_cons _ P x l' (pyval_induction x) (each l')
            end) items)
  | PyDict items =>
      HDict items
        ((fix each (l : list (str * pyval))
            : Forall (fun kv => P (snd kv)) l :=
            match l with
            | [] => @List.Forall_nil _ _
            | kv :: l' =>
                @List.Forall_cons _ (fun kv => P (snd kv)) kv l'
                  (pyval_induction (snd kv)) (each l')
            end) items)
  | PyObject t => HObject t
  end.

End PyvalInduction.

Definition starts_with_slash (s : str) : bool :=
  match s with
  | c :: _ => is_slash c
  | [] => false
  end.

(** File systems of the examples: an empty one; one whose working
    directory is [/work]; one where [/out] is a regular file. *)
Definition empty_fs : filesystem := {| cwd := []; entries := ∅ |}.

Definition work_fs : filesystem :=
  {| cwd := [lit "work"]; entries := {[ [lit "work"] := Dir ]} |}.


(** ** Predicates and functions the proofs are stated with *)

(** A string without whitespace. *)
Definition nonspace (t : str) : Prop := Forall (fun c => isspace c = false) t.

(** A token of [split]: not empty, no whitespace inside. *)
Definition is_token (t : str) : Prop := t <> [] /\ nonspace t.

(** What a line of the wrapper is made of: a non-empty group of words
    that fits the width, or one word alone. *)
Definition fits (w : Z) (g : list str) : Prop :=
  len (join [space] g) <= w \/ exists t, g = [t].

(** The invariant of the wrapper's loop after the words [done]. *)
Definition wrap_invariant (w : Z) (done : list str)
  (st : list str * list str) : Prop :=
  exists groups,
    st.1 = List.map (join [space]) groups
    /\ concat groups ++ st.2 = done
    /\ Forall (fun g => g <> [] /\ fits w g) groups
    /\ fits w st.2.

(** The spacing exponent of [B] divides [B]: all that rounding needs of a
    representable bound. *)
Definition on_grid (B : Z) : Prop :=
  0 <= B /\ B mod 2 ^ Float.shift_of B = 0.

(** The sign of a float that is [>= 0]: plus, or a zero. *)
Definition nonneg (a : bool) (m : Z) : Prop := a = false \/ m = 0.

(** [2^-53], the spacing of the doubles just below [1.0], in units. *)
Definition ulp_below_one : Z := 2 ^ 1021.

(** The last three fields of a timestamp, as whole-number arithmetic on
    the magnitude [m] of the float (in units of [2^-1074]). *)
Definition minutes_of (m : Z) : Z :=
  m mod (3600 * Float.one_u) / (60 * Float.one_u).

Definition secs_of (m : Z) : Z := m mod (60 * Float.one_u) / Float.one_u.

Definition millis_of (m : Z) : Z :=
  Float.round_mag (m mod Float.one_u * (1000 * Float.one_u)) Float.one_u
  / Float.one_u.



(** The file system with one more directory. *)
Definition with_dir (fs : filesystem) (location : list str) : filesystem :=
  {| cwd := cwd fs; entries := <[location := Dir]> (entries fs) |}.

(** The transcript of the concrete scenario. *)
Definition hello_world : TranscriptionResult.t :=
  {| TranscriptionResult.text := lit "Hello world.";
     TranscriptionResult.language := lit "en";
     TranscriptionResult.segments :=
       [ {| Segment.start_time := Float.of_decimal 0 10;
            Segment.end_time := Float.of_decimal 10 10;
            Segment.text := lit "Hello world.";
            Segment.speaker := None;
            Segment.confidence := Some (Float.of_decimal 95 100) |} ];
     TranscriptionResult.duration := Float.of_decimal 20 10;
     TranscriptionResult.raw_response := None |}.

(** A transcript whose only segment starts at NaN. *)
Definition nan_start : TranscriptionResult.t :=
  {| TranscriptionResult.text := lit "x";
     TranscriptionResult.language := lit "en";
     TranscriptionResult.segments :=
       [ {| Segment.start_time := NaN;
            Segment.end_time := Float.one;
            Segment.text := lit "x";
            Segment.speaker := None;
            Segment.confidence := None |} ];
     TranscriptionResult.duration := Float.one;
     TranscriptionResult.raw_response := None |}.

(** ** File names that are safe *)

(** A character [sanitize_filename] lets through: a word character, a
    hyphen, a dot or a space. *)
Definition is_safe (py : python) (c : N) : bool :=
  FileUtils.is_word py c || (c =? 45)%N || (c =? dot)%N || (c =? space)%N.

(** No two [c] in a row. *)
Fixpoint no_run (c : N) (s : str) : bool :=
  match s with
  | x :: s' =>
      negb ((x =? c)%N
            && match s' with y :: _ => (y =? c)%N | [] => false end)
      && no_run c s'
  | [] => true
  end.

(** What [strip(" .")] drops. *)
Definition space_or_dot (c : N) : bool := (c =? space)%N || (c =? dot)%N.

(** A name that [sanitize_filename] has nothing to do on. *)
Definition clean_name (py : python) (s : str) : Prop :=
  s <> []
  /\ forallb (is_safe py) s = true
  /\ no_run dot s = true /\ no_run space s = true
  /\ (forall c, head s = Some c -> space_or_dot c = false)
  /\ (forall c, last s = Some c -> space_or_dot c = false).

(** The file system keeps what it has in [fs] and gains directories
    only. *)
Definition only_adds_directories (fs fs' : filesystem) : Prop :=
  cwd fs' = cwd fs
  /\ (forall location k,
        entries fs !! location = Some k -> entries fs' !! location = Some k)
  /\ (forall location k,
        entries fs !! location = None -> entries fs' !! location = Some k ->
        k = Dir).

(** What every prefix of a string inherits. *)
Definition tidy (py : python) (s : str) : Prop :=
  forallb (is_safe py) s = true
  /\ no_run dot s = true /\ no_run space s = true
  /\ (forall c, head s = Some c -> space_or_dot c = false).

(** The name after the first four steps. *)
Definition stripped (py : python) (filename : str) : str :=
  strip_by (fun c => (c =? space)%N || (c =? dot)%N)
    (FileUtils.squeeze space
       (FileUtils.squeeze dot (FileUtils.replace_unsafe py filename))).


(** ** The layout of wrapped text *)

(** The word [t] did not fit on the line made of the words [g]. *)
Definition forced (w : Z) (g : list str) (t : str) : Prop :=
  w < len (join [space] (g ++ [t])).

(** Every group of words but the last is followed by a word that did
    not fit after it. *)
Fixpoint greedy (w : Z) (groups : list (list str)) : Prop :=
  match groups with
  | g :: ((g' :: _) as rest) =>
      match g' with t :: _ => forced w g t | [] => True end
      /\ greedy w rest
  | _ => True
  end.

(** The last closed group against the line being filled: its first word
    did not fit, and no word will fit when the line is still empty. *)
Definition closes (w : Z) (groups : list (list str)) (cur : list str)
  : Prop :=
  match last groups with
  | Some g =>
      match cur with
      | t :: _ => forced w g t
      | [] => forall t, forced w g t
      end
  | None => True
  end.

Definition greedy_invariant (w : Z) (done : list str)
  (st : list str * list str) : Prop :=
  exists groups,
    st.1 = List.map (join [space]) groups
    /\ concat groups ++ st.2 = done
    /\ Forall (fun g => g <> []) groups
    /\ greedy w groups
    /\ closes w groups st.2.

(** No line could have taken the first word of the line after it. *)
Fixpoint breaks_forced (w : Z) (lines : list str) : Prop :=
  match lines with
  | l :: ((l' :: _) as rest) =>
      (forall t, head (split l') = Some t -> w < len l + 1 + len t)
      /\ breaks_forced w rest
  | _ => True
  end.

(** ** Reading timestamps and transcripts *)

(** [s.replace(",", ".")] *)
Definition comma_to_dot (s : str) : str :=
  List.map (fun c => if (c =? 44)%N then dot else c) s.

(** A time the codec is made for: a finite double that is not
    negative. *)
Definition is_time (x : float) : Prop :=
  Float.valid x /\ Float.is_finite x = true /\ Float.ge0 x = true.

Definition well_timed (segment : Segment.t) : Prop :=
  is_time (Segment.start_time segment) /\ is_time (Segment.end_time segment).

(** The type of the first object in [v], in the order of the document,
    that [json] cannot write. *)
Fixpoint first_object (v : pyval) : option str :=
  match v with
  | PyObject type_name => Some type_name
  | PyList items =>
      (fix each (l : list pyval) : option str :=
         match l with
         | [] => None
         | x :: l' =>
             match first_object x with
             | Some t => Some t
             | None => each l'
             end
         end) items
  | PyDict items =>
      (fix each (l : list (str * pyval)) : option str :=
         match l with
         | [] => None
         | (_, x) :: l' =>
             match first_object x with
             | Some t => Some t
             | None => each l'
             end
         end) items
  | _ => None
  end.

(** The error of [json] for an object of the type [type_name]. *)
Definition not_serializable (type_name : str) : exn :=
  TypeError (lit "Object of type " ++ type_name
             ++ lit " is not JSON serializable").

(** What [json] does with a value: it writes it, or it raises for the
    first object it cannot write. *)
Definition encoded (py : python) (level : nat) (v : pyval) : Prop :=
  match first_object v with
  | None => exists out, Json.encode py level v = Ok out
  | Some t => Json.encode py level v = Raise (not_serializable t)
  end.

(** ** What the validators accept *)


(** The lines that [validate_urls] looks at: stripped, the blank ones
    left out. *)
Definition url_lines (urls : str) : list str :=
  List.filter (fun url => negb (bool_decide (url = [])))
    (List.map strip (split_on nl (strip urls))).

(** ** The timeline of generated segments *)

(** The segments lie end to end from [start] to [finish]: the first one
    begins at [start], each one begins where the one before it ended,
    and the last one ends at [finish]. *)
Fixpoint tiles (start : float) (segments : list Segment.t) (finish : float)
  : Prop :=
  match segments with
  | [] => finish = start
  | segment :: rest =>
      Segment.start_time segment = start
      /\ tiles (Segment.end_time segment) rest finish
  end.


(** [is_time] and [well_timed], decided. *)
Definition is_timeb (x : float) : bool :=
  Float.validb x && Float.is_finite x && Float.ge0 x.

Definition well_timedb (segment : Segment.t) : bool :=
  is_timeb (Segment.start_time segment) && is_timeb (Segment.end_time segment).

(** The options of the examples. *)
Definition default_options : TranscriptionOptions.t :=
  {| TranscriptionOptions.source := Url [];
     TranscriptionOptions.language := lit "auto";
     TranscriptionOptions.quality := QualityPreset.BALANCED;
     TranscriptionOptions.diarization := false;
     TranscriptionOptions.smart_format := true;
     TranscriptionOptions.timestamps := TimestampLevel.UTTERANCE;
     TranscriptionOptions.output_formats := [lit "txt"; lit "srt"] |}.

(** The segments of the two dummy transcripts. *)
Definition segments_or_none (r : except (list Segment.t)) : list Segment.t :=
  match r with
  | Ok segments => segments
  | Raise _ => []
  end.

Definition en_segments : list Segment.t :=
  Eval vm_compute in
    segments_or_none
      (MockTranscriber._generate_segments
         (join [space] MockTranscriber.DUMMY_EN) (lit "en") default_options).

Definition fr_segments : list Segment.t :=
  Eval vm_compute in
    segments_or_none
      (MockTranscriber._generate_segments
         (join [space] MockTranscriber.DUMMY_FR) (lit "fr") default_options).



(** ** Floats that stay in range *)

(** A finite float of magnitude at most [B] units. *)
Definition within (B : Z) (x : float) : Prop :=
  exists a m, x = Finite a m /\ 0 <= m <= B.

(** The two times of a segment, as doubles and as finite doubles. *)
Definition valid_times (segment : Segment.t) : Prop :=
  Float.valid (Segment.start_time segment)
  /\ Float.valid (Segment.end_time segment).

Definition finite_times (segment : Segment.t) : bool :=
  Float.is_finite (Segment.start_time segment)
  && Float.is_finite (Segment.end_time segment).

(** The renderers that write timestamps. *)
Definition writes_timestamps (formatter : OutputFormatter) : bool :=
  match formatter with
  | MarkdownFormatter | SRTFormatter | VTTFormatter => true
  | _ => false
  end.

(** The error of [int(x)] for a NaN. *)
Definition nan_to_integer : exn :=
  ValueError (lit "cannot convert float NaN to integer").

(** ** Reading a timestamp back *)

(** The time that a timestamp [hh:mm:ss,mmm] (or with a dot) stands
    for, in milliseconds. *)
Definition timestamp_millis (s : str) : Z :=
  match drop_digits s with
  | [_; m1; m2; _; s1; s2; _; f1; f2; f3] =>
      ((decode (take_digits s) * 60 + decode [m1; m2]) * 60
       + decode [s1; s2]) * 1000 + decode [f1; f2; f3]
  | _ => 0
  end.

(** The same from the magnitude [m] of the float, for [m] below
    [2^53] seconds. *)
Definition millis_total (m : Z) : Z :=
  m / Float.one_u * 1000 + millis_of m.

(** * Properties *)

(** ** Splitting and joining *)

Lemma split_from_ws tok a c b :
  isspace c = true ->
  split_from tok (a ++ c :: b) = split_from tok a ++ split b.
Proof.
  intros Hc. revert tok.
  induction a as [|x a IH]; intros tok; simpl.
  - rewrite Hc. destruct tok; reflexivity.
  - destruct (isspace x).
    + destruct tok; simpl; rewrite IH; reflexivity.
    + apply IH.
Qed.

Lemma split_from_nonspace tok t :
  nonspace t ->
  split_from tok t = match tok ++ t with [] => [] | _ => [tok ++ t] end.
Proof.
  intros Ht. revert tok.
  induction Ht as [|x t Hx Ht IH]; intros tok; simpl.
  - rewrite app_nil_r. reflexivity.
  - rewrite Hx, IH, <- app_assoc. reflexivity.
Qed.

Lemma split_token t : is_token t -> split t = [t].
Proof.
  intros [Hne Ht]. unfold split.
  rewrite split_from_nonspace by assumption. simpl.
  destruct t; congruence.
Qed.

Lemma split_from_tokens tok s :
  nonspace tok -> Forall is_token (split_from tok s).
Proof.
  revert tok. induction s as [|c s IH]; intros tok Htok; simpl.
  - destruct tok; constructor; [split; [discriminate | assumption] | constructor].
  - destruct (isspace c) eqn:Hc.
    + destruct tok.
      * apply IH. constructor.
      * constructor; [split; [discriminate | assumption] | apply IH; constructor].
    + apply IH. apply Forall_app. split; [assumption | repeat constructor; assumption].
Qed.

Lemma split_tokens s : Forall is_token (split s).
Proof. apply split_from_tokens. constructor. Qed.

Lemma split_join_ws c (items : list str) :
  isspace c = true ->
  split (join [c] items) = concat (List.map split items).
Proof.
  intros Hc. induction items as [|x [|y rest] IH].
  - reflexivity.
  - simpl. rewrite app_nil_r. reflexivity.
  - change (join [c] (x :: y :: rest)) with (x ++ c :: join [c] (y :: rest)).
    unfold split at 1. rewrite split_from_ws by assumption.
    rewrite IH. reflexivity.
Qed.

Lemma split_join_tokens c (toks : list str) :
  isspace c = true -> Forall is_token toks ->
  split (join [c] toks) = toks.
Proof.
  intros Hc Htoks. rewrite split_join_ws by assumption.
  induction Htoks as [|t toks Ht _ IH]; [reflexivity|].
  simpl. rewrite split_token by assumption. rewrite IH. reflexivity.
Qed.

Lemma nonspace_join_space (toks : list str) :
  Forall is_token toks ->
  Forall (fun c => c <> nl) (join [space] toks).
Proof.
  assert (Hn : forall t, nonspace t -> Forall (fun c => c <> nl) t).
  { intros t Ht. eapply Forall_impl; [exact Ht|].
    intros c Hc ->. discriminate Hc. }
  induction toks as [|x [|y rest] IH]; intros Htoks.
  - constructor.
  - simpl. inversion Htoks as [|? ? [_ Hx] _]; subst. auto.
  - change (join [space] (x :: y :: rest))
      with (x ++ space :: join [space] (y :: rest)).
    inversion Htoks as [|? ? [_ Hx] Hrest]; subst.
    apply Forall_app. split; [auto|].
    constructor; [discriminate | auto].
Qed.

Lemma split_on_from_no_sep sep piece a :
  Forall (fun c => c <> sep) a ->
  split_on_from sep piece a = [piece ++ a].
Proof.
  intros Ha. revert piece.
  induction Ha as [|x a Hx _ IH]; intros piece; simpl.
  - rewrite app_nil_r. reflexivity.
  - apply N.eqb_neq in Hx. rewrite Hx, IH, <- app_assoc. reflexivity.
Qed.

Lemma split_on_from_sep sep piece a b :
  Forall (fun c => c <> sep) a ->
  split_on_from sep piece (a ++ sep :: b) = (piece ++ a) :: split_on sep b.
Proof.
  intros Ha. revert piece.
  induction Ha as [|x a Hx _ IH]; intros piece; simpl.
  - rewrite N.eqb_refl, app_nil_r. reflexivity.
  - apply N.eqb_neq in Hx. rewrite Hx, IH, <- app_assoc. reflexivity.
Qed.

Lemma split_on_join sep (lines : list str) :
  lines <> [] ->
  Forall (Forall (fun c => c <> sep)) lines ->
  split_on sep (join [sep] lines) = lines.
Proof.
  intros Hne Hall. induction Hall as [|x rest Hx Hrest IH]; [congruence|].
  destruct rest as [|y rest].
  - simpl. unfold split_on. rewrite split_on_from_no_sep by assumption.
    reflexivity.
  - change (join [sep] (x :: y :: rest))
      with (x ++ sep :: join [sep] (y :: rest)).
    unfold split_on at 1. rewrite split_on_from_sep by assumption.
    rewrite IH by discriminate. reflexivity.
Qed.

(** ** The cue wrapper *)

Module WrapFacts.
Import Wrap.

Lemma step_keeps_invariant w done st word :
  0 <= w -> wrap_invariant w done st ->
  wrap_invariant w (done ++ [word]) (step w st word).
Proof.
  intros Hw (groups & Hlines & Hdone & Hgroups & Hcur).
  destruct st as [lines cur]. simpl in *. subst lines done.
  unfold step.
  destruct (Z.gtb_spec (len (join [space] (cur ++ [word]))) w) as [Hlong|Hlong].
  - destruct (Z.gtb_spec (Z.of_nat (length (cur ++ [word]))) 1) as [Hmany|Hmany].
    + rewrite removelast_last.
      exists (groups ++ [cur]). simpl. repeat split.
      * rewrite List.map_app. reflexivity.
      * rewrite concat_app. simpl. rewrite ?app_nil_r, <- ?app_assoc. reflexivity.
      * apply Forall_app. split; [assumption|].
        constructor; [|constructor]. split; [|assumption].
        intros ->. simpl in Hmany. lia.
      * right. eauto.
    + assert (cur = []) as ->.
      { destruct cur; [reflexivity|].
        rewrite length_app in Hmany. simpl in Hmany. lia. }
      exists (groups ++ [[word]]). simpl. repeat split.
      * rewrite List.map_app. reflexivity.
      * rewrite concat_app. simpl. rewrite ?app_nil_r, <- ?app_assoc. reflexivity.
      * apply Forall_app. split; [assumption|].
        constructor; [|constructor]. split; [discriminate | right; eauto].
      * left. simpl. unfold len. simpl. lia.
  - exists groups. simpl. repeat split.
    + rewrite <- ?app_assoc. reflexivity.
    + assumption.
    + left. lia.
Qed.

Lemma loop_keeps_invariant w words : forall done st,
  0 <= w -> wrap_invariant w done st ->
  wrap_invariant w (done ++ words) (fold_left (step w) words st).
Proof.
  induction words as [|word words IH]; intros done st Hw Hinv; simpl.
  - rewrite app_nil_r. assumption.
  - replace (done ++ word :: words) with ((done ++ [word]) ++ words)
      by (rewrite <- app_assoc; reflexivity).
    apply IH; [assumption|]. apply step_keeps_invariant; assumption.
Qed.

Lemma lines_of_groups text w :
  0 <= w ->
  exists groups,
    lines_of text w = List.map (join [space]) groups
    /\ concat groups = split text
    /\ Forall (fun g => g <> [] /\ fits w g) groups.
Proof.
  intros Hw. unfold lines_of, loop.
  assert (H0 : wrap_invariant w [] ([], [])).
  { exists []. simpl. repeat split; [constructor|]. left. unfold len. simpl. lia. }
  pose proof (loop_keeps_invariant w (split text) [] ([], []) Hw H0) as Hinv.
  simpl in Hinv.
  destruct (fold_left (step w) (split text) ([], [])) as [lines cur].
  destruct Hinv as (groups & Hlines & Hdone & Hgroups & Hcur). simpl in *.
  destruct cur as [|c cur].
  - exists groups. rewrite app_nil_r in Hdone. auto.
  - exists (groups ++ [c :: cur]). repeat split.
    + rewrite List.map_app, Hlines. reflexivity.
    + rewrite concat_app. simpl. rewrite app_nil_r. assumption.
    + apply Forall_app. split; [assumption|].
      constructor; [|constructor]. split; [discriminate | assumption].
Qed.

Lemma concat_tokens (groups : list (list str)) :
  Forall is_token (concat groups) -> Forall (Forall is_token) groups.
Proof.
  induction groups as [|g groups IH]; simpl; intros H; [constructor|].
  apply Forall_app in H. destruct H. constructor; auto.
Qed.

End WrapFacts.

(** C2. For every text and every [max_width > 0], no line of
    [SRTFormatter._wrap_text text max_width] is longer than [max_width] unless the
    line is one single token that is itself longer than [max_width], and
    splitting the output on whitespace gives back exactly the tokens of
    the input, in order. *)
Theorem wrap_text_width_and_tokens (text : str) (max_width : Z) :
  0 < max_width ->
  Forall (fun line =>
            len line <= max_width
            \/ (split line = [line] /\ max_width < len line))
         (split_on nl (SRTFormatter._wrap_text text max_width))
  /\ split (SRTFormatter._wrap_text text max_width) = split text.
Proof.
  intros Hw. unfold SRTFormatter._wrap_text.
  destruct (WrapFacts.lines_of_groups text max_width ltac:(lia))
    as (groups & -> & Hwords & Hgroups).
  assert (Htok : Forall (Forall is_token) groups).
  { apply WrapFacts.concat_tokens. rewrite Hwords. apply split_tokens. }
  split.
  - destruct groups as [|g groups].
    + simpl. repeat constructor. unfold len. simpl. lia.
    + rewrite split_on_join.
      * apply List.Forall_forall. intros line Hin.
        apply in_map_iff in Hin. destruct Hin as (g' & <- & Hin).
        rewrite List.Forall_forall in Hgroups, Htok.
        destruct (Hgroups g' Hin) as [Hne [Hfit | [t ->]]]; [left; assumption|].
        simpl. destruct (Z_le_gt_dec (len t) max_width); [left; assumption|].
        right. split; [|lia].
        apply split_token.
        specialize (Htok [t] Hin). inversion Htok; assumption.
      * discriminate.
      * apply List.Forall_forall. intros line Hin.
        apply in_map_iff in Hin. destruct Hin as (g' & <- & Hin).
        apply nonspace_join_space.
        rewrite List.Forall_forall in Htok. auto.
  - rewrite split_join_ws by reflexivity.
    rewrite <- Hwords. clear Hwords Hgroups.
    induction Htok as [|g groups Hg _ IH]; [reflexivity|].
    simpl. rewrite IH. f_equal.
    apply split_join_tokens; [reflexivity | assumption].
Qed.

Lemma wrap_text_width_and_tokens_witness :
  0 < 7
  /\ Forall (fun line =>
            len line <= 7 \/ (split line = [line] /\ 7 < len line))
         (split_on nl (SRTFormatter._wrap_text (lit "ab  cd extraordinary e f") 7))
  /\ split (SRTFormatter._wrap_text (lit "ab  cd extraordinary e f") 7)
     = split (lit "ab  cd extraordinary e f").
Proof.
  split; [lia|].
  apply (wrap_text_width_and_tokens (lit "ab  cd extraordinary e f") 7).
  lia.
Defined.

(** C1. Rendering the one-segment transcript [hello_world] (text
    "Hello world.", language "en", duration 2.0, one segment from 0.0 to
    1.0 with confidence 0.95 and no speaker) with [SRTFormatter.format]
    returns exactly the three lines "1", "00:00:00,000 --> 00:00:01,000"
    and "Hello world.", with nothing after the last one. *)
Theorem srt_hello_world :
  SRTFormatter.format hello_world
  = Ok (lit "1" ++ [nl] ++ lit "00:00:00,000 --> 00:00:01,000" ++ [nl]
        ++ lit "Hello world.").
Proof. vm_compute. reflexivity. Qed.

(** ** Rounding *)

Module FloatFacts.
Import Float.

Lemma one_u_pos : 0 < one_u.
Proof. reflexivity. Qed.

Lemma shift_of_nonneg n : 0 <= shift_of n.
Proof. unfold shift_of. lia. Qed.

Lemma shift_of_mono n n' : n <= n' -> shift_of n <= shift_of n'.
Proof.
  intros H. unfold shift_of.
  pose proof (Z.log2_le_mono n n' H). lia.
Qed.

Lemma pow2_pos s : 0 <= s -> 0 < 2 ^ s.
Proof. intros. apply Z.pow_pos_nonneg; lia. Qed.

Lemma pow2_split s t : 0 <= s <= t -> 2 ^ t = 2 ^ (t - s) * 2 ^ s.
Proof. intros. rewrite <- Z.pow_add_r by lia. f_equal. lia. Qed.

(** A magnitude is below two to its spacing exponent plus 53. *)
Lemma below_pow2_shift n : 0 <= n -> n < 2 ^ (shift_of n + 53).
Proof.
  intros Hn. destruct (Z.eq_dec n 0) as [->|Hne].
  - apply pow2_pos. pose proof (shift_of_nonneg 0). lia.
  - pose proof (Z.log2_spec n ltac:(lia)) as [_ Hlt].
    eapply Z.lt_le_trans; [exact Hlt|].
    apply Z.pow_le_mono_r; [lia|]. unfold shift_of. lia.
Qed.

(** With a positive spacing exponent the magnitude has 53 bits or more. *)
Lemma above_pow2_shift n : 0 < shift_of n -> 2 ^ (shift_of n + 52) <= n.
Proof.
  intros Hs. unfold shift_of in *.
  assert (0 < n).
  { destruct (Z_lt_le_dec 0 n); [assumption|].
    rewrite Z.log2_nonpos in Hs by assumption. lia. }
  pose proof (Z.log2_spec n ltac:(lia)) as [Hle _].
  replace (Z.max 0 (Z.log2 n - 52) + 52) with (Z.log2 n) by lia.
  assumption.
Qed.

(** *** Rounding to the nearest integer *)

Section Rne.
Variables p q : Z.
Hypothesis Hq : 0 < q.

Lemma rne_cases :
  rne p q = p / q \/ (rne p q = p / q + 1 /\ q <= 2 * (p mod q)).
Proof.
  unfold rne.
  destruct (Z.compare_spec (2 * (p mod q)) q) as [H|H|H].
  - destruct (Z.even (p / q)); [left; reflexivity | right; lia].
  - left. reflexivity.
  - right. lia.
Qed.

Lemma rne_le b : p <= b * q -> rne p q <= b.
Proof.
  intros H. pose proof (Z.div_mod p q ltac:(lia)).
  pose proof (Z.mod_pos_bound p q Hq).
  destruct rne_cases as [-> | [-> Hr]]; nia.
Qed.

Lemma rne_ge b : b * q <= p -> b <= rne p q.
Proof.
  intros H. pose proof (Z.div_mod p q ltac:(lia)).
  pose proof (Z.mod_pos_bound p q Hq).
  destruct rne_cases as [-> | [-> Hr]]; nia.
Qed.

Lemma rne_below_half b : 2 * p < (2 * b + 1) * q -> rne p q <= b.
Proof.
  intros H. pose proof (Z.div_mod p q ltac:(lia)).
  pose proof (Z.mod_pos_bound p q Hq).
  destruct rne_cases as [-> | [-> Hr]]; nia.
Qed.

Lemma rne_up_half : 2 * (rne p q * q - p) <= q.
Proof.
  pose proof (Z.div_mod p q ltac:(lia)).
  pose proof (Z.mod_pos_bound p q Hq).
  destruct rne_cases as [-> | [-> Hr]]; nia.
Qed.

End Rne.

Lemma rne_exact v q : 0 < q -> rne (v * q) q = v.
Proof.
  intros Hq. unfold rne.
  rewrite Z.mod_mul, Z.div_mul by lia.
  destruct (Z.compare_spec (2 * 0) q); lia.
Qed.

(** *** Rounding to a double *)

Lemma representable_on_grid m : representable m -> on_grid m.
Proof. intros [[H _] H']. split; assumption. Qed.

Lemma on_grid_multiple B s :
  on_grid B -> 0 <= s <= shift_of B -> B = B / 2 ^ s * 2 ^ s.
Proof.
  intros [HB Hmod] Hs.
  pose proof (pow2_pos s ltac:(lia)).
  pose proof (pow2_pos (shift_of B) ltac:(lia)).
  assert (Hdiv : (2 ^ s | B)).
  { apply Z.divide_trans with (2 ^ shift_of B).
    - exists (2 ^ (shift_of B - s)). apply pow2_split. lia.
    - apply Z.mod_divide; [lia | assumption]. }
  apply Z.mod_divide in Hdiv; [|lia].
  apply Z.div_exact in Hdiv; lia.
Qed.

Lemma round_mag_nonneg p q : 0 <= p -> 0 < q -> 0 <= round_mag p q.
Proof.
  intros Hp Hq. unfold round_mag.
  set (s := shift_of (p / q)).
  pose proof (pow2_pos s (shift_of_nonneg _)).
  assert (0 <= rne p (q * 2 ^ s)).
  { apply rne_ge; lia. }
  nia.
Qed.

Lemma round_mag_le p q B :
  0 <= p -> 0 < q -> on_grid B -> p <= B * q -> round_mag p q <= B.
Proof.
  intros Hp Hq HB Hle. unfold round_mag.
  set (s := shift_of (p / q)).
  assert (Hn : p / q <= B).
  { apply Z.div_le_upper_bound; lia. }
  assert (Hs : 0 <= s <= shift_of B).
  { split; [apply shift_of_nonneg | apply shift_of_mono; assumption]. }
  pose proof (pow2_pos s ltac:(lia)).
  rewrite (on_grid_multiple B s HB Hs) at 1.
  apply Z.mul_le_mono_nonneg_r; [lia|].
  apply rne_le; [nia|].
  rewrite (on_grid_multiple B s HB Hs) in Hle. nia.
Qed.

Lemma round_mag_ge p q B :
  0 <= p -> 0 < q -> on_grid B -> B * q <= p -> B <= round_mag p q.
Proof.
  intros Hp Hq HB Hle. unfold round_mag.
  set (s := shift_of (p / q)).
  assert (Hn : B <= p / q).
  { apply Z.div_le_lower_bound; lia. }
  pose proof (shift_of_nonneg (p / q)) as Hs0. fold s in Hs0.
  pose proof (pow2_pos s Hs0) as Hpow.
  destruct (Z_le_gt_dec s (shift_of B)) as [Hs|Hs].
  - rewrite (on_grid_multiple B s HB ltac:(lia)) at 1.
    apply Z.mul_le_mono_nonneg_r; [lia|].
    apply rne_ge; [nia|].
    rewrite (on_grid_multiple B s HB ltac:(lia)) in Hle. nia.
  - (* [B] lies in a lower binade than [p/q] *)
    destruct HB as [HB0 _].
    pose proof (shift_of_nonneg B) as HsB.
    pose proof (below_pow2_shift B HB0) as HBlt.
    pose proof (above_pow2_shift (p / q) ltac:(fold s; lia)) as Hnge.
    fold s in Hnge.
    assert (Hpw : 2 ^ (shift_of B + 53) <= 2 ^ (s + 52)).
    { apply Z.pow_le_mono_r; lia. }
    assert (Hd : 2 ^ 52 <= rne p (q * 2 ^ s)).
    { apply rne_ge; [nia|].
      rewrite Z.pow_add_r in Hnge by lia.
      pose proof (Z.mul_div_le p q Hq).
      assert (q * (2 ^ s * 2 ^ 52) <= q * (p / q))
        by (apply Z.mul_le_mono_nonneg_l; lia).
      lia. }
    assert (B < 2 ^ s * 2 ^ 52) by (rewrite <- Z.pow_add_r by lia; lia).
    assert (2 ^ 52 * 2 ^ s <= rne p (q * 2 ^ s) * 2 ^ s)
      by (apply Z.mul_le_mono_nonneg_r; lia).
    lia.
Qed.

Lemma round_mag_exact m : representable m -> round_mag m 1 = m.
Proof.
  intros Hm. apply Z.le_antisymm.
  - apply round_mag_le; [destruct Hm; lia | lia | | lia].
    apply representable_on_grid; assumption.
  - apply round_mag_ge; [destruct Hm; lia | lia | | lia].
    apply representable_on_grid; assumption.
Qed.

Lemma round_mag_exact_div v q :
  0 < q -> representable v -> round_mag (v * q) q = v.
Proof.
  intros Hq Hv. assert (0 <= v) by (destruct Hv; lia).
  apply Z.le_antisymm.
  - apply round_mag_le; [nia | lia | | lia].
    apply representable_on_grid; assumption.
  - apply round_mag_ge; [nia | lia | | lia].
    apply representable_on_grid; assumption.
Qed.

Lemma huge_eq : huge = 2 ^ 1024 * one_u.
Proof. reflexivity. Qed.

Lemma one_u_eq s : 0 <= s <= 1074 -> one_u = 2 ^ (1074 - s) * 2 ^ s.
Proof. intros. unfold one_u. apply pow2_split. lia. Qed.

(** Whole numbers below [2^53] are doubles. *)
Lemma representable_int n : 0 <= n < 2 ^ 53 -> representable (n * one_u).
Proof.
  intros Hn. pose proof one_u_pos. split.
  - rewrite huge_eq. nia.
  - assert (Hs : 0 <= shift_of (n * one_u) <= 1074).
    { split; [apply shift_of_nonneg|].
      destruct (Z.eq_dec n 0) as [->|]; [rewrite Z.mul_0_l; cbv; discriminate|].
      assert (Z.log2 (n * one_u) < 53 + 1074).
      { apply Z.log2_lt_pow2; [nia|].
        rewrite Z.pow_add_r by lia. fold one_u. nia. }
      unfold shift_of. lia. }
    set (s := shift_of (n * one_u)) in *.
    rewrite (one_u_eq s Hs), Z.mul_assoc. apply Z.mod_mul.
    pose proof (pow2_pos s (proj1 Hs)). lia.
Qed.

Lemma round_finite neg p q :
  round_mag p q < huge -> round neg p q = Finite neg (round_mag p q).
Proof.
  intros H. unfold round. apply Z.ltb_lt in H. rewrite H. reflexivity.
Qed.

Lemma of_int_small n :
  0 <= n < 2 ^ 53 -> of_int n = Finite false (n * one_u).
Proof.
  intros Hn. unfold of_int.
  pose proof (representable_int n Hn) as Hr.
  replace (n <? 0) with false by (symmetry; apply Z.ltb_ge; lia).
  rewrite Z.abs_eq by lia.
  rewrite round_finite; rewrite round_mag_exact by assumption;
    [reflexivity | destruct Hr; lia].
Qed.

(** *** [%] and [//] by a positive whole number *)

Section DivMod.
Variables (a : bool) (m w : Z).
Hypothesis Hm : 0 <= m.
Hypothesis Ha : nonneg a m.
Hypothesis Hw : 0 < w < 2 ^ 53.

Let W := w * one_u.

Lemma W_pos : 0 < W.
Proof. pose proof one_u_pos. unfold W. nia. Qed.

Lemma fmod_nonneg :
  fmod (Finite a m) (of_int w) = Finite a (m mod W).
Proof.
  rewrite of_int_small by lia. unfold fmod. fold W.
  pose proof W_pos. destruct (Z.eqb_spec W 0); [lia | reflexivity].
Qed.

Lemma sign_of_remainder r : 0 <= r <= m -> ltb (Finite a r) zero = false.
Proof.
  intros Hr. unfold ltb, zero, signed.
  destruct Ha as [-> | ->]; [|destruct a]; apply Z.ltb_ge; lia.
Qed.

Lemma rem_nonneg :
  rem (Finite a m) (of_int w) = Ok (Finite false (m mod W)).
Proof.
  unfold rem. rewrite fmod_nonneg. rewrite of_int_small by lia. fold W.
  pose proof W_pos as HW.
  pose proof (Z.mod_pos_bound m W HW) as Hr.
  pose proof (Z.mod_le m W Hm HW) as Hle.
  unfold is_zero at 1. destruct (Z.eqb_spec W 0); [lia|].
  unfold nonzero, is_zero.
  rewrite sign_of_remainder by lia.
  replace (ltb (Finite false W) zero) with false
    by (symmetry; apply Z.ltb_ge; simpl; lia).
  destruct (Z.eqb_spec (m mod W) 0) as [->|Hne]; simpl; [reflexivity|].
  destruct Ha as [-> | ->]; [reflexivity|].
  rewrite Z.mod_0_l in Hne by lia. congruence.
Qed.

Lemma signed_nonneg : signed a m = m.
Proof. destruct Ha as [-> | ->]; [|destruct a]; reflexivity. Qed.

Lemma sub_remainder r :
  0 <= r <= m -> round_mag (m - r) 1 < huge ->
  sub (Finite a m) (Finite a r) = Finite false (round_mag (m - r) 1).
Proof.
  intros Hr Hfin. unfold sub, opp, add.
  rewrite signed_nonneg.
  assert (signed (negb a) r = - r) as ->.
  { destruct Ha as [-> | ->]; [reflexivity|].
    replace r with 0 by lia. destruct a; reflexivity. }
  destruct (Z.eqb_spec (m + - r) 0) as [Hz|Hnz].
  - replace (m - r) with 0 by lia. destruct a; reflexivity.
  - replace (m + - r <? 0) with false by (symmetry; apply Z.ltb_ge; lia).
    rewrite Z.abs_eq by lia.
    replace (m + - r) with (m - r) by lia.
    apply round_finite. assumption.
Qed.

(** What [_float_div_mod] leaves as the quotient, given the two rounded
    intermediate magnitudes [d1 = vx - mod] and [dm = d1 / wx]. *)
Lemma floor_div_nonneg :
  let d1 := round_mag (m - m mod W) 1 in
  let dm := round_mag (d1 * one_u) W in
  d1 < huge -> dm < huge ->
  floor_div (Finite a m) (of_int w)
  = Ok (if dm =? 0 then Finite a 0
        else
          let fl := Finite false (dm / one_u * one_u) in
          if ltb half (sub (Finite false dm) fl) then add fl one else fl).
Proof.
  intros d1 dm Hd1 Hdm.
  pose proof W_pos as HW.
  pose proof (Z.mod_pos_bound m W HW) as Hr.
  pose proof (Z.mod_le m W Hm HW) as Hle.
  unfold floor_div, _float_div_mod.
  rewrite fmod_nonneg. rewrite of_int_small by lia. fold W.
  unfold is_zero at 1. destruct (Z.eqb_spec W 0); [lia|].
  rewrite sub_remainder by (fold d1; lia). fold d1.
  assert (Hdiv : div (Finite false d1) (Finite false W) = Finite false dm).
  { unfold div. destruct (Z.eqb_spec W 0); [lia|].
    simpl. apply round_finite. assumption. }
  rewrite Hdiv.
  rewrite sign_of_remainder by lia.
  replace (ltb (Finite false W) zero) with false
    by (symmetry; apply Z.ltb_ge; simpl; lia).
  assert (Hsign : sign_bit (div (Finite a m) (Finite false W)) = a).
  { unfold div. destruct (Z.eqb_spec W 0); [lia|].
    unfold round. rewrite xorb_false_r.
    destruct (_ <? huge); reflexivity. }
  set (q := div (Finite a m) (Finite false W)) in *.
  destruct (nonzero (Finite a (m mod W))); simpl;
    unfold nonzero, is_zero, zero_like;
    destruct (Z.eqb_spec dm 0); simpl; rewrite ?Hsign; reflexivity.
Qed.

End DivMod.

Lemma sub_self n : sub (Finite false n) (Finite false n) = Finite false 0.
Proof.
  unfold sub, opp, add, signed. simpl negb. cbv iota.
  rewrite Z.add_opp_diag_r. reflexivity.
Qed.

Lemma half_not_below_zero : ltb half (Finite false 0) = false.
Proof. reflexivity. Qed.

(** Below [2^53] the quotient is exact: [x // w] is the floor of [x/w]. *)
Lemma floor_div_small a m w :
  0 <= m < 2 ^ 53 * one_u -> nonneg a m -> 0 < w < 2 ^ 53 ->
  floor_div (Finite a m) (of_int w)
  = Ok (Finite (if m / (w * one_u) =? 0 then a else false)
          (m / (w * one_u) * one_u)).
Proof.
  intros Hm Ha Hw. pose proof one_u_pos as HU.
  set (W := w * one_u). set (k := m / W).
  assert (HW : 0 < W) by (unfold W; nia).
  assert (Hk : 0 <= k) by (apply Z.div_pos; lia).
  assert (Hkw : 0 <= k * w < 2 ^ 53).
  { split; [nia|].
    pose proof (Z.mul_div_le m W HW). fold k in H. unfold W in H. nia. }
  assert (Hk53 : 0 <= k < 2 ^ 53) by nia.
  assert (Hd1 : round_mag (m - m mod W) 1 = k * w * one_u).
  { replace (m - m mod W) with (k * w * one_u).
    - apply round_mag_exact, representable_int. assumption.
    - pose proof (Z.div_mod m W ltac:(lia)). fold k in H. unfold W in *. lia. }
  assert (Hdm : round_mag (k * w * one_u * one_u) W = k * one_u).
  { replace (k * w * one_u * one_u) with (k * one_u * W) by (unfold W; ring).
    apply round_mag_exact_div; [lia|]. apply representable_int. assumption. }
  pose proof (representable_int _ Hkw) as [Hh1 _].
  pose proof (representable_int _ Hk53) as [Hh2 _].
  pose proof (floor_div_nonneg a m w ltac:(lia) Ha Hw) as Hshape.
  cbv zeta in Hshape. fold W in Hshape. rewrite Hd1, Hdm in Hshape.
  rewrite Hshape by lia. clear Hshape.
  f_equal.
  destruct (Z.eqb_spec (k * one_u) 0) as [Hz|Hnz];
    destruct (Z.eqb_spec k 0) as [Hz'|Hnz']; try nia.
  - rewrite Hz'. reflexivity.
  - rewrite Z.div_mul by lia. cbv zeta.
    rewrite sub_self, half_not_below_zero. reflexivity.
Qed.

Lemma on_grid_2097 : on_grid (2 ^ 2097).
Proof. split; [cbv; discriminate | vm_compute; reflexivity]. Qed.

Lemma on_grid_above : on_grid (2 ^ 2097 + 2 ^ 2045).
Proof. split; [cbv; discriminate | vm_compute; reflexivity]. Qed.

(** In general [int(x // w)] is at least defined and not negative.  The
    bounds on the way are [T] and [T + V], for [T = 2^2097] and
    [V = 2^2045]. *)
Section Quotient.
Variables T V : Z.
Hypothesis Hhuge : huge = 2 * T.
Hypothesis HV : one_u <= V.
Hypothesis HVT : V < T.
Hypothesis HT : on_grid T.
Hypothesis HTV : on_grid (T + V).

Lemma floor_div_to_int_bounded a m w :
  representable m -> nonneg a m -> 2 <= w < 2 ^ 53 ->
  exists h, 0 <= h /\ (floor_div (Finite a m) (of_int w) ≫= to_int) = Ok h.
Proof.
  intros Hm Ha Hw. pose proof one_u_pos as HU.
  destruct (Hm) as [[Hm0 Hmh] _].
  set (W := w * one_u).
  assert (HW : 0 < W) by (unfold W; nia).
  pose proof (Z.mod_pos_bound m W HW) as Hr.
  pose proof (Z.mod_le m W Hm0 HW) as Hle.
  set (d1 := round_mag (m - m mod W) 1).
  set (dm := round_mag (d1 * one_u) W).
  assert (Hd1 : 0 <= d1 <= m).
  { split; [apply round_mag_nonneg; lia|].
    apply round_mag_le; [lia | lia | | lia].
    apply representable_on_grid. assumption. }
  assert (Hdm : 0 <= dm <= T).
  { split; [apply round_mag_nonneg; nia|].
    apply round_mag_le; [nia | lia | exact HT |].
    unfold W. nia. }
  pose proof (floor_div_nonneg a m w Hm0 Ha ltac:(lia)) as Hshape.
  cbv zeta in Hshape. fold W in Hshape. fold d1 in Hshape. fold dm in Hshape.
  rewrite Hshape by lia. clear Hshape.
  destruct (Z.eqb_spec dm 0) as [Hz|Hnz].
  - exists 0. split; [lia|]. simpl. unfold signed.
    rewrite Z.div_0_l by lia. destruct a; reflexivity.
  - set (fl := dm / one_u * one_u).
    assert (Hfl : 0 <= fl <= dm).
    { unfold fl. pose proof (Z.mul_div_le dm one_u HU).
      pose proof (Z.div_pos dm one_u ltac:(lia) HU). nia. }
    cbv zeta.
    destruct (ltb half (sub (Finite false dm) (Finite false fl))).
    + unfold add, one, signed.
      destruct (Z.eqb_spec (fl + one_u) 0); [lia|].
      replace (fl + one_u <? 0) with false by (symmetry; apply Z.ltb_ge; lia).
      rewrite Z.abs_eq by lia.
      assert (Hup : 0 <= round_mag (fl + one_u) 1 <= T + V).
      { split; [apply round_mag_nonneg; lia|].
        apply round_mag_le; [lia | lia | exact HTV |].
        lia. }
      rewrite round_finite by lia.
      exists (round_mag (fl + one_u) 1 / one_u). split; [|reflexivity].
      apply Z.div_pos; lia.
    + exists (fl / one_u). split; [apply Z.div_pos; lia | reflexivity].
Qed.

End Quotient.

Lemma floor_div_to_int a m w :
  representable m -> nonneg a m -> 2 <= w < 2 ^ 53 ->
  exists h, 0 <= h /\ (floor_div (Finite a m) (of_int w) ≫= to_int) = Ok h.
Proof.
  apply (floor_div_to_int_bounded (2 ^ 2097) (2 ^ 2045));
    [reflexivity | cbv; discriminate | reflexivity
     | apply on_grid_2097 | apply on_grid_above].
Qed.

(** *** The fractional part and its product with 1000 *)

Lemma one_u_ulp : one_u = 2 ^ 53 * ulp_below_one.
Proof. reflexivity. Qed.

(** A double below [1.0] is at most [1 - 2^-53]. *)
Lemma frac_bound m :
  representable m -> m mod one_u <= one_u - ulp_below_one.
Proof.
  intros Hm. pose proof (representable_on_grid m Hm) as Hg.
  destruct Hm as [[Hm0 _] Hmod].
  pose proof one_u_pos as HU. pose proof one_u_ulp as HT.
  assert (HT0 : 0 < ulp_below_one) by reflexivity.
  pose proof (shift_of_nonneg m) as Hs0.
  pose proof (Z.mod_pos_bound m one_u HU) as Hf.
  destruct (Z_lt_le_dec (shift_of m) 1021) as [Hlow|Hmid].
  - (* the double itself is below [2^-1 ] *)
    pose proof (below_pow2_shift m Hm0) as Hlt.
    assert (2 ^ (shift_of m + 53) <= 2 ^ 1073)
      by (apply Z.pow_le_mono_r; lia).
    assert (2 ^ 1073 = 2 ^ 52 * ulp_below_one) by reflexivity.
    rewrite Z.mod_small by lia. lia.
  - destruct (Z_lt_le_dec (shift_of m) 1074) as [Hin|Hhigh].
    + set (s := shift_of m) in *.
      pose proof (pow2_pos s Hs0) as Hp.
      pose proof (pow2_pos (1074 - s) ltac:(lia)) as Hp'.
      rewrite (on_grid_multiple m s Hg ltac:(lia)).
      rewrite (one_u_eq s ltac:(lia)).
      rewrite Z.mul_mod_distr_r by lia.
      pose proof (Z.mod_pos_bound (m / 2 ^ s) (2 ^ (1074 - s)) Hp').
      assert (ulp_below_one <= 2 ^ s)
        by (unfold ulp_below_one; apply Z.pow_le_mono_r; lia).
      nia.
    + assert (Hdiv : (one_u | m)).
      { apply Z.divide_trans with (2 ^ shift_of m).
        - exists (2 ^ (shift_of m - 1074)). unfold one_u.
          apply pow2_split. lia.
        - apply Z.mod_divide; [|assumption].
          pose proof (pow2_pos _ Hs0). lia. }
      apply Z.mod_divide in Hdiv; lia.
Qed.

Section Millis.
Variable f : Z.
Hypothesis Hf : 0 <= f <= one_u - ulp_below_one.

(** The magnitude of [(seconds % 1) * 1000]. *)
Let P := round_mag (f * (1000 * one_u)) one_u.
Let k := f * 1000 / one_u.

Lemma millis_floor : 0 <= k <= 999.
Proof.
  pose proof one_u_pos. pose proof one_u_ulp.
  assert (0 < ulp_below_one) by reflexivity.
  unfold k. split.
  - apply Z.div_pos; lia.
  - assert (f * 1000 / one_u < 1000); [|lia].
    apply Z.div_lt_upper_bound; lia.
Qed.

Lemma product_between : k * one_u <= P <= (k + 1) * one_u.
Proof.
  pose proof one_u_pos as HU. pose proof millis_floor as Hk.
  pose proof (Z.mul_div_le (f * 1000) one_u HU) as Hlo.
  pose proof (Z.mul_succ_div_gt (f * 1000) one_u HU) as Hhi.
  fold k in Hlo, Hhi.
  unfold P. split.
  - apply round_mag_ge; [nia | lia | | nia].
    apply representable_on_grid, representable_int. lia.
  - apply round_mag_le; [nia | lia | | nia].
    apply representable_on_grid, representable_int. lia.
Qed.

Lemma product_shift : shift_of (f * (1000 * one_u) / one_u) <= 1031.
Proof.
  pose proof one_u_pos as HU. pose proof one_u_ulp.
  assert (0 < ulp_below_one) by reflexivity.
  replace (f * (1000 * one_u)) with (f * 1000 * one_u) by ring.
  rewrite Z.div_mul by lia.
  unfold shift_of.
  destruct (Z.eq_dec (f * 1000) 0) as [->|]; [cbv; discriminate|].
  assert (Z.log2 (f * 1000) < 1084); [|lia].
  apply Z.log2_lt_pow2; [lia|].
  assert (2 ^ 1084 = 1024 * one_u) by reflexivity. lia.
Qed.

(** The product never reaches [1000.0]. *)
Lemma product_below_1000 : P < 1000 * one_u.
Proof.
  pose proof one_u_pos as HU. pose proof one_u_ulp as HT.
  assert (HT0 : 0 < ulp_below_one) by reflexivity.
  pose proof millis_floor as Hk. pose proof product_between as HP.
  destruct (Z_lt_le_dec k 999) as [Hlt|Hge]; [nia|].
  assert (Hk999 : k = 999) by lia.
  pose proof (Z.mul_div_le (f * 1000) one_u HU) as Hlo. fold k in Hlo.
  assert (Hs : shift_of (f * (1000 * one_u) / one_u) = 1031).
  { replace (f * (1000 * one_u)) with (f * 1000 * one_u) by ring.
    rewrite Z.div_mul by lia. unfold shift_of.
    rewrite (Z.log2_unique (f * 1000) 1083); [reflexivity | lia |].
    assert (2 ^ 1083 = 512 * one_u) by reflexivity.
    assert (2 ^ Z.succ 1083 = 1024 * one_u) by reflexivity. lia. }
  unfold P, round_mag. rewrite Hs.
  assert (H1031 : 2 ^ 1031 = 1024 * ulp_below_one) by reflexivity.
  assert (rne (f * (1000 * one_u)) (one_u * 2 ^ 1031) <= 1000 * 2 ^ 43 - 1).
  { apply rne_below_half; [nia|].
    assert (H43 : one_u = 2 ^ 43 * 2 ^ 1031) by reflexivity.
    replace ((2 * (1000 * 2 ^ 43 - 1) + 1) * (one_u * 2 ^ 1031))
      with ((2000 * (2 ^ 43 * 2 ^ 1031) - 2 ^ 1031) * one_u) by ring.
    rewrite <- H43. rewrite H1031. nia. }
  assert (H43 : one_u = 2 ^ 43 * 2 ^ 1031) by reflexivity.
  assert (0 < 2 ^ 1031) by reflexivity.
  nia.
Qed.

(** Rounding moves the product up by at most half a spacing, [2^-44]. *)
Lemma product_overshoot : P - f * 1000 <= 2 ^ 1030.
Proof.
  pose proof one_u_pos as HU.
  pose proof product_shift as Hs.
  unfold P, round_mag.
  set (s := shift_of (f * (1000 * one_u) / one_u)) in *.
  pose proof (shift_of_nonneg (f * (1000 * one_u) / one_u)) as Hs0.
  fold s in Hs0.
  pose proof (pow2_pos s Hs0) as Hp.
  pose proof (rne_up_half (f * (1000 * one_u)) (one_u * 2 ^ s) ltac:(nia))
    as Hup.
  set (r := rne (f * (1000 * one_u)) (one_u * 2 ^ s)) in *.
  assert (2 ^ s <= 2 ^ 1031) by (apply Z.pow_le_mono_r; lia).
  assert (2 ^ 1031 = 2 * 2 ^ 1030) by reflexivity.
  assert (2 * (r * 2 ^ s - f * 1000) <= 2 ^ s); [|lia].
  nia.
Qed.

Lemma millis_of_product :
  to_int (mul (Finite false f) (of_int 1000)) = Ok (P / one_u).
Proof.
  pose proof product_below_1000 as Hlt.
  rewrite of_int_small by (cbv; split; discriminate || reflexivity).
  unfold mul. simpl xorb. fold P.
  rewrite round_finite; fold P.
  - reflexivity.
  - rewrite huge_eq. pose proof one_u_pos.
    assert (1000 < 2 ^ 1024) by reflexivity. nia.
Qed.

Lemma millis_range :
  k <= P / one_u <= k + 1 /\ P / one_u <= 999
  /\ P / one_u * one_u - f * 1000 <= 2 ^ 1030.
Proof.
  pose proof one_u_pos as HU.
  pose proof product_between as [Hlo Hhi].
  pose proof product_below_1000 as Hlt.
  pose proof product_overshoot as Hov.
  pose proof (Z.mul_div_le P one_u HU) as Hfl.
  repeat split.
  - apply Z.div_le_lower_bound; lia.
  - apply Z.div_le_upper_bound; lia.
  - assert (P / one_u < 1000); [|lia].
    apply Z.div_lt_upper_bound; lia.
  - lia.
Qed.

End Millis.

End FloatFacts.


(** ** Decimal digits *)

Module DigitFacts.

Lemma decode_snoc ds c : decode (ds ++ [c]) = 10 * decode ds + (Z.of_N c - 48).
Proof. unfold decode. rewrite fold_left_app. reflexivity. Qed.

Lemma is_digit_digit d : 0 <= d <= 9 -> is_digit (digit d) = true.
Proof.
  intros Hd. unfold is_digit, digit.
  apply andb_true_iff. split; apply N.leb_le; lia.
Qed.

Lemma digit_value d : 0 <= d <= 9 -> Z.of_N (digit d) - 48 = d.
Proof. intros Hd. unfold digit. lia. Qed.

Lemma digits_fuel_spec fuel : forall n acc,
  (0 < fuel)%nat -> 0 <= n < 10 ^ Z.of_nat fuel ->
  exists ds,
    digits_fuel fuel n acc = ds ++ acc
    /\ ds <> [] /\ forallb is_digit ds = true /\ decode ds = n.
Proof.
  induction fuel as [|fuel IH]; intros n acc Hfuel Hn.
  - lia.
  - simpl digits_fuel.
    pose proof (Z.mod_pos_bound n 10 ltac:(lia)) as Hmod.
    destruct (Z.ltb_spec n 10) as [Hsmall|Hbig].
    + exists [digit (n mod 10)]. repeat split.
      * discriminate.
      * simpl. rewrite is_digit_digit by lia. reflexivity.
      * unfold decode. simpl. rewrite digit_value by lia.
        rewrite Z.mod_small by lia. lia.
    + assert (Hdiv : 0 <= n / 10 < 10 ^ Z.of_nat fuel).
      { split; [apply Z.div_pos; lia|].
        apply Z.div_lt_upper_bound; [lia|].
        rewrite Nat2Z.inj_succ, Z.pow_succ_r in Hn by lia. lia. }
      assert (Hfuel' : (0 < fuel)%nat).
      { destruct fuel; [|lia]. simpl in Hdiv.
        assert (1 <= n / 10) by (apply Z.div_le_lower_bound; lia). lia. }
      destruct (IH (n / 10) (digit (n mod 10) :: acc) Hfuel' Hdiv)
        as (ds & Heq & Hne & Hdig & Hval).
      exists (ds ++ [digit (n mod 10)]). repeat split.
      * rewrite Heq, <- app_assoc. reflexivity.
      * destruct ds; discriminate.
      * rewrite forallb_app, Hdig. simpl.
        rewrite is_digit_digit by lia. reflexivity.
      * rewrite decode_snoc, Hval, digit_value by lia.
        pose proof (Z.div_mod n 10 ltac:(lia)). lia.
Qed.

Lemma digits_spec n :
  0 <= n ->
  digits n <> [] /\ forallb is_digit (digits n) = true
  /\ decode (digits n) = n.
Proof.
  intros Hn. unfold digits.
  destruct (digits_fuel_spec (S (Z.to_nat (Z.log2 n))) n [])
    as (ds & Heq & Hne & Hdig & Hval).
  - lia.
  - split; [assumption|].
    rewrite Nat2Z.inj_succ, Z2Nat.id by apply Z.log2_nonneg.
    destruct (Z.eq_dec n 0) as [->|]; [reflexivity|].
    pose proof (Z.log2_spec n ltac:(lia)) as [_ Hlt].
    eapply Z.lt_le_trans; [exact Hlt|].
    apply Z.pow_le_mono_l. lia.
  - rewrite Heq, app_nil_r. auto.
Qed.

Lemma decode_bound ds :
  forallb is_digit ds = true -> 0 <= decode ds < 10 ^ Z.of_nat (length ds).
Proof.
  induction ds as [|c ds IH] using rev_ind; intros Hdig.
  - cbv. split; [discriminate | reflexivity].
  - rewrite forallb_app in Hdig. apply andb_true_iff in Hdig.
    destruct Hdig as [Hds Hc]. simpl in Hc. rewrite andb_true_r in Hc.
    specialize (IH Hds).
    rewrite decode_snoc, length_app, Nat2Z.inj_add. simpl length.
    rewrite Z.pow_add_r by lia. change (10 ^ Z.of_nat 1) with 10.
    unfold is_digit in Hc. apply andb_true_iff in Hc.
    destruct Hc as [Hlo Hhi]. apply N.leb_le in Hlo, Hhi. lia.
Qed.

Lemma decode_zeros k ds : decode (repeat 48%N k ++ ds) = decode ds.
Proof.
  unfold decode. rewrite fold_left_app. f_equal.
  induction k as [|k IH]; [reflexivity|]. simpl. exact IH.
Qed.

Lemma forallb_zeros k : forallb is_digit (repeat 48%N k) = true.
Proof. induction k; [reflexivity | simpl; assumption]. Qed.

(** The hours field: at least two digits, the number itself, and more
    than two digits from 100 on. *)
Lemma format_02d_spec h :
  0 <= h ->
  forallb is_digit (format_0d 2 h) = true
  /\ (2 <= length (format_0d 2 h))%nat
  /\ decode (format_0d 2 h) = h
  /\ (100 <= h -> (2 < length (format_0d 2 h))%nat).
Proof.
  intros Hh. unfold format_0d.
  replace (h <? 0) with false by (symmetry; apply Z.ltb_ge; lia).
  rewrite Z.abs_eq by lia. simpl app. simpl length.
  destruct (digits_spec h Hh) as (Hne & Hdig & Hval).
  pose proof (decode_bound _ Hdig) as Hb. rewrite Hval in Hb.
  repeat split.
  - rewrite forallb_app, forallb_zeros, Hdig. reflexivity.
  - rewrite length_app, repeat_length. lia.
  - rewrite decode_zeros. assumption.
  - intros H100. rewrite length_app, repeat_length.
    assert (2 < length (digits h))%nat; [|lia].
    destruct (digits h) as [|c1 [|c2 [|c3 ds]]]; simpl in *; lia.
Qed.

(** The bounded fields, by running [format_0d] on every value. *)
Lemma format_02d_small n :
  0 <= n <= 99 -> format_0d 2 n = [digit (n / 10); digit (n mod 10)].
Proof.
  intros Hn.
  assert (Hall : forallb (fun i =>
            bool_decide (format_0d 2 (Z.of_nat i)
                         = [digit (Z.of_nat i / 10); digit (Z.of_nat i mod 10)]))
          (seq 0 100) = true) by (vm_compute; reflexivity).
  rewrite forallb_forall in Hall.
  specialize (Hall (Z.to_nat n)). rewrite Z2Nat.id in Hall by lia.
  apply bool_decide_eq_true in Hall; [assumption|].
  apply in_seq. lia.
Qed.

Lemma format_03d_small n :
  0 <= n <= 999 ->
  format_0d 3 n = [digit (n / 100); digit (n / 10 mod 10); digit (n mod 10)].
Proof.
  intros Hn.
  assert (Hall : forallb (fun i =>
            bool_decide (format_0d 3 (Z.of_nat i)
                         = [digit (Z.of_nat i / 100);
                            digit (Z.of_nat i / 10 mod 10);
                            digit (Z.of_nat i mod 10)]))
          (seq 0 1000) = true) by (vm_compute; reflexivity).
  rewrite forallb_forall in Hall.
  specialize (Hall (Z.to_nat n)). rewrite Z2Nat.id in Hall by lia.
  apply bool_decide_eq_true in Hall; [assumption|].
  apply in_seq. lia.
Qed.

Lemma take_digits_app hh c rest :
  forallb is_digit hh = true -> is_digit c = false ->
  take_digits (hh ++ c :: rest) = hh.
Proof.
  intros Hhh Hc. induction hh as [|d hh IH]; simpl in *.
  - rewrite Hc. reflexivity.
  - apply andb_true_iff in Hhh. destruct Hhh as [-> Hhh].
    rewrite IH by assumption. reflexivity.
Qed.

Lemma drop_digits_app hh c rest :
  forallb is_digit hh = true -> is_digit c = false ->
  drop_digits (hh ++ c :: rest) = c :: rest.
Proof.
  intros Hhh Hc. induction hh as [|d hh IH]; simpl in *.
  - rewrite Hc. reflexivity.
  - apply andb_true_iff in Hhh. destruct Hhh as [-> Hhh].
    apply IH. assumption.
Qed.

Lemma matches_timestamp_fields sep hh mi se ms :
  forallb is_digit hh = true -> (2 <= length hh)%nat ->
  0 <= mi <= 99 -> 0 <= se <= 99 -> 0 <= ms <= 999 ->
  matches_timestamp sep
    (hh ++ lit ":" ++ [digit (mi / 10); digit (mi mod 10)] ++ lit ":"
     ++ [digit (se / 10); digit (se mod 10)] ++ [sep]
     ++ [digit (ms / 100); digit (ms / 10 mod 10); digit (ms mod 10)])
  = true.
Proof.
  intros Hhh Hlen Hmi Hse Hms. unfold matches_timestamp.
  change (lit ":") with [58%N]. simpl app.
  rewrite take_digits_app, drop_digits_app by (assumption || reflexivity).
  apply Nat.leb_le in Hlen. rewrite Hlen. simpl.
  rewrite N.eqb_refl.
  pose proof (Z.mod_pos_bound mi 10 ltac:(lia)).
  pose proof (Z.mod_pos_bound se 10 ltac:(lia)).
  pose proof (Z.mod_pos_bound ms 10 ltac:(lia)).
  pose proof (Z.mod_pos_bound (ms / 10) 10 ltac:(lia)).
  assert (0 <= mi / 10 <= 9).
  { split; [apply Z.div_pos; lia|].
    assert (mi / 10 < 10) by (apply Z.div_lt_upper_bound; lia). lia. }
  assert (0 <= se / 10 <= 9).
  { split; [apply Z.div_pos; lia|].
    assert (se / 10 < 10) by (apply Z.div_lt_upper_bound; lia). lia. }
  assert (0 <= ms / 100 <= 9).
  { split; [apply Z.div_pos; lia|].
    assert (ms / 100 < 10) by (apply Z.div_lt_upper_bound; lia). lia. }
  rewrite !is_digit_digit by lia. reflexivity.
Qed.

End DigitFacts.

(** ** The timestamp codec *)

Module TimestampFacts.
Import Float FloatFacts.

Lemma bind_Ok {A B} (a : A) (k : A -> except B) : (Ok a ≫= k) = k a.
Proof. reflexivity. Qed.

Lemma ge0_finite a m :
  0 <= m -> ge0 (Finite a m) = true -> nonneg a m.
Proof.
  intros Hm H. unfold ge0, ltb, zero, signed in H.
  apply andb_true_iff in H. destruct H as [H _].
  apply negb_true_iff, Z.ltb_ge in H.
  destruct a; [right; lia | left; reflexivity].
Qed.

Section Fields.
Variables (a : bool) (m : Z).
Hypothesis Hm : representable m.
Hypothesis Ha : nonneg a m.

Lemma minutes_range : 0 <= minutes_of m <= 59.
Proof.
  pose proof one_u_pos. unfold minutes_of.
  pose proof (Z.mod_pos_bound m (3600 * one_u) ltac:(lia)).
  split; [apply Z.div_pos; lia|].
  assert (m mod (3600 * one_u) / (60 * one_u) < 60); [|lia].
  apply Z.div_lt_upper_bound; lia.
Qed.

Lemma secs_range : 0 <= secs_of m <= 59.
Proof.
  pose proof one_u_pos. unfold secs_of.
  pose proof (Z.mod_pos_bound m (60 * one_u) ltac:(lia)).
  split; [apply Z.div_pos; lia|].
  assert (m mod (60 * one_u) / one_u < 60); [|lia].
  apply Z.div_lt_upper_bound; lia.
Qed.

Lemma frac_range : 0 <= m mod one_u <= one_u - ulp_below_one.
Proof.
  pose proof (Z.mod_pos_bound m one_u one_u_pos).
  pose proof (frac_bound m Hm). lia.
Qed.

Lemma millis_bounds :
  m mod one_u * 1000 / one_u <= millis_of m <= m mod one_u * 1000 / one_u + 1
  /\ 0 <= millis_of m <= 999
  /\ millis_of m * one_u - m mod one_u * 1000 <= 2 ^ 1030.
Proof.
  pose proof (millis_range (m mod one_u) frac_range) as (H1 & H2 & H3).
  pose proof (millis_floor (m mod one_u) frac_range).
  unfold millis_of. repeat split; lia.
Qed.

Lemma minutes_field :
  (r ← rem (Finite a m) (of_int 3600);
   q ← floor_div r (of_int 60);
   to_int q) = Ok (minutes_of m).
Proof.
  pose proof one_u_pos as HU. destruct Hm as [[Hm0 _] _].
  rewrite rem_nonneg by (assumption || lia). rewrite bind_Ok.
  pose proof (Z.mod_pos_bound m (3600 * one_u) ltac:(lia)) as Hr.
  rewrite floor_div_small; [| nia | left; reflexivity | lia].
  rewrite bind_Ok. unfold to_int, minutes_of.
  rewrite Z.div_mul by lia. f_equal.
  unfold signed. destruct (_ =? 0); reflexivity.
Qed.

Lemma secs_field :
  (r ← rem (Finite a m) (of_int 60); to_int r) = Ok (secs_of m).
Proof.
  destruct Hm as [[Hm0 _] _].
  rewrite rem_nonneg by (assumption || lia). reflexivity.
Qed.

Lemma millis_field :
  (r ← rem (Finite a m) (of_int 1);
   to_int (mul r (of_int 1000))) = Ok (millis_of m).
Proof.
  destruct Hm as [[Hm0 _] _].
  rewrite rem_nonneg by (assumption || lia). rewrite bind_Ok.
  rewrite Z.mul_1_l.
  apply millis_of_product, frac_range.
Qed.

Lemma hours_field :
  exists hours,
    0 <= hours
    /\ (q ← floor_div (Finite a m) (of_int 3600); to_int q) = Ok hours
    /\ (m < 2 ^ 53 * one_u -> hours = m / (3600 * one_u)).
Proof.
  pose proof one_u_pos as HU.
  destruct (floor_div_to_int a m 3600 Hm Ha ltac:(lia)) as (h & Hh0 & Hh).
  exists h. repeat split; try assumption.
  intros Hsmall. destruct Hm as [[Hm0 _] _].
  rewrite floor_div_small in Hh by (assumption || lia).
  rewrite bind_Ok in Hh. unfold to_int in Hh.
  rewrite Z.div_mul in Hh by lia.
  injection Hh as <-. unfold signed.
  destruct (Z.eqb_spec (m / (3600 * one_u)) 0) as [->|]; [|reflexivity].
  destruct a; reflexivity.
Qed.

End Fields.

(** Both codecs run the same four computations. *)
Lemma srt_time_fields x :
  seconds_to_srt_time x =
  (hours ← (q ← floor_div x (of_int 3600); to_int q);
   minutes ← (r ← rem x (of_int 3600);
              q ← floor_div r (of_int 60); to_int q);
   secs ← (r ← rem x (of_int 60); to_int r);
   millis ← (r ← rem x (of_int 1); to_int (mul r (of_int 1000)));
   Ok (format_0d 2 hours ++ lit ":" ++ format_0d 2 minutes ++ lit ":"
       ++ format_0d 2 secs ++ lit "," ++ format_0d 3 millis)).
Proof.
  unfold seconds_to_srt_time.
  generalize (of_int 3600), (of_int 60), (of_int 1), (of_int 1000).
  intros c3600 c60 c1 c1000.
  destruct (floor_div x c3600) as [q|e]; [|reflexivity].
  rewrite !bind_Ok. destruct (to_int q) as [h|e]; [|reflexivity].
  rewrite !bind_Ok. destruct (rem x c3600) as [r|e]; [|reflexivity].
  rewrite !bind_Ok.
  destruct (floor_div r c60) as [q'|e]; [|reflexivity].
  rewrite !bind_Ok. destruct (to_int q') as [mi|e]; [|reflexivity].
  rewrite !bind_Ok. destruct (rem x c60) as [r'|e]; [|reflexivity].
  rewrite !bind_Ok. destruct (to_int r') as [se|e]; [|reflexivity].
  rewrite !bind_Ok. destruct (rem x c1) as [r''|e]; reflexivity.
Qed.

Lemma vtt_time_fields x :
  seconds_to_vtt_time x =
  (hours ← (q ← floor_div x (of_int 3600); to_int q);
   minutes ← (r ← rem x (of_int 3600);
              q ← floor_div r (of_int 60); to_int q);
   secs ← (r ← rem x (of_int 60); to_int r);
   millis ← (r ← rem x (of_int 1); to_int (mul r (of_int 1000)));
   Ok (format_0d 2 hours ++ lit ":" ++ format_0d 2 minutes ++ lit ":"
       ++ format_0d 2 secs ++ lit "." ++ format_0d 3 millis)).
Proof.
  unfold seconds_to_vtt_time.
  generalize (of_int 3600), (of_int 60), (of_int 1), (of_int 1000).
  intros c3600 c60 c1 c1000.
  destruct (floor_div x c3600) as [q|e]; [|reflexivity].
  rewrite !bind_Ok. destruct (to_int q) as [h|e]; [|reflexivity].
  rewrite !bind_Ok. destruct (rem x c3600) as [r|e]; [|reflexivity].
  rewrite !bind_Ok.
  destruct (floor_div r c60) as [q'|e]; [|reflexivity].
  rewrite !bind_Ok. destruct (to_int q') as [mi|e]; [|reflexivity].
  rewrite !bind_Ok. destruct (rem x c60) as [r'|e]; [|reflexivity].
  rewrite !bind_Ok. destruct (to_int r') as [se|e]; [|reflexivity].
  rewrite !bind_Ok. destruct (rem x c1) as [r''|e]; reflexivity.
Qed.


End TimestampFacts.

(** ** The claims on the timestamp codec *)

(** C4, as amended (finite floats).  For every finite [seconds >= 0],
    [seconds_to_srt_time] and [seconds_to_vtt_time] return: the hours
    [int(seconds // 3600)] in decimal, zero-padded to at least two digits
    and never cut (from 100 hours on the field has more than two digits
    and still reads back as the number); then [:], two digits of minutes
    (at most 59), [:], two digits of seconds (at most 59), the separator
    and three digits of milliseconds (at most 999).  The separator is a
    comma for SRT and a dot for VTT and nothing else differs, so the
    outputs match [\d{2,}:\d{2}:\d{2},\d{3}] and
    [\d{2,}:\d{2}:\d{2}\.\d{3}]. *)
Theorem timestamp_format (x : float) :
  Float.valid x -> Float.is_finite x = true -> Float.ge0 x = true ->
  exists (hours minutes secs millis : Z) (hh : str),
    (q ← Float.floor_div x (Float.of_int 3600); Float.to_int q) = Ok hours
    /\ 0 <= hours /\ 0 <= minutes <= 59 /\ 0 <= secs <= 59
    /\ 0 <= millis <= 999
    /\ hh = format_0d 2 hours
    /\ forallb is_digit hh = true /\ (2 <= length hh)%nat
    /\ decode hh = hours /\ (100 <= hours -> (2 < length hh)%nat)
    /\ seconds_to_srt_time x
       = Ok (hh ++ lit ":" ++ two_digits minutes ++ lit ":"
             ++ two_digits secs ++ lit "," ++ three_digits millis)
    /\ seconds_to_vtt_time x
       = Ok (hh ++ lit ":" ++ two_digits minutes ++ lit ":"
             ++ two_digits secs ++ lit "." ++ three_digits millis)
    /\ (forall out, seconds_to_srt_time x = Ok out ->
                    matches_timestamp 44 out = true)
    /\ (forall out, seconds_to_vtt_time x = Ok out ->
                    matches_timestamp 46 out = true).
Proof.
  intros Hvalid Hfin Hge. destruct x as [a m| |]; try discriminate.
  simpl in Hvalid.
  assert (Ha : nonneg a m).
  { apply TimestampFacts.ge0_finite; [destruct Hvalid; lia | assumption]. }
  destruct (TimestampFacts.hours_field a m Hvalid Ha) as (hours & Hh0 & Hh & _).
  pose proof (TimestampFacts.minutes_range m) as Hmi.
  pose proof (TimestampFacts.secs_range m) as Hse.
  pose proof (TimestampFacts.millis_bounds m Hvalid) as (_ & Hms & _).
  destruct (DigitFacts.format_02d_spec hours Hh0) as (Hd & Hlen & Hdec & H100).
  assert (Hsrt : seconds_to_srt_time (Finite a m)
       = Ok (format_0d 2 hours ++ lit ":"
             ++ two_digits (minutes_of m) ++ lit ":"
             ++ two_digits (secs_of m) ++ lit ","
             ++ three_digits (millis_of m))).
  { rewrite TimestampFacts.srt_time_fields, Hh, TimestampFacts.bind_Ok.
    rewrite TimestampFacts.minutes_field, TimestampFacts.bind_Ok by assumption.
    rewrite TimestampFacts.secs_field, TimestampFacts.bind_Ok by assumption.
    rewrite TimestampFacts.millis_field, TimestampFacts.bind_Ok by assumption.
    rewrite (DigitFacts.format_02d_small (minutes_of m)),
      (DigitFacts.format_02d_small (secs_of m)),
      (DigitFacts.format_03d_small (millis_of m)) by lia.
    reflexivity. }
  assert (Hvtt : seconds_to_vtt_time (Finite a m)
       = Ok (format_0d 2 hours ++ lit ":"
             ++ two_digits (minutes_of m) ++ lit ":"
             ++ two_digits (secs_of m) ++ lit "."
             ++ three_digits (millis_of m))).
  { rewrite TimestampFacts.vtt_time_fields, Hh, TimestampFacts.bind_Ok.
    rewrite TimestampFacts.minutes_field, TimestampFacts.bind_Ok by assumption.
    rewrite TimestampFacts.secs_field, TimestampFacts.bind_Ok by assumption.
    rewrite TimestampFacts.millis_field, TimestampFacts.bind_Ok by assumption.
    rewrite (DigitFacts.format_02d_small (minutes_of m)),
      (DigitFacts.format_02d_small (secs_of m)),
      (DigitFacts.format_03d_small (millis_of m)) by lia.
    reflexivity. }
  exists hours, (minutes_of m), (secs_of m),
    (millis_of m), (format_0d 2 hours).
  repeat match goal with |- _ /\ _ => split end;
    try assumption; try lia; try reflexivity.
  - intros out Hout. rewrite Hsrt in Hout. injection Hout as <-.
    apply (DigitFacts.matches_timestamp_fields 44); assumption || lia.
  - intros out Hout. rewrite Hvtt in Hout. injection Hout as <-.
    apply (DigitFacts.matches_timestamp_fields 46); assumption || lia.
Qed.

Lemma representableb_true m :
  Float.representableb m = true -> Float.representable m.
Proof.
  unfold Float.representableb, Float.representable. intros H.
  apply andb_true_iff in H. destruct H as [H H3].
  apply andb_true_iff in H. destruct H as [H1 H2].
  apply Z.leb_le in H1. apply Z.ltb_lt in H2. apply Z.eqb_eq in H3. auto.
Qed.

Lemma validb_true x : Float.validb x = true -> Float.valid x.
Proof.
  destruct x; simpl; [apply representableb_true | trivial | trivial].
Qed.

Lemma timestamp_format_witness :
  Float.valid sample_time /\ Float.is_finite sample_time = true
  /\ Float.ge0 sample_time = true
  /\ exists out, seconds_to_srt_time sample_time = Ok out
                 /\ matches_timestamp 44 out = true.
Proof.
  assert (Hv : Float.valid sample_time)
    by (apply validb_true; vm_compute; reflexivity).
  assert (Hf : Float.is_finite sample_time = true)
    by (vm_compute; reflexivity).
  assert (Hg : Float.ge0 sample_time = true) by (vm_compute; reflexivity).
  refine (conj Hv (conj Hf (conj Hg _))).
  destruct (timestamp_format sample_time Hv Hf Hg)
    as (h & mi & se & ms & hh & _ & _ & _ & _ & _ & _ & _ & _ & _ & _
        & Hsrt & _ & Hmatch & _).
  eexists. split; [exact Hsrt | apply Hmatch; exact Hsrt].
Defined.

(** C4 as stated fails at [+inf], which is a float [>= 0]: the first
    [int(...)] raises. *)
Lemma timestamp_of_infinity :
  Float.valid (Infinity false) /\ Float.ge0 (Infinity false) = true
  /\ seconds_to_srt_time (Infinity false)
     = Raise (ValueError (lit "cannot convert float NaN to integer"))
  /\ seconds_to_vtt_time (Infinity false)
     = Raise (ValueError (lit "cannot convert float NaN to integer")).
Proof.
  split; [exact I|].
  repeat split; vm_compute; reflexivity.
Qed.




(** ** The renderers *)

(** C7. For every transcript whose segments are empty, the Markdown, SRT
    and VTT renderers return normally: the Markdown report is its six
    header lines and nothing else, the SRT document is empty (no cue
    number, no timing line), and the VTT document is just [WEBVTT]. *)
Theorem empty_segments_header_only (py : python) (now : datetime)
  (result : TranscriptionResult.t) :
  TranscriptionResult.segments result = [] ->
  OutputFormatter.format py MarkdownFormatter now result
  = Ok (join [nl] (markdown_header now result))
  /\ OutputFormatter.format py SRTFormatter now result = Ok []
  /\ OutputFormatter.format py VTTFormatter now result = Ok (lit "WEBVTT").
Proof.
  intros Hempty. unfold OutputFormatter.format.
  unfold MarkdownFormatter.format, SRTFormatter.format, VTTFormatter.format.
  rewrite Hempty. repeat split; reflexivity.
Qed.

Lemma empty_segments_header_only_witness :
  TranscriptionResult.segments no_segments = []
  /\ OutputFormatter.format some_python VTTFormatter new_year no_segments
     = Ok (lit "WEBVTT").
Proof.
  split; [reflexivity|].
  apply (empty_segments_header_only some_python new_year no_segments).
  reflexivity.
Defined.






(** ** What the renderers can raise *)

Module RaiseFacts.
Import Float.



Section Fields.
Variables (x c c' : float).
Hypothesis Hc : is_zero c = false.
Hypothesis Hc' : is_zero c' = false.






End Fields.















End RaiseFacts.

(** ** The registry *)




(** ** The file system *)

Module FsFacts.
Import Fs.

Lemma parts_last (p : Path.t) name r :
  rev (Path.parts p) = name :: r ->
  Path.parts p = rev r ++ [name] /\ removelast (Path.parts p) = rev r.
Proof.
  intros H. assert (Hp : Path.parts p = rev r ++ [name]).
  { rewrite <- (rev_involutive (Path.parts p)), H. reflexivity. }
  split; [assumption|]. rewrite Hp. apply removelast_last.
Qed.

Lemma walk_app fs names : forall location more,
  walk fs location (names ++ more)
  = (there ← walk fs location names; walk fs there more).
Proof.
  induction names as [|name names IH]; intros location more; simpl.
  - reflexivity.
  - destruct (decide (name = dotdot)); [apply IH|].
    destruct (kind fs (location ++ [name])) as [[|]|]; try reflexivity.
    apply IH.
Qed.

Lemma kind_with_dir_other fs new location :
  location <> new -> kind (with_dir fs new) location = kind fs location.
Proof.
  intros Hne. destruct location as [|x l]; [reflexivity|].
  simpl. apply lookup_insert_ne. congruence.
Qed.

Lemma kind_with_dir_new fs new :
  new <> [] -> kind (with_dir fs new) new = Some Dir.
Proof.
  intros Hne. destruct new as [|x l]; [congruence|].
  simpl. apply lookup_insert_eq.
Qed.

Lemma walk_with_dir fs new names : forall location there,
  kind fs new = None ->
  walk fs location names = Ok there ->
  walk (with_dir fs new) location names = Ok there.
Proof.
  induction names as [|name names IH]; intros location there Hnew H;
    simpl in *.
  - assumption.
  - destruct (decide (name = dotdot)); [apply IH; assumption|].
    destruct (kind fs (location ++ [name])) as [[|]|] eqn:Hk;
      try discriminate H.
    rewrite kind_with_dir_other by congruence.
    rewrite Hk. apply IH; assumption.
Qed.

Lemma os_mkdir_is_dir fs p fs' :
  os_mkdir fs p = Ok fs' -> is_dir fs' p = true.
Proof.
  unfold os_mkdir.
  destruct (rev (Path.parts p)) as [|name r] eqn:Hrev; [discriminate|].
  destruct (parts_last p name r Hrev) as [Hparts ->].
  destruct (walk fs (start fs p) (rev r)) as [location|] eqn:Hwalk;
    [|discriminate].
  simpl. destruct (decide (name = dotdot)) as [|Hname]; [discriminate|].
  destruct (kind fs (location ++ [name])) eqn:Hkind; [discriminate|].
  intros H. injection H as <-.
  fold (with_dir fs (location ++ [name])).
  unfold is_dir. rewrite Hparts, walk_app.
  change (start (with_dir fs (location ++ [name])) p) with (start fs p).
  rewrite (walk_with_dir fs _ _ _ _ Hkind Hwalk). simpl.
  destruct (decide (name = dotdot)); [contradiction|].
  rewrite kind_with_dir_new by (destruct location; discriminate).
  reflexivity.
Qed.

Lemma is_dir_os_mkdir fs p :
  is_dir fs p = true -> os_mkdir fs p = Raise FileExistsError.
Proof.
  unfold is_dir, os_mkdir.
  destruct (rev (Path.parts p)) as [|name r] eqn:Hrev; [reflexivity|].
  destruct (parts_last p name r Hrev) as [Hparts ->].
  rewrite Hparts, walk_app.
  destruct (walk fs (start fs p) (rev r)) as [location|]; [|discriminate].
  simpl. destruct (decide (name = dotdot)); [reflexivity|].
  destruct (kind fs (location ++ [name])) as [[|]|]; try discriminate.
  reflexivity.
Qed.

Lemma mkdir_parents_is_dir depth : forall fs p fs',
  mkdir_parents depth fs p = Ok fs' -> is_dir fs' p = true.
Proof.
  destruct depth as [|depth]; intros fs p fs' H; simpl in H.
  - destruct (os_mkdir fs p) as [fs0|e] eqn:Hmk.
    + injection H as <-. eapply os_mkdir_is_dir; eassumption.
    + destruct e; try discriminate H;
        destruct (is_dir fs p) eqn:Hd; try discriminate H;
        injection H as <-; assumption.
  - destruct (os_mkdir fs p) as [fs0|e] eqn:Hmk.
    + injection H as <-. eapply os_mkdir_is_dir; eassumption.
    + destruct e;
        try (destruct (is_dir fs p) eqn:Hd; [|discriminate H];
             injection H as <-; assumption).
      destruct (mkdir_parents depth fs (Path.parent p)) as [fs1|e1];
        [|discriminate H].
      simpl in H.
      destruct (os_mkdir fs1 p) as [fs2|e2] eqn:Hmk2.
      * injection H as <-. eapply os_mkdir_is_dir; eassumption.
      * destruct e2; try discriminate H;
          destruct (is_dir fs1 p) eqn:Hd; try discriminate H;
          injection H as <-; assumption.
Qed.

Lemma is_dir_mkdir_parents depth fs p :
  is_dir fs p = true -> mkdir_parents depth fs p = Ok fs.
Proof.
  intros Hd. pose proof (is_dir_os_mkdir fs p Hd) as Hmk.
  destruct depth; simpl; rewrite Hmk, Hd; reflexivity.
Qed.

(** The directory exists after [mkdir], and [mkdir] on an existing
    directory changes nothing and does not raise. *)
Lemma mkdir_is_dir fs p fs' : mkdir fs p = Ok fs' -> is_dir fs' p = true.
Proof. apply mkdir_parents_is_dir. Qed.

Lemma mkdir_again fs p fs' : mkdir fs p = Ok fs' -> mkdir fs' p = Ok fs'.
Proof.
  intros H. apply is_dir_mkdir_parents. eapply mkdir_is_dir. eassumption.
Qed.

End FsFacts.

(** ** Output paths *)

Module PathFacts.

Lemma join_snoc sep (items : list str) x :
  items <> [] -> join sep (items ++ [x]) = join sep items ++ sep ++ x.
Proof.
  induction items as [|a [|b rest] IH]; intros Hne.
  - congruence.
  - reflexivity.
  - change (join sep ((a :: b :: rest) ++ [x]))
      with (a ++ sep ++ join sep ((b :: rest) ++ [x])).
    rewrite IH by discriminate.
    change (join sep (a :: b :: rest)) with (a ++ sep ++ join sep (b :: rest)).
    rewrite <- !app_assoc. reflexivity.
Qed.

Lemma splitroot_relative s :
  starts_with_slash s = false -> Path.splitroot s = ([], s).
Proof.
  intros H. unfold Path.splitroot.
  assert (lstrip_by is_slash s = s) as ->.
  { destruct s as [|c s]; [reflexivity|]. simpl in *. rewrite H. reflexivity. }
  rewrite Nat.sub_diag. reflexivity.
Qed.

Lemma parse_relative s :
  starts_with_slash s = false ->
  Path.parse s = {| Path.root := []; Path.parts := Path.components s |}.
Proof. intros H. unfold Path.parse. rewrite splitroot_relative by assumption. reflexivity. Qed.

Lemma joinpath_relative self s :
  starts_with_slash s = false ->
  Path.joinpath self s
  = {| Path.root := Path.root self;
       Path.parts := Path.parts self ++ Path.components s |}.
Proof.
  intros H. unfold Path.joinpath. rewrite parse_relative by assumption.
  reflexivity.
Qed.

Lemma components_plain s :
  Forall (fun c => c <> slash) s -> (2 <= length s)%nat ->
  Path.components s = [s].
Proof.
  intros Hs Hlen. unfold Path.components, split_on.
  rewrite split_on_from_no_sep by assumption. simpl.
  unfold Path.keeps.
  destruct s as [|a [|b s]]; simpl in Hlen; try lia.
  rewrite !bool_decide_eq_false_2 by discriminate. reflexivity.
Qed.

Lemma plain_not_absolute s :
  Forall (fun c => c <> slash) s -> starts_with_slash s = false.
Proof.
  intros Hs. destruct Hs as [|c s Hc _]; [reflexivity|].
  simpl. apply N.eqb_neq. assumption.
Qed.


Lemma filename_length base language format :
  (2 <= length (base ++ lit "." ++ language ++ lit "." ++ format))%nat.
Proof.
  rewrite !length_app. change (length (lit ".")) with 1%nat. lia.
Qed.


End PathFacts.




(** C10. [generate_output_path] puts base name, language and format into
    the file name as they are: the returned path is
    [output_dir / (base_name + "." + language + "." + format)] with no
    call of [sanitize_filename] (which would turn ["../x"] into ["-x"]).
    For the base name ["../x"], which contains a path separator, the
    path returned for the directory [out] is [out/../x.en.srt]; it
    resolves to [/work/x.en.srt], outside [/work/out].  With the
    sanitized name the path stays inside. *)
Theorem generate_output_path_verbatim (py : python) (fs : filesystem)
  (base_name language format : str) (output_dir : Path.t) :
  FileUtils.generate_output_path fs base_name language format output_dir
  = (fs' ← Fs.mkdir fs output_dir;
     Ok (Path.joinpath output_dir
           (base_name ++ lit "." ++ language ++ lit "." ++ format), fs'))
  /\ In slash (lit "../x")
  /\ (exists path fs',
        FileUtils.generate_output_path work_fs (lit "../x") (lit "en")
          (lit "srt") (Path.parse (lit "out")) = Ok (path, fs')
        /\ Path.to_str path = lit "out/../x.en.srt"
        /\ Fs.resolve fs' (Path.parse (lit "out")) = [lit "work"; lit "out"]
        /\ Fs.resolve fs' path = [lit "work"; lit "x.en.srt"]
        /\ Fs.inside (Fs.resolve fs' (Path.parse (lit "out")))
             (Fs.resolve fs' path) = false)
  /\ FileUtils.sanitize_filename py (lit "../x") 200 = lit "-x"
  /\ (exists path fs',
        FileUtils.generate_output_path work_fs
          (FileUtils.sanitize_filename py (lit "../x") 200) (lit "en")
          (lit "srt") (Path.parse (lit "out")) = Ok (path, fs')
        /\ Path.to_str path = lit "out/-x.en.srt"
        /\ Fs.inside (Fs.resolve fs' (Path.parse (lit "out")))
             (Fs.resolve fs' path) = true).
Proof.
  split; [reflexivity|].
  split; [vm_compute; tauto|].
  split.
  { exists (Path.parse (lit "out/../x.en.srt")),
      (with_dir work_fs [lit "work"; lit "out"]).
    repeat split; vm_compute; reflexivity. }
  split; [vm_compute; reflexivity|].
  exists (Path.parse (lit "out/-x.en.srt")),
    (with_dir work_fs [lit "work"; lit "out"]).
  repeat split; vm_compute; reflexivity.
Qed.

(** * Further properties *)

(** ** Sanitized file names *)

Module SanitizeFacts.
Import FileUtils.

Lemma no_run_app c a b :
  no_run c (a ++ b) = true -> no_run c a = true /\ no_run c b = true.
Proof.
  induction a as [|x a IH]; intros H; [split; [reflexivity | exact H]|].
  change ((x :: a) ++ b) with (x :: (a ++ b)) in H. simpl in H.
  apply andb_true_iff in H. destruct H as [H1 H2].
  destruct (IH H2) as [Ha Hb]. split; [|assumption].
  simpl. rewrite Ha, andb_true_r.
  destruct a as [|y a]; [rewrite andb_false_r; reflexivity | exact H1].
Qed.

Lemma forallb_squeeze (P : N -> bool) c s : forall in_run,
  forallb P s = true -> forallb P (squeeze_from c in_run s) = true.
Proof.
  induction s as [|x s IH]; intros in_run H; [reflexivity|].
  simpl in H. apply andb_true_iff in H. destruct H as [Hx Hs]. simpl.
  destruct (x =? c)%N; [destruct in_run|]; simpl;
    rewrite ?Hx; simpl; apply IH; assumption.
Qed.

(** The first character that [squeeze_from] keeps. *)
Lemma squeeze_head c d s :
  match squeeze_from c false s with y :: _ => (y =? d)%N | [] => false end
  = match s with y :: _ => (y =? d)%N | [] => false end.
Proof. destruct s as [|x s]; [reflexivity|]. simpl. destruct (x =? c)%N; reflexivity. Qed.

Lemma squeeze_no_run c s : forall in_run,
  no_run c (squeeze_from c in_run s) = true
  /\ (in_run = true ->
      match squeeze_from c in_run s with
      | y :: _ => (y =? c)%N
      | [] => false
      end = false).
Proof.
  induction s as [|x s IH]; intros in_run; [split; reflexivity|].
  simpl. destruct (x =? c)%N eqn:Hx.
  - destruct in_run.
    + apply IH.
    + destruct (IH true) as [H1 H2]. split; [|discriminate].
      simpl. rewrite H1, (H2 eq_refl), andb_false_r. reflexivity.
  - destruct (IH false) as [H1 _]. split; [|intros _; exact Hx].
    simpl. rewrite Hx, H1. reflexivity.
Qed.

(** Squeezing the runs of [c] makes no run of another character. *)
Lemma squeeze_keeps_no_run c d s : d <> c -> forall in_run,
  no_run d s = true -> no_run d (squeeze_from c in_run s) = true.
Proof.
  intros Hdc. induction s as [|x s IH]; intros in_run H; [reflexivity|].
  simpl in H. apply andb_true_iff in H. destruct H as [H1 H2].
  simpl. destruct (x =? c)%N eqn:Hx.
  - apply N.eqb_eq in Hx. subst x.
    destruct in_run; [apply IH; assumption|].
    simpl. rewrite (IH true H2), andb_true_r.
    apply N.eqb_neq in Hdc. rewrite N.eqb_sym, Hdc. reflexivity.
  - simpl. rewrite (IH false H2), andb_true_r, squeeze_head. exact H1.
Qed.

Lemma replace_unsafe_safe py s :
  forallb (is_safe py) (replace_unsafe py s) = true.
Proof.
  induction s as [|c s IH]; [reflexivity|].
  simpl. rewrite IH, andb_true_r.
  destruct (is_word py c || (c =? 45)%N || (c =? dot)%N || (c =? space)%N)
    eqn:Hc; [exact Hc|].
  unfold is_safe. change (45 =? 45)%N with true.
  rewrite orb_true_r. reflexivity.
Qed.

(** Stripping takes a piece out of the middle. *)
Lemma lstrip_suffix drop s : exists pre, s = pre ++ lstrip_by drop s.
Proof.
  induction s as [|c s [pre IH]]; [exists []; reflexivity|].
  simpl. destruct (drop c).
  - exists (c :: pre). simpl. f_equal. exact IH.
  - exists []. reflexivity.
Qed.

Lemma rstrip_prefix drop s : exists suf, s = rstrip_by drop s ++ suf.
Proof.
  unfold rstrip_by. destruct (lstrip_suffix drop (rev s)) as [pre H].
  exists (rev pre). rewrite <- rev_app_distr, <- H, rev_involutive.
  reflexivity.
Qed.

Lemma lstrip_head drop s c :
  head (lstrip_by drop s) = Some c -> drop c = false.
Proof.
  induction s as [|x s IH]; [discriminate|].
  simpl. destruct (drop x) eqn:Hx; [exact IH|].
  simpl. intros H. injection H as <-. exact Hx.
Qed.

Lemma last_rev (l : str) : last (rev l) = head l.
Proof.
  destruct l as [|x l]; [reflexivity|]. simpl. apply last_snoc.
Qed.

Lemma rstrip_last drop s c :
  last (rstrip_by drop s) = Some c -> drop c = false.
Proof. unfold rstrip_by. rewrite last_rev. apply lstrip_head. Qed.

(** [join] undoes [split]. *)
Lemma split_on_from_cons sep s : forall piece,
  exists x rest, split_on_from sep piece s = x :: rest.
Proof.
  induction s as [|c s IH]; intros piece; simpl; [eauto|].
  destruct (c =? sep)%N; eauto.
Qed.

Lemma join_split_on_from sep s : forall piece,
  join [sep] (split_on_from sep piece s) = piece ++ s.
Proof.
  induction s as [|c s IH]; intros piece; simpl.
  - rewrite app_nil_r. reflexivity.
  - destruct (c =? sep)%N eqn:Hc.
    + apply N.eqb_eq in Hc. subst c.
      destruct (split_on_from_cons sep s []) as (x & rest & E).
      specialize (IH []). rewrite E in IH |- *.
      change (join [sep] (piece :: x :: rest))
        with (piece ++ sep :: join [sep] (x :: rest)).
      rewrite IH. reflexivity.
    + rewrite IH, <- app_assoc. reflexivity.
Qed.

Lemma before_last_space_prefix s :
  exists suf, s = before_last_space s ++ suf.
Proof.
  unfold before_last_space.
  destruct (rev (split_on space s)) as [|l [|f front]] eqn:E;
    try (exists []; rewrite app_nil_r; reflexivity).
  assert (Hs : split_on space s = rev (f :: front) ++ [l]).
  { rewrite <- (rev_involutive (split_on space s)), E. reflexivity. }
  exists (space :: l).
  rewrite <- (join_split_on_from space s []) at 1.
  fold (split_on space s). rewrite Hs.
  apply (PathFacts.join_snoc [space]).
  simpl. destruct (rev front); discriminate.
Qed.

Lemma slice_to_prefix n s : exists suf, s = slice_to n s ++ suf.
Proof.
  unfold slice_to. destruct (0 <=? n); eexists; symmetry; apply take_drop.
Qed.

Lemma tidy_prefix py s r suf : tidy py s -> s = r ++ suf -> tidy py r.
Proof.
  intros (H1 & H2 & H3 & H4) ->.
  rewrite forallb_app in H1. apply andb_true_iff in H1.
  apply no_run_app in H2. apply no_run_app in H3.
  repeat split; try tauto.
  intros c Hc. apply H4. destruct r; [discriminate | exact Hc].
Qed.

Lemma stripped_tidy py filename :
  tidy py (stripped py filename)
  /\ (forall c, last (stripped py filename) = Some c ->
                space_or_dot c = false).
Proof.
  unfold stripped.
  set (s0 := replace_unsafe py filename).
  set (s2 := squeeze space (squeeze dot s0)).
  assert (H2 : forallb (is_safe py) s2 = true
               /\ no_run dot s2 = true /\ no_run space s2 = true).
  { repeat split.
    - apply forallb_squeeze, forallb_squeeze, replace_unsafe_safe.
    - apply squeeze_keeps_no_run; [discriminate|].
      apply (squeeze_no_run dot s0 false).
    - apply (squeeze_no_run space (squeeze dot s0) false). }
  destruct H2 as (Ha & Hb & Hc).
  unfold strip_by.
  destruct (lstrip_suffix space_or_dot s2) as [pre Hpre].
  destruct (rstrip_prefix space_or_dot (lstrip_by space_or_dot s2))
    as [suf Hsuf].
  fold space_or_dot.
  set (l := lstrip_by space_or_dot s2) in *.
  assert (Hl : tidy py l).
  { rewrite Hpre in Ha, Hb, Hc.
    rewrite forallb_app in Ha. apply andb_true_iff in Ha.
    apply no_run_app in Hb. apply no_run_app in Hc.
    repeat split; try tauto. apply lstrip_head. }
  split; [exact (tidy_prefix py l _ _ Hl Hsuf) | apply rstrip_last].
Qed.

Lemma transcript_clean py : clean_name py (lit "transcript").
Proof.
  repeat split; try discriminate; try reflexivity;
    intros c H; injection H as <-; reflexivity.
Qed.

Lemma sanitize_cases py filename max_length :
  let s := stripped py filename in
  let t := rstrip_by (fun c => (c =? dot)%N)
             (before_last_space (slice_to max_length s)) in
  sanitize_filename py filename max_length
  = match (if len s >? max_length then t else s) with
    | [] => lit "transcript"
    | c :: r => c :: r
    end.
Proof.
  cbv zeta. unfold sanitize_filename, stripped.
  destruct (if _ >? _ then _ else _); reflexivity.
Qed.

Lemma truncated_prefix max_length s :
  exists suf,
    s = rstrip_by (fun c => (c =? dot)%N)
          (before_last_space (slice_to max_length s)) ++ suf.
Proof.
  destruct (slice_to_prefix max_length s) as [s1 H1].
  destruct (before_last_space_prefix (slice_to max_length s)) as [s2 H2].
  destruct (rstrip_prefix (fun c => (c =? dot)%N)
              (before_last_space (slice_to max_length s))) as [s3 H3].
  exists (s3 ++ s2 ++ s1).
  rewrite !app_assoc, <- H3, <- H2, <- H1. reflexivity.
Qed.

Lemma safe_not_slash py s :
  forallb (is_safe py) s = true -> Forall (fun c => c <> slash) s.
Proof.
  intros H. apply List.Forall_forall. intros c Hc ->.
  rewrite forallb_forall in H. specialize (H _ Hc). discriminate H.
Qed.

(** What holds of every result. *)
Lemma sanitize_tidy py filename max_length :
  let safe := sanitize_filename py filename max_length in
  safe <> [] /\ tidy py safe
  /\ (forall c, last safe = Some c -> c <> dot).
Proof.
  cbv zeta. rewrite sanitize_cases. cbv zeta.
  destruct (stripped_tidy py filename) as [Hs Hlast].
  set (s := stripped py filename) in *.
  destruct (transcript_clean py) as (T0 & T1 & T2 & T3 & T4 & T5).
  assert (Htr : lit "transcript" <> [] /\ tidy py (lit "transcript")
                /\ (forall c, last (lit "transcript") = Some c -> c <> dot)).
  { repeat split; try assumption.
    intros c H ->. specialize (T5 _ H). discriminate T5. }
  destruct (len s >? max_length).
  - destruct (truncated_prefix max_length s) as [suf Hsuf].
    pose proof (tidy_prefix py s _ _ Hs Hsuf) as Ht.
    pose proof (rstrip_last (fun c => (c =? dot)%N)
                  (before_last_space (slice_to max_length s))) as Hl.
    destruct (rstrip_by _ _) as [|c r]; [exact Htr|].
    repeat split; try discriminate; try apply Ht.
    intros c' H ->. specialize (Hl _ H). discriminate Hl.
  - destruct s as [|c r]; [exact Htr|].
    repeat split; try discriminate; try apply Hs.
    intros c' H ->. specialize (Hlast _ H). discriminate Hlast.
Qed.

(** What a clean name goes through unchanged. *)
Lemma replace_unsafe_id py s :
  forallb (is_safe py) s = true -> replace_unsafe py s = s.
Proof.
  induction s as [|c s IH]; intros H; [reflexivity|].
  simpl in H. apply andb_true_iff in H. destruct H as [Hc Hs].
  simpl. unfold is_safe in Hc. rewrite Hc, IH by assumption. reflexivity.
Qed.

Lemma squeeze_id c s : forall in_run,
  no_run c s = true ->
  (in_run = true ->
   match s with y :: _ => (y =? c)%N | [] => false end = false) ->
  squeeze_from c in_run s = s.
Proof.
  induction s as [|x s IH]; intros in_run H Hhead; [reflexivity|].
  simpl in H. apply andb_true_iff in H. destruct H as [H1 H2].
  simpl. destruct (x =? c)%N eqn:Hx.
  - destruct in_run; [specialize (Hhead eq_refl); discriminate|].
    rewrite IH; [reflexivity | assumption |].
    intros _. simpl in H1. apply negb_true_iff in H1. exact H1.
  - rewrite IH; [reflexivity | assumption | discriminate].
Qed.

Lemma lstrip_id drop s :
  (forall c, head s = Some c -> drop c = false) -> lstrip_by drop s = s.
Proof.
  intros H. destruct s as [|c s]; [reflexivity|].
  simpl. rewrite (H c eq_refl). reflexivity.
Qed.

Lemma rstrip_id drop s :
  (forall c, last s = Some c -> drop c = false) -> rstrip_by drop s = s.
Proof.
  intros H. unfold rstrip_by. rewrite lstrip_id, rev_involutive; [reflexivity|].
  intros c Hc. apply H. rewrite <- (rev_involutive s), last_rev. exact Hc.
Qed.

Lemma slice_length n s : 0 <= n -> len (slice_to n s) <= n.
Proof.
  intros Hn. unfold slice_to, len.
  destruct (Z.leb_spec 0 n); [|lia].
  rewrite length_take. lia.
Qed.

Lemma prefix_length (r suf s : str) : s = r ++ suf -> len r <= len s.
Proof. intros ->. unfold len. rewrite length_app. lia. Qed.

Lemma sanitize_length py filename max_length :
  0 <= max_length ->
  len (sanitize_filename py filename max_length) <= Z.max max_length 10.
Proof.
  intros Hn. rewrite sanitize_cases. cbv zeta.
  set (s := stripped py filename).
  assert (Ht : len (lit "transcript") <= Z.max max_length 10)
    by (change (len (lit "transcript")) with 10; lia).
  destruct (Z.gtb_spec (len s) max_length) as [Hlong|Hshort].
  - destruct (rstrip_prefix (fun c => (c =? dot)%N)
                (before_last_space (slice_to max_length s))) as [s3 H3].
    destruct (before_last_space_prefix (slice_to max_length s)) as [s2 H2].
    pose proof (slice_length max_length s Hn) as H1.
    apply prefix_length in H3, H2.
    destruct (rstrip_by _ _) as [|c r]; [exact Ht | lia].
  - destruct s as [|c r]; [exact Ht | lia].
Qed.

End SanitizeFacts.

(** X1.  Whatever the input and the length limit,
    [FileUtils.sanitize_filename] returns a usable file name: it is not
    empty; every character is a word character, a hyphen, a dot or a
    space, so it holds no path separator; it has no two dots and no two
    spaces in a row; it does not begin with a space or a dot (no hidden
    file), and it does not end with a dot. *)
Theorem sanitize_filename_safe (py : python) (filename : str)
  (max_length : Z) :
  exists safe,
    FileUtils.sanitize_filename py filename max_length = safe
    /\ safe <> []
    /\ forallb (is_safe py) safe = true
    /\ Forall (fun c => c <> slash) safe
    /\ no_run dot safe = true /\ no_run space safe = true
    /\ (forall c, head safe = Some c -> c <> space /\ c <> dot)
    /\ (forall c, last safe = Some c -> c <> dot).
Proof.
  eexists. split; [reflexivity|].
  destruct (SanitizeFacts.sanitize_tidy py filename max_length)
    as (Hne & (H1 & H2 & H3 & H4) & H5).
  repeat match goal with |- _ /\ _ => split end; try assumption.
  - apply (SanitizeFacts.safe_not_slash py). assumption.
  - intros c Hc. specialize (H4 c Hc). unfold space_or_dot in H4.
    apply orb_false_iff in H4. destruct H4 as [Ha Hb].
    split; apply N.eqb_neq; assumption.
Qed.

(** X2.  With a length limit that is not negative, the result of
    [FileUtils.sanitize_filename] has at most [max(max_length, 10)]
    characters: the limit holds, except that the fallback name
    ["transcript"] (10 characters) is returned whatever the limit. *)
Theorem sanitize_filename_length (py : python) (filename : str)
  (max_length : Z) :
  0 <= max_length ->
  len (FileUtils.sanitize_filename py filename max_length)
  <= Z.max max_length 10.
Proof. apply SanitizeFacts.sanitize_length. Qed.

Lemma sanitize_filename_length_witness :
  len (FileUtils.sanitize_filename some_python (lit "hello world") 5)
  <= Z.max 5 10.
Proof. apply (sanitize_filename_length some_python (lit "hello world") 5). lia. Defined.

(** X3.  A name that is already clean (not empty, safe characters only,
    no two dots and no two spaces in a row, no space or dot at either
    end) and not longer than the limit is returned as it is: sanitizing
    changes only what it has to. *)
Theorem sanitize_filename_keeps_clean (py : python) (filename : str)
  (max_length : Z) :
  clean_name py filename -> len filename <= max_length ->
  FileUtils.sanitize_filename py filename max_length = filename.
Proof.
  intros (Hne & Hsafe & Hdots & Hspaces & Hhead & Hlast) Hlen.
  unfold FileUtils.sanitize_filename.
  rewrite SanitizeFacts.replace_unsafe_id by assumption.
  unfold FileUtils.squeeze.
  rewrite (SanitizeFacts.squeeze_id dot filename false),
    (SanitizeFacts.squeeze_id space filename false)
    by (assumption || congruence).
  unfold strip_by. fold space_or_dot.
  rewrite SanitizeFacts.lstrip_id, SanitizeFacts.rstrip_id by assumption.
  destruct (Z.gtb_spec (len filename) max_length); [lia|].
  destruct filename; [congruence | reflexivity].
Qed.

Lemma sanitize_filename_keeps_clean_witness :
  FileUtils.sanitize_filename some_python (lit "My talk - part 2.final") 200
  = lit "My talk - part 2.final".
Proof.
  apply (sanitize_filename_keeps_clean some_python).
  - repeat split; try discriminate; try reflexivity;
      intros c H; injection H as <-; reflexivity.
  - vm_compute. discriminate.
Defined.

(** ** What making the output directory does to the file system *)

Module FrameFacts.
Import Fs.

Lemma only_adds_refl fs : only_adds_directories fs fs.
Proof. repeat split; [auto | congruence]. Qed.

Lemma only_adds_trans fs1 fs2 fs3 :
  only_adds_directories fs1 fs2 -> only_adds_directories fs2 fs3 ->
  only_adds_directories fs1 fs3.
Proof.
  intros (C1 & K1 & N1) (C2 & K2 & N2). repeat split.
  - congruence.
  - auto.
  - intros location k Hnone Hsome.
    destruct (entries fs2 !! location) as [k2|] eqn:E2.
    + pose proof (N1 _ _ Hnone E2). subst k2.
      pose proof (K2 _ _ E2). congruence.
    + eapply N2; eassumption.
Qed.

Lemma os_mkdir_only_adds fs p fs' :
  os_mkdir fs p = Ok fs' -> only_adds_directories fs fs'.
Proof.
  unfold os_mkdir.
  destruct (rev (Path.parts p)) as [|name r]; [discriminate|].
  destruct (walk fs (start fs p) (removelast (Path.parts p)))
    as [location|]; [|discriminate].
  simpl. destruct (decide (name = dotdot)); [discriminate|].
  destruct (kind fs (location ++ [name])) eqn:Hkind; [discriminate|].
  intros H. injection H as <-.
  assert (Hnew : entries fs !! (location ++ [name]) = None).
  { destruct location; exact Hkind. }
  repeat split; simpl.
  - intros l k Hl. rewrite lookup_insert_ne; [assumption | congruence].
  - intros l k Hl Hl'.
    destruct (decide (location ++ [name] = l)) as [<-|Hne].
    + rewrite lookup_insert_eq in Hl'. congruence.
    + rewrite lookup_insert_ne in Hl' by assumption. congruence.
Qed.

Lemma mkdir_parents_only_adds depth : forall fs p fs',
  mkdir_parents depth fs p = Ok fs' -> only_adds_directories fs fs'.
Proof.
  induction depth as [|depth IH]; intros fs p fs' H; simpl in H.
  - destruct (os_mkdir fs p) as [fs0|e] eqn:Hmk.
    + injection H as <-. eapply os_mkdir_only_adds; eassumption.
    + destruct e; try discriminate H;
        destruct (is_dir fs p); try discriminate H;
        injection H as <-; apply only_adds_refl.
  - destruct (os_mkdir fs p) as [fs0|e] eqn:Hmk.
    + injection H as <-. eapply os_mkdir_only_adds; eassumption.
    + destruct e;
        try (destruct (is_dir fs p); [|discriminate H];
             injection H as <-; apply only_adds_refl).
      destruct (mkdir_parents depth fs (Path.parent p)) as [fs1|e1] eqn:Hup;
        [|discriminate H].
      simpl in H. apply IH in Hup.
      destruct (os_mkdir fs1 p) as [fs2|e2] eqn:Hmk2.
      * injection H as <-.
        eapply only_adds_trans; [eassumption|].
        eapply os_mkdir_only_adds; eassumption.
      * destruct e2; try discriminate H;
          destruct (is_dir fs1 p); try discriminate H;
          injection H as <-; assumption.
Qed.

Lemma inside_app directory more : inside directory (directory ++ more) = true.
Proof.
  induction directory as [|d directory IH]; [reflexivity|].
  simpl. rewrite IH, bool_decide_eq_true_2; reflexivity.
Qed.

(** A name other than [".."] under a directory resolves to the location
    under that of the directory. *)
Lemma resolve_child fs root parts name :
  name <> dotdot ->
  resolve fs {| Path.root := root; Path.parts := parts ++ [name] |}
  = resolve fs {| Path.root := root; Path.parts := parts |} ++ [name].
Proof.
  intros Hname. unfold resolve. cbn [Path.parts].
  rewrite fold_left_app. simpl.
  destruct (decide (name = dotdot)); [contradiction | reflexivity].
Qed.

End FrameFacts.

(** X4.  [FileUtils.generate_output_path] changes the file system only
    by adding directories: the working directory stays, every file and
    directory that was there is still there, nothing is turned into a
    file, and when the output directory exists already nothing changes
    at all. *)
Theorem generate_output_path_only_adds_directories (fs : filesystem)
  (base_name language format : str) (output_dir path : Path.t)
  (fs' : filesystem) :
  FileUtils.generate_output_path fs base_name language format output_dir
  = Ok (path, fs') ->
  only_adds_directories fs fs'
  /\ (Fs.is_dir fs output_dir = true -> fs' = fs).
Proof.
  unfold FileUtils.generate_output_path. intros H.
  destruct (Fs.mkdir fs output_dir) as [fs1|e] eqn:Hmk; [|discriminate H].
  simpl in H. injection H as _ <-. split.
  - eapply FrameFacts.mkdir_parents_only_adds. exact Hmk.
  - intros Hdir. unfold Fs.mkdir in Hmk.
    rewrite (FsFacts.is_dir_mkdir_parents _ _ _ Hdir) in Hmk. congruence.
Qed.

Lemma generate_output_path_only_adds_directories_witness :
  only_adds_directories empty_fs (with_dir empty_fs [lit "out"])
  /\ (Fs.is_dir empty_fs (Path.parse (lit "out")) = true ->
      with_dir empty_fs [lit "out"] = empty_fs).
Proof.
  apply (generate_output_path_only_adds_directories empty_fs (lit "clip")
           (lit "en") (lit "srt") (Path.parse (lit "out"))
           (Path.parse (lit "out/clip.en.srt"))).
  vm_compute. reflexivity.
Defined.

(** X5.  A base name that went through [FileUtils.sanitize_filename]
    (as [extract_base_name] makes it) cannot leave the output directory:
    for a language and a format without a slash,
    [generate_output_path] returns the directory's path with the one
    component [{base}.{language}.{format}] appended, and that path
    resolves to a location below the directory. *)
Theorem sanitized_name_stays_inside (py : python) (fs : filesystem)
  (name language format : str) (max_length : Z)
  (output_dir path : Path.t) (fs' : filesystem) :
  Forall (fun c => c <> slash) language ->
  Forall (fun c => c <> slash) format ->
  FileUtils.generate_output_path fs
    (FileUtils.sanitize_filename py name max_length) language format
    output_dir = Ok (path, fs') ->
  exists filename,
    filename = FileUtils.sanitize_filename py name max_length
               ++ lit "." ++ language ++ lit "." ++ format
    /\ Path.root path = Path.root output_dir
    /\ Path.parts path = Path.parts output_dir ++ [filename]
    /\ Fs.resolve fs' path = Fs.resolve fs' output_dir ++ [filename]
    /\ Fs.inside (Fs.resolve fs' output_dir) (Fs.resolve fs' path) = true.
Proof.
  intros Hlang Hfmt H.
  destruct (SanitizeFacts.sanitize_tidy py name max_length)
    as (Hne & (Hsafe & _) & _).
  apply (SanitizeFacts.safe_not_slash py) in Hsafe.
  set (base := FileUtils.sanitize_filename py name max_length) in *.
  eexists. split; [reflexivity|].
  set (filename := base ++ lit "." ++ language ++ lit "." ++ format).
  assert (Hplain : Forall (fun c => c <> slash) filename).
  { unfold filename. repeat apply Forall_app_2; try assumption;
      repeat constructor; discriminate. }
  unfold FileUtils.generate_output_path in H.
  destruct (Fs.mkdir fs output_dir) as [fs1|e]; [|discriminate H].
  change (Ok (Path.joinpath output_dir filename, fs1) = Ok (path, fs')) in H.
  injection H as <- <-.
  rewrite PathFacts.joinpath_relative
    by (apply PathFacts.plain_not_absolute; assumption).
  rewrite PathFacts.components_plain
    by (assumption || apply PathFacts.filename_length).
  assert (Hname : filename <> Fs.dotdot).
  { intros E. apply (f_equal (@length N)) in E.
    unfold filename in E. rewrite !length_app in E.
    destruct base; [congruence|]. simpl in E. lia. }
  destruct output_dir as [root parts]. cbn [Path.root Path.parts].
  rewrite (FrameFacts.resolve_child fs1 root parts filename Hname).
  repeat split. apply FrameFacts.inside_app.
Qed.

Lemma sanitized_name_stays_inside_witness :
  exists filename,
    filename = FileUtils.sanitize_filename some_python (lit "../x") 200
               ++ lit "." ++ lit "en" ++ lit "." ++ lit "srt"
    /\ Path.root (Path.parse (lit "out/-x.en.srt"))
       = Path.root (Path.parse (lit "out"))
    /\ Path.parts (Path.parse (lit "out/-x.en.srt"))
       = Path.parts (Path.parse (lit "out")) ++ [filename]
    /\ Fs.resolve (with_dir work_fs [lit "work"; lit "out"])
         (Path.parse (lit "out/-x.en.srt"))
       = Fs.resolve (with_dir work_fs [lit "work"; lit "out"])
           (Path.parse (lit "out")) ++ [filename]
    /\ Fs.inside
         (Fs.resolve (with_dir work_fs [lit "work"; lit "out"])
            (Path.parse (lit "out")))
         (Fs.resolve (with_dir work_fs [lit "work"; lit "out"])
            (Path.parse (lit "out/-x.en.srt"))) = true.
Proof.
  apply (sanitized_name_stays_inside some_python work_fs (lit "../x")
           (lit "en") (lit "srt") 200 (Path.parse (lit "out"))).
  - repeat constructor; discriminate.
  - repeat constructor; discriminate.
  - vm_compute. reflexivity.
Defined.

(** ** The layout of wrapped text *)

Module LayoutFacts.
Import Wrap.

Lemma len_app (a b : str) : len (a ++ b) = len a + len b.
Proof. unfold len. rewrite length_app. lia. Qed.

Lemma len_join_snoc (g : list str) t :
  g <> [] ->
  len (join [space] (g ++ [t])) = len (join [space] g) + 1 + len t.
Proof.
  intros Hg. rewrite (PathFacts.join_snoc [space] g t Hg), !len_app.
  change (len [space]) with 1. lia.
Qed.

Lemma len_join_mono (g : list str) t :
  len (join [space] g) <= len (join [space] (g ++ [t])).
Proof.
  destruct g as [|x g].
  - simpl. unfold len. simpl. lia.
  - rewrite len_join_snoc by discriminate. unfold len. lia.
Qed.

Lemma greedy_snoc w groups g' :
  greedy w groups ->
  match last groups with
  | Some g => match g' with t :: _ => forced w g t | [] => True end
  | None => True
  end ->
  greedy w (groups ++ [g']).
Proof.
  induction groups as [|g groups IH]; intros Hg Hlast; [exact I|].
  destruct groups as [|g2 rest].
  - simpl in *. split; [exact Hlast | exact I].
  - destruct Hg as [H1 H2]. split; [exact H1|]. apply IH; assumption.
Qed.

Lemma step_keeps_greedy w done st word :
  greedy_invariant w done st ->
  greedy_invariant w (done ++ [word]) (step w st word).
Proof.
  intros (groups & Hlines & Hdone & Hne & Hgreedy & Hcloses).
  destruct st as [lines cur]. simpl in *. subst lines done.
  unfold step.
  destruct (Z.gtb_spec (len (join [space] (cur ++ [word]))) w) as [Hlong|Hfit].
  - destruct (Z.gtb_spec (Z.of_nat (length (cur ++ [word]))) 1)
      as [Hmany|Hone].
    + rewrite removelast_last.
      assert (Hcur : cur <> []).
      { intros ->. simpl in Hmany. lia. }
      exists (groups ++ [cur]). simpl. repeat split.
      * rewrite List.map_app. reflexivity.
      * rewrite concat_app. simpl.
        rewrite ?app_nil_r, <- ?app_assoc. reflexivity.
      * apply Forall_app. split; [assumption|]. repeat constructor.
        assumption.
      * apply greedy_snoc; [assumption|]. unfold closes in Hcloses.
        destruct (last groups); [|exact I].
        destruct cur; [congruence | exact Hcloses].
      * unfold closes. rewrite last_snoc. exact Hlong.
    + assert (cur = []) as ->.
      { destruct cur; [reflexivity|].
        rewrite length_app in Hone. simpl in Hone. lia. }
      exists (groups ++ [[word]]). simpl. repeat split.
      * rewrite List.map_app. reflexivity.
      * rewrite concat_app. simpl.
        rewrite ?app_nil_r, <- ?app_assoc. reflexivity.
      * apply Forall_app. split; [assumption|]. repeat constructor.
        discriminate.
      * apply greedy_snoc; [assumption|]. unfold closes in Hcloses.
        destruct (last groups); [apply Hcloses | exact I].
      * unfold closes. rewrite last_snoc. intros t. unfold forced.
        pose proof (len_join_mono [word] t). simpl in *. lia.
  - exists groups. simpl. repeat split; try assumption.
    + rewrite <- ?app_assoc. reflexivity.
    + unfold closes in *. destruct (last groups); [|exact I].
      destruct cur; [apply Hcloses | exact Hcloses].
Qed.

Lemma loop_keeps_greedy w words : forall done st,
  greedy_invariant w done st ->
  greedy_invariant w (done ++ words) (fold_left (step w) words st).
Proof.
  induction words as [|word words IH]; intros done st Hinv; simpl.
  - rewrite app_nil_r. assumption.
  - replace (done ++ word :: words) with ((done ++ [word]) ++ words)
      by (rewrite <- app_assoc; reflexivity).
    apply IH. apply step_keeps_greedy. assumption.
Qed.

(** The lines are the groups of a greedy partition of the words. *)
Lemma lines_of_greedy text w :
  exists groups,
    lines_of text w = List.map (join [space]) groups
    /\ concat groups = split text
    /\ Forall (fun g => g <> []) groups
    /\ Forall (Forall is_token) groups
    /\ greedy w groups.
Proof.
  unfold lines_of, loop.
  assert (H0 : greedy_invariant w [] ([], [])).
  { exists []. simpl. repeat split. constructor. }
  pose proof (loop_keeps_greedy w (split text) [] ([], []) H0) as Hinv.
  simpl in Hinv.
  destruct (fold_left (step w) (split text) ([], [])) as [lines cur].
  destruct Hinv as (groups & Hlines & Hdone & Hne & Hgreedy & Hcloses).
  simpl in *.
  assert (Htok : forall gs, concat gs = split text ->
                            Forall (Forall is_token) gs).
  { intros gs E. apply WrapFacts.concat_tokens. rewrite E.
    apply split_tokens. }
  destruct cur as [|c cur].
  - exists groups. rewrite app_nil_r in Hdone. auto 6.
  - assert (E : concat (groups ++ [c :: cur]) = split text).
    { rewrite concat_app. simpl. rewrite app_nil_r. assumption. }
    exists (groups ++ [c :: cur]). repeat split.
    + rewrite List.map_app, Hlines. reflexivity.
    + exact E.
    + apply Forall_app. split; [assumption|]. repeat constructor.
      discriminate.
    + apply Htok. exact E.
    + apply greedy_snoc; [assumption|]. unfold closes in Hcloses.
      destruct (last groups); [exact Hcloses | exact I].
Qed.

Lemma split_joined_groups (groups : list (list str)) :
  Forall (Forall is_token) groups ->
  split (join [nl] (List.map (join [space]) groups)) = concat groups.
Proof.
  intros Htok. rewrite split_join_ws by reflexivity.
  induction Htok as [|g groups Hg _ IH]; [reflexivity|].
  simpl. rewrite IH. f_equal.
  apply split_join_tokens; [reflexivity | assumption].
Qed.

(** The output has the words of the input, for every width. *)
Lemma wrap_text_words text w :
  split (SRTFormatter._wrap_text text w) = split text.
Proof.
  unfold SRTFormatter._wrap_text.
  destruct (lines_of_greedy text w) as (groups & -> & Hwords & _ & Htok & _).
  rewrite split_joined_groups by assumption. exact Hwords.
Qed.

Lemma wrap_text_of_words text text' w :
  split text = split text' ->
  SRTFormatter._wrap_text text w = SRTFormatter._wrap_text text' w.
Proof.
  intros E. unfold SRTFormatter._wrap_text, lines_of. rewrite E. reflexivity.
Qed.

Lemma breaks_of_greedy w (groups : list (list str)) :
  Forall (fun g => g <> []) groups -> Forall (Forall is_token) groups ->
  greedy w groups ->
  breaks_forced w (List.map (join [space]) groups).
Proof.
  induction groups as [|g groups IH]; intros Hne Htok Hg; [exact I|].
  destruct groups as [|g' rest]; [exact I|].
  destruct Hg as [Hforced Hrest].
  inversion Hne as [|? ? Hg0 Hne']; subst.
  inversion Htok as [|? ? _ Htok']; subst.
  change (List.map (join [space]) (g :: g' :: rest))
    with (join [space] g :: List.map (join [space]) (g' :: rest)).
  split; [|apply IH; assumption].
  intros t Ht.
  inversion Htok' as [|? ? Hg' _]; subst.
  rewrite split_join_tokens in Ht by (reflexivity || assumption).
  destruct g' as [|t' g']; [discriminate|].
  injection Ht as <-. unfold forced in Hforced.
  rewrite len_join_snoc in Hforced by assumption. exact Hforced.
Qed.

End LayoutFacts.

(** X6.  The text that [SRTFormatter._wrap_text] returns is made of
    lines joined by newlines, for every width: no line is empty, each
    line is its own words joined by single spaces (no leading, trailing
    or double whitespace, no newline inside), the words of the lines in
    order are the words of the input, and there are at most as many
    lines as words. *)
Theorem wrap_text_lines_normalised (text : str) (max_width : Z) :
  exists lines,
    SRTFormatter._wrap_text text max_width = join [nl] lines
    /\ Forall (fun line =>
                 line <> [] /\ join [space] (split line) = line
                 /\ Forall (fun c => c <> nl) line) lines
    /\ concat (List.map split lines) = split text
    /\ (length lines <= length (split text))%nat.
Proof.
  destruct (LayoutFacts.lines_of_greedy text max_width)
    as (groups & Hlines & Hwords & Hne & Htok & _).
  exists (List.map (join [space]) groups).
  unfold SRTFormatter._wrap_text. rewrite Hlines.
  split; [reflexivity|]. rewrite <- Hwords. clear Hlines Hwords.
  induction groups as [|g groups IH].
  - repeat split; [constructor | simpl; lia].
  - inversion Hne as [|? ? Hg Hne']; subst.
    inversion Htok as [|? ? Hgt Htok']; subst.
    destruct (IH Hne' Htok') as (IH1 & IH2 & IH3).
    assert (Hs : split (join [space] g) = g)
      by (apply split_join_tokens; [reflexivity | assumption]).
    repeat split.
    + constructor; [|exact IH1]. repeat split.
      * destruct g as [|t g]; [congruence|].
        inversion Hgt as [|? ? [Ht _] _]; subst.
        destruct t; [congruence|]. destruct g; discriminate.
      * rewrite Hs. reflexivity.
      * apply nonspace_join_space. assumption.
    + simpl. rewrite Hs, IH2. reflexivity.
    + simpl. rewrite length_app.
      destruct g; [congruence|]. simpl in *. lia.
Qed.

(** X7.  [SRTFormatter._wrap_text] breaks a line only when it has to,
    for every width: the first word of a line would not have fitted on
    the line before it (that line, a space and the word are longer than
    [max_width]). *)
Theorem wrap_text_breaks_forced (text : str) (max_width : Z) :
  exists lines,
    SRTFormatter._wrap_text text max_width = join [nl] lines
    /\ Forall (fun line => line <> [] /\ Forall (fun c => c <> nl) line) lines
    /\ breaks_forced max_width lines.
Proof.
  destruct (LayoutFacts.lines_of_greedy text max_width)
    as (groups & Hlines & _ & Hne & Htok & Hgreedy).
  exists (List.map (join [space]) groups).
  unfold SRTFormatter._wrap_text. rewrite Hlines.
  split; [reflexivity|].
  split; [|apply LayoutFacts.breaks_of_greedy; assumption].
  apply List.Forall_forall. intros line Hin.
  apply in_map_iff in Hin. destruct Hin as (g & <- & Hin).
  rewrite List.Forall_forall in Hne, Htok.
  specialize (Hne g Hin). specialize (Htok g Hin).
  split; [|apply nonspace_join_space; assumption].
  destruct g as [|t g]; [congruence|].
  inversion Htok as [|? ? [Ht _] _]; subst.
  destruct t; [congruence|]. destruct g; discriminate.
Qed.

(** X8.  [SRTFormatter._wrap_text] looks at the words of its input only:
    wrapping a text that was wrapped to the same width changes nothing,
    and the text with its words joined by single spaces wraps to the
    same result, for every width. *)
Theorem wrap_text_idempotent (text : str) (max_width : Z) :
  SRTFormatter._wrap_text (SRTFormatter._wrap_text text max_width) max_width
  = SRTFormatter._wrap_text text max_width
  /\ SRTFormatter._wrap_text (join [space] (split text)) max_width
     = SRTFormatter._wrap_text text max_width.
Proof.
  split; apply LayoutFacts.wrap_text_of_words.
  - apply LayoutFacts.wrap_text_words.
  - apply split_join_tokens; [reflexivity | apply split_tokens].
Qed.

(** ** More on the timestamp codec *)

Module CodecFacts.
Import Float FloatFacts TimestampFacts.

Lemma digit_not_comma c : is_digit c = true -> c <> 44%N.
Proof. intros H ->. discriminate H. Qed.

Lemma comma_to_dot_id s :
  Forall (fun c => c <> 44%N) s -> comma_to_dot s = s.
Proof.
  intros H. induction H as [|c s Hc _ IH]; [reflexivity|].
  simpl. apply N.eqb_neq in Hc. rewrite Hc. f_equal. exact IH.
Qed.

Lemma format_0d_no_comma width n :
  Forall (fun c => c <> 44%N) (format_0d width n).
Proof.
  unfold format_0d.
  destruct (DigitFacts.digits_spec (Z.abs n) (Z.abs_nonneg n))
    as (_ & Hd & _).
  repeat apply Forall_app_2.
  - destruct (n <? 0); repeat constructor. discriminate.
  - apply List.Forall_forall. intros c Hc.
    apply repeat_spec in Hc. subst c. discriminate.
  - apply List.Forall_forall. intros c Hc.
    rewrite forallb_forall in Hd. apply digit_not_comma. auto.
Qed.

Lemma format_0d_comma_to_dot width n :
  comma_to_dot (format_0d width n) = format_0d width n.
Proof. apply comma_to_dot_id, format_0d_no_comma. Qed.

Lemma fields_comma_to_dot (H M S MS : except Z) :
  (hours ← H; minutes ← M; secs ← S; millis ← MS;
   Ok (format_0d 2 hours ++ lit ":" ++ format_0d 2 minutes ++ lit ":"
       ++ format_0d 2 secs ++ lit "." ++ format_0d 3 millis))
  = (out ← (hours ← H; minutes ← M; secs ← S; millis ← MS;
            Ok (format_0d 2 hours ++ lit ":" ++ format_0d 2 minutes
                ++ lit ":" ++ format_0d 2 secs ++ lit ","
                ++ format_0d 3 millis));
     Ok (comma_to_dot out)).
Proof.
  destruct H as [hours|e]; [|reflexivity].
  destruct M as [minutes|e]; [|reflexivity].
  destruct S as [secs|e]; [|reflexivity].
  destruct MS as [millis|e]; [|reflexivity].
  rewrite !bind_Ok. f_equal.
  unfold comma_to_dot. rewrite !List.map_app. fold comma_to_dot.
  rewrite !format_0d_comma_to_dot. reflexivity.
Qed.

(** The fields of a whole number of seconds. *)
Section Whole.
Variable n : Z.
Hypothesis Hn : 0 <= n < 2 ^ 53.

Lemma whole_hours : n * one_u / (3600 * one_u) = n / 3600.
Proof. pose proof one_u_pos. apply Z.div_mul_cancel_r; lia. Qed.

Lemma whole_minutes : minutes_of (n * one_u) = n mod 3600 / 60.
Proof.
  pose proof one_u_pos. unfold minutes_of.
  rewrite Z.mul_mod_distr_r by lia. apply Z.div_mul_cancel_r; lia.
Qed.

Lemma whole_secs : secs_of (n * one_u) = n mod 60.
Proof.
  pose proof one_u_pos. unfold secs_of.
  rewrite Z.mul_mod_distr_r by lia. apply Z.div_mul. lia.
Qed.

Lemma whole_millis : millis_of (n * one_u) = 0.
Proof.
  pose proof one_u_pos. unfold millis_of.
  rewrite Z.mod_mul by lia. vm_compute. reflexivity.
Qed.

End Whole.

(** The four fields of a time, and the two strings made of them. *)
Lemma codec_fields a m :
  representable m -> nonneg a m ->
  exists hours,
    0 <= hours
    /\ (m < 2 ^ 53 * one_u -> hours = m / (3600 * one_u))
    /\ seconds_to_srt_time (Finite a m)
       = Ok (format_0d 2 hours ++ lit ":"
             ++ two_digits (minutes_of m) ++ lit ":"
             ++ two_digits (secs_of m) ++ lit ","
             ++ three_digits (millis_of m))
    /\ seconds_to_vtt_time (Finite a m)
       = Ok (format_0d 2 hours ++ lit ":"
             ++ two_digits (minutes_of m) ++ lit ":"
             ++ two_digits (secs_of m) ++ lit "."
             ++ three_digits (millis_of m)).
Proof.
  intros Hm Ha.
  destruct (hours_field a m Hm Ha) as (hours & Hh0 & Hh & Hsmall).
  pose proof (minutes_range m) as Hmi.
  pose proof (secs_range m) as Hse.
  pose proof (millis_bounds m Hm) as (_ & Hms & _).
  exists hours. split; [assumption|]. split; [assumption|]. split.
  - rewrite srt_time_fields, Hh, bind_Ok.
    rewrite minutes_field, bind_Ok by assumption.
    rewrite secs_field, bind_Ok by assumption.
    rewrite millis_field, bind_Ok by assumption.
    rewrite (DigitFacts.format_02d_small (minutes_of m)),
      (DigitFacts.format_02d_small (secs_of m)),
      (DigitFacts.format_03d_small (millis_of m)) by lia.
    reflexivity.
  - rewrite vtt_time_fields, Hh, bind_Ok.
    rewrite minutes_field, bind_Ok by assumption.
    rewrite secs_field, bind_Ok by assumption.
    rewrite millis_field, bind_Ok by assumption.
    rewrite (DigitFacts.format_02d_small (minutes_of m)),
      (DigitFacts.format_02d_small (secs_of m)),
      (DigitFacts.format_03d_small (millis_of m)) by lia.
    reflexivity.
Qed.

Lemma codec_returns x :
  is_time x ->
  (exists out, seconds_to_srt_time x = Ok out)
  /\ (exists out, seconds_to_vtt_time x = Ok out).
Proof.
  intros (Hvalid & Hfin & Hge). destruct x as [a m| |]; try discriminate.
  simpl in Hvalid.
  assert (Ha : nonneg a m).
  { apply ge0_finite; [destruct Hvalid; lia | assumption]. }
  destruct (codec_fields a m Hvalid Ha) as (hours & _ & _ & -> & ->).
  eauto.
Qed.

End CodecFacts.

(** X9.  [seconds_to_vtt_time] is [seconds_to_srt_time] with the comma
    replaced by a dot, for every float: on the same input both return,
    or both raise the same exception, and the strings differ in the
    separator only. *)
Theorem vtt_time_is_srt_time_with_dot (x : float) :
  seconds_to_vtt_time x
  = (out ← seconds_to_srt_time x; Ok (comma_to_dot out)).
Proof.
  etransitivity; [apply TimestampFacts.vtt_time_fields|].
  etransitivity; [apply CodecFacts.fields_comma_to_dot|].
  rewrite <- (TimestampFacts.srt_time_fields x). reflexivity.
Qed.

(** X10.  A whole number of seconds below [2^53] is written exactly:
    the hours are [n // 3600] (two digits or more), the minutes
    [n % 3600 // 60], the seconds [n % 60] and the milliseconds [000],
    in both timestamp styles. *)
Theorem whole_seconds_exact (n : Z) :
  0 <= n < 2 ^ 53 ->
  seconds_to_srt_time (Float.of_int n)
  = Ok (format_0d 2 (n / 3600) ++ lit ":" ++ two_digits (n mod 3600 / 60)
        ++ lit ":" ++ two_digits (n mod 60) ++ lit ",000")
  /\ seconds_to_vtt_time (Float.of_int n)
     = Ok (format_0d 2 (n / 3600) ++ lit ":" ++ two_digits (n mod 3600 / 60)
           ++ lit ":" ++ two_digits (n mod 60) ++ lit ".000").
Proof.
  intros Hn. pose proof FloatFacts.one_u_pos as HU.
  rewrite FloatFacts.of_int_small by assumption.
  destruct (CodecFacts.codec_fields false (n * Float.one_u)
              (FloatFacts.representable_int n Hn) (or_introl eq_refl))
    as (hours & _ & Hh & -> & ->).
  rewrite Hh by nia.
  rewrite (CodecFacts.whole_hours n), (CodecFacts.whole_minutes n),
    (CodecFacts.whole_secs n), (CodecFacts.whole_millis n).
  split; reflexivity.
Qed.

Lemma whole_seconds_exact_witness :
  seconds_to_srt_time (Float.of_int 3661) = Ok (lit "01:01:01,000")
  /\ seconds_to_vtt_time (Float.of_int 3661) = Ok (lit "01:01:01.000").
Proof.
  apply (whole_seconds_exact 3661). split; [discriminate | reflexivity].
Defined.

(** ** Which transcripts the renderers accept *)

Module ReturnFacts.

Lemma markdown_returns segments : forall lines,
  Forall well_timed segments ->
  exists out, MarkdownFormatter.each_segment segments lines = Ok out.
Proof.
  induction segments as [|segment rest IH]; intros lines Hall;
    cbn [MarkdownFormatter.each_segment]; [eauto|].
  inversion Hall as [|? ? [Hs He] Hrest]; subst.
  destruct (CodecFacts.codec_returns _ Hs) as [[start ->] _].
  destruct (CodecFacts.codec_returns _ He) as [[end_ ->] _].
  rewrite !TimestampFacts.bind_Ok. apply IH. assumption.
Qed.

Lemma srt_returns segments : forall idx lines,
  Forall well_timed segments ->
  exists out, SRTFormatter.each_segment idx segments lines = Ok out.
Proof.
  induction segments as [|segment rest IH]; intros idx lines Hall;
    cbn [SRTFormatter.each_segment]; [eauto|].
  inversion Hall as [|? ? [Hs He] Hrest]; subst.
  destruct (CodecFacts.codec_returns _ Hs) as [[start ->] _].
  destruct (CodecFacts.codec_returns _ He) as [[end_ ->] _].
  rewrite !TimestampFacts.bind_Ok. apply IH. assumption.
Qed.

Lemma vtt_returns segments : forall lines,
  Forall well_timed segments ->
  exists out, VTTFormatter.each_segment segments lines = Ok out.
Proof.
  induction segments as [|segment rest IH]; intros lines Hall;
    cbn [VTTFormatter.each_segment]; [eauto|].
  inversion Hall as [|? ? [Hs He] Hrest]; subst.
  destruct (CodecFacts.codec_returns _ Hs) as [_ [start ->]].
  destruct (CodecFacts.codec_returns _ He) as [_ [end_ ->]].
  rewrite !TimestampFacts.bind_Ok. apply IH. assumption.
Qed.

End ReturnFacts.

Module JsonFacts.

Lemma encode_items py level (l : list pyval) :
  Forall (fun v => forall level, encoded py level v) l ->
  match
    (fix each (l : list pyval) : option str :=
       match l with
       | [] => None
       | x :: l' =>
           match first_object x with
           | Some t => Some t
           | None => each l'
           end
       end) l
  with
  | None =>
      exists parts,
        (fix each (l : list pyval) : except (list str) :=
           match l with
           | [] => Ok []
           | x :: l' =>
               chunk ← Json.encode py (S level) x;
               chunks ← each l';
               Ok (chunk :: chunks)
           end) l = Ok parts
  | Some t =>
      (fix each (l : list pyval) : except (list str) :=
         match l with
         | [] => Ok []
         | x :: l' =>
             chunk ← Json.encode py (S level) x;
             chunks ← each l';
             Ok (chunk :: chunks)
         end) l = Raise (not_serializable t)
  end.
Proof.
  intros Hall. induction Hall as [|v l Hv _ IH]; [eauto|].
  specialize (Hv (S level)). unfold encoded in Hv.
  destruct (first_object v) as [t|].
  - rewrite Hv. reflexivity.
  - destruct Hv as [chunk ->]. rewrite TimestampFacts.bind_Ok.
    destruct ((fix each (l : list pyval) : option str :=
                 match l with
                 | [] => None
                 | x :: l' =>
                     match first_object x with
                     | Some t => Some t
                     | None => each l'
                     end
                 end) l) as [t|].
    + rewrite IH. reflexivity.
    + destruct IH as [parts ->]. eauto.
Qed.

Lemma encode_pairs py level (l : list (str * pyval)) :
  Forall (fun kv => forall level, encoded py level (snd kv)) l ->
  match
    (fix each (l : list (str * pyval)) : option str :=
       match l with
       | [] => None
       | (_, x) :: l' =>
           match first_object x with
           | Some t => Some t
           | None => each l'
           end
       end) l
  with
  | None =>
      exists parts,
        (fix each (l : list (str * pyval)) : except (list str) :=
           match l with
           | [] => Ok []
           | (k, x) :: l' =>
               chunk ← Json.encode py (S level) x;
               chunks ← each l';
               Ok ((Json.string k ++ lit ": " ++ chunk) :: chunks)
           end) l = Ok parts
  | Some t =>
      (fix each (l : list (str * pyval)) : except (list str) :=
         match l with
         | [] => Ok []
         | (k, x) :: l' =>
             chunk ← Json.encode py (S level) x;
             chunks ← each l';
             Ok ((Json.string k ++ lit ": " ++ chunk) :: chunks)
         end) l = Raise (not_serializable t)
  end.
Proof.
  intros Hall. induction Hall as [|[k v] l Hv _ IH]; [eauto|].
  specialize (Hv (S level)). unfold encoded in Hv. simpl snd in Hv.
  destruct (first_object v) as [t|].
  - rewrite Hv. reflexivity.
  - destruct Hv as [chunk ->]. rewrite TimestampFacts.bind_Ok.
    destruct ((fix each (l : list (str * pyval)) : option str :=
                 match l with
                 | [] => None
                 | (_, x) :: l' =>
                     match first_object x with
                     | Some t => Some t
                     | None => each l'
                     end
                 end) l) as [t|].
    + rewrite IH. reflexivity.
    + destruct IH as [parts ->]. eauto.
Qed.

(** [json] writes a value, or raises for the first object in it that it
    cannot write. *)
Lemma encode_result py v : forall level, encoded py level v.
Proof.
  induction v as [| b | n | x | s | items IH | items IH | t]
    using pyval_induction; intros level; unfold encoded;
    try (simpl; eauto; fail).
  - destruct b; simpl; eauto.
  - destruct items as [|v0 items0]; [simpl; eauto|].
    pose proof (encode_items py level (v0 :: items0) IH) as H.
    change (first_object (PyList (v0 :: items0))) with
      ((fix each (l : list pyval) : option str :=
          match l with
          | [] => None
          | x :: l' =>
              match first_object x with
              | Some t => Some t
              | None => each l'
              end
          end) (v0 :: items0)).
    change (Json.encode py level (PyList (v0 :: items0))) with
      (parts ← (fix each (l : list pyval) : except (list str) :=
                  match l with
                  | [] => Ok []
                  | x :: l' =>
                      chunk ← Json.encode py (S level) x;
                      chunks ← each l';
                      Ok (chunk :: chunks)
                  end) (v0 :: items0);
       Ok (Json.bracket (lit "[") (lit "]") level parts)).
    destruct (_ (v0 :: items0)) as [t|].
    + rewrite H. reflexivity.
    + destruct H as [parts ->]. eauto.
  - destruct items as [|kv0 items0]; [simpl; eauto|].
    pose proof (encode_pairs py level (kv0 :: items0) IH) as H.
    change (first_object (PyDict (kv0 :: items0))) with
      ((fix each (l : list (str * pyval)) : option str :=
          match l with
          | [] => None
          | (_, x) :: l' =>
              match first_object x with
              | Some t => Some t
              | None => each l'
              end
          end) (kv0 :: items0)).
    change (Json.encode py level (PyDict (kv0 :: items0))) with
      (parts ← (fix each (l : list (str * pyval)) : except (list str) :=
                  match l with
                  | [] => Ok []
                  | (k, x) :: l' =>
                      chunk ← Json.encode py (S level) x;
                      chunks ← each l';
                      Ok ((Json.string k ++ lit ": " ++ chunk) :: chunks)
                  end) (kv0 :: items0);
       Ok (Json.bracket (lit "{") (lit "}") level parts)).
    destruct (_ (kv0 :: items0)) as [t|].
    + rewrite H. reflexivity.
    + destruct H as [parts ->]. eauto.
Qed.

Lemma first_object_segments (segments : list Segment.t) :
  first_object (PyList (List.map JSONFormatter.segment_data segments)) = None.
Proof.
  induction segments as [|segment rest IH]; [reflexivity|].
  simpl. destruct (Segment.speaker segment), (Segment.confidence segment);
    exact IH.
Qed.

Lemma dict_set_raw (a b c v : pyval) :
  dict_set [(lit "metadata", a); (lit "transcript", b); (lit "segments", c)]
    (lit "raw_api_response") v
  = [(lit "metadata", a); (lit "transcript", b); (lit "segments", c);
     (lit "raw_api_response", v)].
Proof. vm_compute. reflexivity. Qed.

Lemma first_object_three k1 k2 k3 (a b c : pyval) :
  first_object a = None -> first_object b = None -> first_object c = None ->
  first_object (PyDict [(k1, a); (k2, b); (k3, c)]) = None.
Proof. intros Ha Hb Hc. simpl. rewrite Ha, Hb, Hc. reflexivity. Qed.

Lemma first_object_fourth k1 k2 k3 k4 (a b c v : pyval) :
  first_object a = None -> first_object b = None -> first_object c = None ->
  first_object (PyDict [(k1, a); (k2, b); (k3, c); (k4, v)])
  = first_object v.
Proof.
  intros Ha Hb Hc. simpl. rewrite Ha, Hb, Hc.
  destruct (first_object v); reflexivity.
Qed.

(** The only part of the document that can hold such an object is the
    provider's response. *)
Lemma first_object_data now result :
  first_object (PyDict (JSONFormatter.data now result))
  = first_object
      (JSONFormatter.or_none PyDict (TranscriptionResult.raw_response result)).
Proof.
  unfold JSONFormatter.data.
  pose proof (first_object_segments (TranscriptionResult.segments result))
    as Hs.
  destruct (TranscriptionResult.raw_response result) as [[|item items]|].
  - apply first_object_three; [reflexivity | reflexivity | exact Hs].
  - rewrite dict_set_raw.
    apply first_object_fourth; [reflexivity | reflexivity | exact Hs].
  - apply first_object_three; [reflexivity | reflexivity | exact Hs].
Qed.

End JsonFacts.

(** ** Which transcripts the renderers accept *)

Module AcceptFacts.

Lemma json_returns py now result :
  first_object
    (JSONFormatter.or_none PyDict (TranscriptionResult.raw_response result))
  = None ->
  exists out, JSONFormatter.format py now result = Ok out.
Proof.
  intros Hraw.
  pose proof (JsonFacts.encode_result py
                (PyDict (JSONFormatter.data now result)) 0%nat) as H.
  unfold encoded in H. rewrite JsonFacts.first_object_data, Hraw in H.
  exact H.
Qed.

Lemma renderers_return py formatter now result :
  Forall well_timed (TranscriptionResult.segments result) ->
  (formatter = JSONFormatter ->
   first_object
     (JSONFormatter.or_none PyDict (TranscriptionResult.raw_response result))
   = None) ->
  exists out, OutputFormatter.format py formatter now result = Ok out.
Proof.
  intros Hall Hraw. destruct formatter; simpl.
  - unfold PlainTextFormatter.format. eauto.
  - unfold MarkdownFormatter.format.
    destruct (ReturnFacts.markdown_returns _
                (markdown_header now result) Hall) as [lines Hl].
    unfold markdown_header in Hl. rewrite Hl. eauto.
  - unfold SRTFormatter.format.
    destruct (ReturnFacts.srt_returns _ 1 [] Hall) as [lines ->]. eauto.
  - unfold VTTFormatter.format.
    destruct (ReturnFacts.vtt_returns _ [lit "WEBVTT"; []] Hall)
      as [lines ->]. eauto.
  - apply json_returns. auto.
Qed.

Lemma is_timeb_true x : is_timeb x = true -> is_time x.
Proof.
  unfold is_timeb, is_time. intros H.
  apply andb_true_iff in H. destruct H as [H Hge].
  apply andb_true_iff in H. destruct H as [Hv Hf].
  auto using validb_true.
Qed.

Lemma well_timedb_true segments :
  forallb well_timedb segments = true -> Forall well_timed segments.
Proof.
  intros H. apply List.Forall_forall. intros segment Hin.
  rewrite forallb_forall in H. specialize (H segment Hin).
  unfold well_timedb in H. apply andb_true_iff in H. destruct H.
  split; apply is_timeb_true; assumption.
Qed.

End AcceptFacts.


(** ** The registry and the configuration *)

(** X12.  The formats that the configuration offers
    ([AppConfig.OUTPUT_FORMATS]) are the formats of the registry, in the
    same order, and the registry pairs them one to one with the five
    renderers: every offered name resolves to a renderer, every renderer
    has an offered name, and two offered names that resolve to the same
    renderer are the same name. *)
Theorem offered_formats_have_renderers (py : python) :
  FormatterFactory.get_supported_formats = AppConfig.OUTPUT_FORMATS
  /\ Forall (fun name =>
               exists formatter,
                 FormatterFactory.get_formatter py name = Ok formatter)
            AppConfig.OUTPUT_FORMATS
  /\ (forall formatter,
        exists name,
          In name AppConfig.OUTPUT_FORMATS
          /\ FormatterFactory.get_formatter py name = Ok formatter)
  /\ (forall name name' formatter,
        In name AppConfig.OUTPUT_FORMATS ->
        In name' AppConfig.OUTPUT_FORMATS ->
        FormatterFactory.get_formatter py name = Ok formatter ->
        FormatterFactory.get_formatter py name' = Ok formatter ->
        name = name').
Proof.
  split; [reflexivity|]. split; [|split].
  - repeat constructor; eexists; vm_compute; reflexivity.
  - intros formatter.
    destruct formatter;
      [exists (lit "txt") | exists (lit "md") | exists (lit "srt")
       | exists (lit "vtt") | exists (lit "json")];
      (split; [vm_compute; tauto | vm_compute; reflexivity]).
  - intros name name' formatter Hn Hn' H H'.
    simpl in Hn, Hn'.
    repeat (destruct Hn as [<- | Hn]; [|]); try contradiction;
      vm_compute in H; injection H as <-;
      repeat (destruct Hn' as [<- | Hn']; [|]); try contradiction;
      try reflexivity; vm_compute in H'; discriminate H'.
Qed.

(** ** Providers and their keys *)

(** X13.  With no provider given, [TranscriberFactory.create] returns a
    transcriber exactly when [APIConfig.validate] accepts the
    configuration and the configured provider is one of [mock],
    [deepgram] and [whisper]; [validate] alone is not enough, as it
    accepts every other provider name, for which [create] raises.  All
    that [create] raises is [ValueError]. *)
Theorem create_returns_iff_valid (cls : APIConfig.t) :
  ((exists transcriber, TranscriberFactory.create cls None = Ok transcriber)
   <-> APIConfig.validate cls = true
       /\ In (APIConfig.PROVIDER cls)
             [lit "mock"; lit "deepgram"; lit "whisper"])
  /\ (forall provider e,
        TranscriberFactory.create cls provider = Raise e ->
        exists msg, e = ValueError msg)
  /\ (~ In (APIConfig.PROVIDER cls)
           [lit "mock"; lit "deepgram"; lit "whisper"] ->
      APIConfig.validate cls = true
      /\ TranscriberFactory.create cls None
         = Raise (ValueError (lit "Unknown transcriber provider: "
                              ++ APIConfig.PROVIDER cls))).
Proof.
  split; [|split].
  - unfold TranscriberFactory.create, APIConfig.validate.
    destruct cls as [dg oa provider]. cbn [APIConfig.PROVIDER
      APIConfig.DEEPGRAM_API_KEY APIConfig.OPENAI_API_KEY].
    destruct (decide (provider = lit "mock")) as [->|Hm].
    { split; [intros _; split; [reflexivity | left; reflexivity] | eauto]. }
    destruct (decide (provider = lit "deepgram")) as [->|Hd].
    { rewrite bool_decide_eq_true_2 by reflexivity.
      destruct dg as [|c dg]; simpl.
      - split; [intros [t H]; discriminate H | intros [H _]; discriminate H].
      - split; [intros _; split; [reflexivity | right; left; reflexivity]
               | eauto]. }
    rewrite (bool_decide_eq_false_2 (provider = lit "deepgram")) by assumption.
    destruct (decide (provider = lit "whisper")) as [->|Hw].
    { rewrite (bool_decide_eq_true_2 (lit "whisper" = lit "whisper"))
        by reflexivity.
      destruct oa as [|c oa]; simpl.
      - split; [intros [t H]; discriminate H | intros [H _]; discriminate H].
      - split; [intros _; split;
                  [reflexivity | right; right; left; reflexivity]
               | eauto]. }
    rewrite (bool_decide_eq_false_2 (provider = lit "whisper")) by assumption.
    simpl. split; [intros [t H]; discriminate H|].
    intros [_ [H | [H | [H | []]]]]; congruence.
  - intros provider e. unfold TranscriberFactory.create.
    destruct (decide (_ = lit "mock")); [discriminate|].
    destruct (decide (_ = lit "deepgram")).
    { unfold DeepgramTranscriber.__init__.
      destruct (APIConfig.DEEPGRAM_API_KEY cls); [|discriminate].
      intros H. injection H as <-. eauto. }
    destruct (decide (_ = lit "whisper")).
    { unfold WhisperTranscriber.__init__.
      destruct (APIConfig.OPENAI_API_KEY cls); [|discriminate].
      intros H. injection H as <-. eauto. }
    intros H. injection H as <-. eauto.
  - intros Hname. split.
    + unfold APIConfig.validate.
      destruct (decide (_ = lit "mock")); [reflexivity|].
      rewrite (bool_decide_eq_false_2
                 (APIConfig.PROVIDER cls = lit "deepgram")),
        (bool_decide_eq_false_2 (APIConfig.PROVIDER cls = lit "whisper"));
        [reflexivity | ..];
        intros E; apply Hname; rewrite E; simpl; tauto.
    + unfold TranscriberFactory.create.
      repeat (destruct (decide _) as [E|_];
              [exfalso; apply Hname; rewrite E; simpl; tauto|]).
      reflexivity.
Qed.

(** ** The output directory *)

(** X14.  Once [AppConfig.ensure_output_dir] has returned, the output
    directory exists, nothing but directories was added to the file
    system, and [FileUtils.generate_output_path] for that directory
    returns its path for every base name, language and format without
    raising and without touching the file system again. *)
Theorem ensure_output_dir_then_generate (fs fs' : filesystem)
  (output_dir : Path.t) :
  AppConfig.ensure_output_dir fs output_dir = Ok fs' ->
  Fs.is_dir fs' output_dir = true
  /\ only_adds_directories fs fs'
  /\ forall base_name language format,
       FileUtils.generate_output_path fs' base_name language format
         output_dir
       = Ok (Path.joinpath output_dir
               (base_name ++ lit "." ++ language ++ lit "." ++ format),
             fs').
Proof.
  unfold AppConfig.ensure_output_dir. intros H.
  split; [eapply FsFacts.mkdir_is_dir; eassumption|].
  split; [eapply FrameFacts.mkdir_parents_only_adds; exact H|].
  intros base_name language format.
  unfold FileUtils.generate_output_path.
  rewrite (FsFacts.mkdir_again _ _ _ H). reflexivity.
Qed.

Lemma ensure_output_dir_then_generate_witness :
  Fs.is_dir (with_dir empty_fs [lit "out"]) (Path.parse (lit "out")) = true
  /\ only_adds_directories empty_fs (with_dir empty_fs [lit "out"])
  /\ forall base_name language format,
       FileUtils.generate_output_path (with_dir empty_fs [lit "out"])
         base_name language format (Path.parse (lit "out"))
       = Ok (Path.joinpath (Path.parse (lit "out"))
               (base_name ++ lit "." ++ language ++ lit "." ++ format),
             with_dir empty_fs [lit "out"]).
Proof.
  apply (ensure_output_dir_then_generate empty_fs).
  vm_compute. reflexivity.
Defined.

(** ** Which inputs are accepted *)

Module ValidationFacts.

Lemma rfind_from_none c s : forall i found,
  Forall (fun x => x <> c) s -> rfind_from c i found s = found.
Proof.
  induction s as [|x s IH]; intros i found H; [reflexivity|].
  inversion H as [|? ? Hx Hs]; subst. simpl.
  apply N.eqb_neq in Hx. rewrite Hx. apply IH. assumption.
Qed.

Lemma rfind_from_last c (a b : str) : forall i found,
  Forall (fun x => x <> c) b ->
  rfind_from c i found (a ++ c :: b) = i + len a.
Proof.
  induction a as [|x a IH]; intros i found Hb.
  - simpl. rewrite N.eqb_refl, rfind_from_none by assumption.
    unfold len. simpl. lia.
  - simpl. rewrite IH by assumption. unfold len. simpl length. lia.
Qed.

Lemma rfind_from_spec c s : forall i found,
  (Forall (fun x => x <> c) s /\ rfind_from c i found s = found)
  \/ (exists a b,
        s = a ++ c :: b /\ Forall (fun x => x <> c) b
        /\ rfind_from c i found s = i + len a).
Proof.
  induction s as [|x s IH]; intros i found; [left; split; [constructor | reflexivity]|].
  simpl.
  destruct (IH (i + 1) (if (x =? c)%N then i else found))
    as [[Hs Hr] | (a & b & -> & Hb & Hr)].
  - destruct (N.eqb_spec x c) as [->|Hx].
    + right. exists [], s. repeat split; [assumption|].
      rewrite Hr. unfold len. simpl. lia.
    + left. split; [constructor; assumption | exact Hr].
  - right. exists (x :: a), b. repeat split; [assumption|].
    rewrite Hr. unfold len. simpl length. lia.
Qed.

(** The suffix of a name: what follows a stem that is not empty, from
    the last dot on, when something follows that dot. *)
Lemma suffix_spec p suffix :
  suffix <> [] ->
  Path.suffix p = suffix
  <-> exists stem ext,
        Path.name p = stem ++ dot :: ext /\ suffix = dot :: ext
        /\ stem <> [] /\ ext <> [] /\ Forall (fun c => c <> dot) ext.
Proof.
  intros Hne. unfold Path.suffix. cbv zeta.
  set (name := Path.name p). split.
  - intros H.
    destruct (rfind_from_spec dot name 0 (-1))
      as [[_ Hr] | (a & b & Hname & Hb & Hr)];
      fold (rfind dot name) in Hr; rewrite Hr in H.
    + simpl in H. congruence.
    + rewrite Hname in H. rewrite Z.add_0_l in H.
      destruct (Z.ltb_spec 0 (len a)) as [Ha|Ha]; [|simpl in H; congruence].
      destruct (Z.ltb_spec (len a) (len (a ++ dot :: b) - 1)) as [Hlen|Hlen];
        [|simpl in H; congruence].
      simpl in H. unfold len in H. rewrite Nat2Z.id in H.
      rewrite drop_app_length in H.
      exists a, b. repeat split; try assumption; try congruence.
      * intros ->. unfold len in Ha. simpl in Ha. lia.
      * intros ->. unfold len in Hlen. rewrite length_app in Hlen.
        simpl in Hlen. lia.
  - intros (stem & ext & Hname & -> & Hstem & Hext & Hdots).
    unfold rfind. rewrite Hname, rfind_from_last by assumption.
    rewrite Z.add_0_l.
    assert (0 < len stem) by (destruct stem; [congruence | unfold len; simpl; lia]).
    assert (len stem < len (stem ++ dot :: ext) - 1).
    { unfold len. rewrite length_app. simpl.
      destruct ext; [congruence | simpl; lia]. }
    destruct (Z.ltb_spec 0 (len stem)); [|lia].
    destruct (Z.ltb_spec (len stem) (len (stem ++ dot :: ext) - 1)); [|lia].
    simpl. unfold len. rewrite Nat2Z.id. apply drop_app_length.
Qed.

Lemma lower_empty py : lower py [] = [].
Proof. reflexivity. Qed.

Lemma no_empty_format :
  ~ In [] (FileUtils.SUPPORTED_AUDIO_FORMATS
           ++ FileUtils.SUPPORTED_VIDEO_FORMATS).
Proof. simpl. intuition discriminate. Qed.





(** Pieces of [split]: none holds the separator. *)
Lemma split_on_from_pieces sep s : forall piece,
  Forall (fun c => c <> sep) piece ->
  Forall (Forall (fun c => c <> sep)) (split_on_from sep piece s).
Proof.
  induction s as [|c s IH]; intros piece Hp; simpl.
  - repeat constructor. assumption.
  - destruct (N.eqb_spec c sep) as [->|Hc].
    + constructor; [assumption | apply IH; constructor].
    + apply IH. apply Forall_app. split; [assumption|].
      repeat constructor. assumption.
Qed.

Lemma strip_by_middle drop s :
  exists pre suf, s = pre ++ strip_by drop s ++ suf.
Proof.
  unfold strip_by.
  destruct (SanitizeFacts.lstrip_suffix drop s) as [pre Hpre].
  destruct (SanitizeFacts.rstrip_prefix drop (lstrip_by drop s))
    as [suf Hsuf].
  exists pre, suf. rewrite <- Hsuf. exact Hpre.
Qed.

Lemma strip_by_idempotent drop s :
  strip_by drop (strip_by drop s) = strip_by drop s.
Proof.
  unfold strip_by.
  set (l := lstrip_by drop s).
  assert (Hhead : forall c, head (rstrip_by drop l) = Some c -> drop c = false).
  { intros c Hc.
    destruct (SanitizeFacts.rstrip_prefix drop l) as [suf Hsuf].
    apply (SanitizeFacts.lstrip_head drop s). fold l. rewrite Hsuf.
    destruct (rstrip_by drop l); [discriminate | exact Hc]. }
  rewrite (SanitizeFacts.lstrip_id drop _ Hhead).
  apply SanitizeFacts.rstrip_id. apply SanitizeFacts.rstrip_last.
Qed.

Lemma each_line_blank lib st line :
  strip line = [] -> InputValidator.each_line lib st line = st.
Proof.
  intros H. unfold InputValidator.each_line. destruct st. rewrite H.
  reflexivity.
Qed.

Lemma validate_urls_loop lib lines : forall valid errors,
  let urls := List.filter (fun url => negb (bool_decide (url = [])))
                (List.map strip lines) in
  fold_left (InputValidator.each_line lib) lines (valid, errors)
  = (valid ++ List.filter (FileUtils.is_valid_url lib) urls,
     errors
     ++ List.map (fun url => lit "Invalid URL: " ++ url)
          (List.filter (fun url => negb (FileUtils.is_valid_url lib url))
             urls)).
Proof.
  cbv zeta. induction lines as [|line lines IH]; intros valid errors.
  - simpl. rewrite !app_nil_r. reflexivity.
  - cbn [fold_left List.map List.filter].
    destruct (strip line) as [|c url] eqn:Hline.
    + rewrite each_line_blank by assumption.
      rewrite bool_decide_eq_true_2 by reflexivity. cbn [negb]. apply IH.
    + rewrite bool_decide_eq_false_2 by discriminate. cbn [negb].
      unfold InputValidator.each_line at 2. rewrite Hline.
      cbn [List.filter List.map].
      destruct (FileUtils.is_valid_url lib (c :: url)); cbn [negb];
        rewrite IH; cbn [List.map]; rewrite <- app_assoc; reflexivity.
Qed.

End ValidationFacts.

(** X15.  [FileUtils.is_valid_file] accepts a path exactly when its
    last component is a stem that is not empty, then a dot and an
    extension without a further dot, and the lowercased extension with
    its dot is one of the fourteen supported audio and video suffixes.
    Only the last component counts; a name such as [.mp3], which is all
    suffix, or [a.mp3.], which ends in a dot, is not accepted. *)
Theorem is_valid_file_spec (py : python) (path : Path.t) :
  FileUtils.is_valid_file py path = true
  <-> exists stem ext,
        Path.name path = stem ++ dot :: ext
        /\ stem <> [] /\ ext <> [] /\ Forall (fun c => c <> dot) ext
        /\ In (lower py (dot :: ext))
              (FileUtils.SUPPORTED_AUDIO_FORMATS
               ++ FileUtils.SUPPORTED_VIDEO_FORMATS).
Proof.
  unfold FileUtils.is_valid_file. cbv zeta.
  rewrite bool_decide_eq_true, list_elem_of_In. split.
  - intros H.
    destruct (Path.suffix path) as [|c suffix] eqn:Hs.
    { exfalso. exact (ValidationFacts.no_empty_format H). }
    apply ValidationFacts.suffix_spec in Hs; [|discriminate].
    destruct Hs as (stem & ext & Hname & E & Hstem & Hext & Hdots).
    rewrite E in H. exists stem, ext. repeat split; assumption.
  - intros (stem & ext & Hname & Hstem & Hext & Hdots & H).
    assert (Hs : Path.suffix path = dot :: ext).
    { apply ValidationFacts.suffix_spec; [discriminate|].
      exists stem, ext. repeat split; assumption. }
    rewrite Hs. exact H.
Qed.


(** X17.  [InputValidator.validate_urls] reports every line of its
    input that is not blank exactly once and in order, stripped: as a
    valid URL when [is_valid_url] accepts it, else as the message
    [Invalid URL: ] followed by it.  A reported URL is never empty, has
    no whitespace at either end and holds no newline. *)
Theorem validate_urls_partition (lib : urllib) (urls : str) :
  exists valid errors,
    InputValidator.validate_urls lib urls = (valid, errors)
    /\ valid = List.filter (FileUtils.is_valid_url lib) (url_lines urls)
    /\ errors
       = List.map (fun url => lit "Invalid URL: " ++ url)
           (List.filter (fun url => negb (FileUtils.is_valid_url lib url))
              (url_lines urls))
    /\ (length valid + length errors = length (url_lines urls))%nat
    /\ Forall (fun url =>
                 url <> [] /\ strip url = url
                 /\ Forall (fun c => c <> nl) url)
              (url_lines urls).
Proof.
  unfold InputValidator.validate_urls.
  pose proof (ValidationFacts.validate_urls_loop lib
                (split_on nl (strip urls)) [] []) as H.
  cbv zeta in H. fold (url_lines urls) in H. rewrite H. simpl.
  eexists. eexists. split; [reflexivity|].
  split; [reflexivity|]. split; [reflexivity|]. split.
  - rewrite length_map. generalize (url_lines urls). intros l.
    induction l as [|u l IH]; [reflexivity|].
    simpl. destruct (FileUtils.is_valid_url lib u); simpl; lia.
  - apply List.Forall_forall. intros url Hin. unfold url_lines in Hin.
    apply filter_In in Hin. destruct Hin as [Hin Hne].
    apply in_map_iff in Hin. destruct Hin as (line & <- & Hline).
    split; [|split].
    + intros E. rewrite E in Hne. discriminate Hne.
    + apply ValidationFacts.strip_by_idempotent.
    + pose proof (ValidationFacts.split_on_from_pieces nl (strip urls) []
                    ltac:(constructor)) as Hp.
      rewrite List.Forall_forall in Hp. specialize (Hp line Hline).
      destruct (ValidationFacts.strip_by_middle isspace line)
        as (pre & suf & E).
      rewrite E in Hp. apply Forall_app in Hp. destruct Hp as [_ Hp].
      apply Forall_app in Hp. destruct Hp as [Hp _]. exact Hp.
Qed.

(** ** The mock provider *)

Module MockFacts.
Import MockTranscriber.









Lemma en_generated language options :
  _generate_segments (join [space] DUMMY_EN) language options
  = Ok en_segments.
Proof. vm_compute. reflexivity. Qed.

Lemma fr_generated language options :
  _generate_segments (join [space] DUMMY_FR) language options
  = Ok fr_segments.
Proof. vm_compute. reflexivity. Qed.

Lemma dummy_transcripts language :
  match dict_get DUMMY_TRANSCRIPTS language with
  | Some transcripts => transcripts
  | None => DUMMY_EN
  end
  = if decide (language = lit "fr") then DUMMY_FR else DUMMY_EN.
Proof.
  unfold DUMMY_TRANSCRIPTS. cbn [dict_get].
  destruct (decide (lit "en" = language)) as [<-|Hen]; [reflexivity|].
  destruct (decide (lit "fr" = language)) as [<-|Hfr]; [reflexivity|].
  destruct (decide (language = lit "fr")); [congruence | reflexivity].
Qed.

Lemma last_end_time (segments : list Segment.t) : forall start finish,
  tiles start segments finish ->
  match last segments with
  | Some segment => Segment.end_time segment
  | None => start
  end = finish.
Proof.
  induction segments as [|s segments IH]; intros start finish H.
  - simpl in *. congruence.
  - destruct H as [_ H]. specialize (IH _ _ H).
    destruct segments as [|t segments]; [simpl in *; congruence|].
    change (last (s :: t :: segments)) with (last (t :: segments)).
    destruct (last (t :: segments)) eqn:E; [exact IH|].
    apply last_None in E. discriminate E.
Qed.

End MockFacts.



(** X19.  For every source and every options, [MockTranscriber.transcribe]
    returns a transcript: its language is the requested one, or [en]
    when [auto] was requested, so it is never [auto]; its text is the
    French dummy text for [fr] and the English one for every other
    language; its segments tile the timeline from [0.0] to the reported
    duration, with times that are finite and not negative; and every
    renderer, the JSON one included, returns a document for it. *)
Theorem mock_transcript_renders (py : python) (source : source)
  (options : TranscriptionOptions.t) :
  exists result,
    MockTranscriber.transcribe source options = Ok result
    /\ TranscriptionResult.language result
       = (if decide (TranscriptionOptions.language options = lit "auto")
          then lit "en" else TranscriptionOptions.language options)
    /\ TranscriptionResult.language result <> lit "auto"
    /\ TranscriptionResult.text result
       = join [space]
           (if decide (TranscriptionResult.language result = lit "fr")
            then MockTranscriber.DUMMY_FR else MockTranscriber.DUMMY_EN)
    /\ tiles Float.zero (TranscriptionResult.segments result)
         (TranscriptionResult.duration result)
    /\ Forall well_timed (TranscriptionResult.segments result)
    /\ forall formatter now,
         exists out, OutputFormatter.format py formatter now result = Ok out.
Proof.
  unfold MockTranscriber.transcribe.
  set (lang := if decide (TranscriptionOptions.language options = lit "auto")
               then lit "en" else TranscriptionOptions.language options).
  assert (Hauto : lang <> lit "auto").
  { unfold lang. destruct (decide _); [discriminate | assumption]. }
  cbv zeta. rewrite MockFacts.dummy_transcripts.
  assert (Hsegs : exists segments,
            MockTranscriber._generate_segments
              (join [space]
                 (if decide (lang = lit "fr") then MockTranscriber.DUMMY_FR
                  else MockTranscriber.DUMMY_EN)) lang options = Ok segments
            /\ forallb well_timedb segments = true
            /\ exists finish, tiles Float.zero segments finish).
  { destruct (decide (lang = lit "fr")).
    - exists fr_segments. rewrite MockFacts.fr_generated.
      split; [reflexivity|]. split; [vm_compute; reflexivity|].
      eexists. vm_compute. repeat split.
    - exists en_segments. rewrite MockFacts.en_generated.
      split; [reflexivity|]. split; [vm_compute; reflexivity|].
      eexists. vm_compute. repeat split. }
  destruct Hsegs as (segments & -> & Hwell & finish & Htiles).
  rewrite TimestampFacts.bind_Ok.
  eexists. split; [reflexivity|].
  cbn [TranscriptionResult.language TranscriptionResult.text
       TranscriptionResult.segments TranscriptionResult.duration].
  apply AcceptFacts.well_timedb_true in Hwell.
  repeat match goal with |- _ /\ _ => split end;
    try reflexivity; try assumption.
  - rewrite (MockFacts.last_end_time _ _ _ Htiles). exact Htiles.
  - intros formatter now.
    apply AcceptFacts.renderers_return; [assumption|].
    intros _. reflexivity.
Qed.

(** ** The codec on every finite float *)

Module TotalFacts.
Import Float FloatFacts.

Lemma within_mono B C x : B <= C -> within B x -> within C x.
Proof. intros H (a & m & -> & Hm). exists a, m. split; [reflexivity | lia]. Qed.

Lemma within_to_int B x : within B x -> exists n, to_int x = Ok n.
Proof. intros (a & m & -> & _). simpl. eauto. Qed.

Lemma add_within a m b n C :
  on_grid C -> C < huge -> Z.abs (signed a m + signed b n) <= C ->
  within C (add (Finite a m) (Finite b n)).
Proof.
  intros HC Hh Hv. unfold add.
  set (v := signed a m + signed b n) in *.
  destruct (v =? 0).
  - exists (a && b), 0. split; [reflexivity|]. destruct HC. lia.
  - assert (Hr : round_mag (Z.abs v) 1 <= C)
      by (apply round_mag_le; [lia | lia | assumption | lia]).
    rewrite round_finite by lia.
    eexists _, _. split; [reflexivity|].
    split; [apply round_mag_nonneg; lia | assumption].
Qed.

Lemma sub_within a m b n C :
  on_grid C -> C < huge -> Z.abs (signed a m - signed b n) <= C ->
  within C (sub (Finite a m) (Finite b n)).
Proof.
  intros HC Hh Hv. unfold sub, opp. apply add_within; try assumption.
  replace (signed (negb b) n) with (- signed b n)
    by (destruct b; simpl; lia).
  lia.
Qed.

Lemma div_within a m b n C :
  0 <= m -> 0 < n -> on_grid C -> C < huge -> m * one_u <= C * n ->
  within C (div (Finite a m) (Finite b n)).
Proof.
  intros Hm Hn HC Hh Hle. pose proof one_u_pos. unfold div.
  destruct (Z.eqb_spec n 0); [lia|].
  assert (Hr : round_mag (m * one_u) n <= C)
    by (apply round_mag_le; [nia | lia | assumption | lia]).
  rewrite round_finite by lia.
  eexists _, _. split; [reflexivity|].
  split; [apply round_mag_nonneg; nia | assumption].
Qed.

Lemma mul_within a m b n C :
  0 <= m -> 0 <= n -> on_grid C -> C < huge -> m * n <= C * one_u ->
  within C (mul (Finite a m) (Finite b n)).
Proof.
  intros Hm Hn HC Hh Hle. pose proof one_u_pos. unfold mul.
  assert (Hr : round_mag (m * n) one_u <= C)
    by (apply round_mag_le; [nia | lia | assumption | lia]).
  rewrite round_finite by lia.
  eexists _, _. split; [reflexivity|].
  split; [apply round_mag_nonneg; nia | assumption].
Qed.

Lemma floor_within B x : within B x -> within (B + one_u) (floor x).
Proof.
  intros (a & m & -> & Hm). pose proof one_u_pos as HU.
  destruct a; simpl; eexists _, _; (split; [reflexivity|]).
  - pose proof (Z.mul_div_le (m + one_u - 1) one_u HU).
    assert (0 <= (m + one_u - 1) / one_u) by (apply Z.div_pos; lia).
    nia.
  - pose proof (Z.mul_div_le m one_u HU).
    assert (0 <= m / one_u) by (apply Z.div_pos; lia).
    nia.
Qed.

Lemma signed_abs a m : 0 <= m -> Z.abs (signed a m) = m.
Proof. intros. destruct a; simpl; lia. Qed.

(** The bounds on the way to the quotient: [T], [T + V] and [T + V2],
    for [T = 2^2097], [V = 2^2045] and [V2 = 2^2046]. *)
Section Bounds.
Variables T V V2 : Z.
Hypothesis Hh : huge = 2 * T.
Hypothesis Hu : 2 * one_u <= V.
Hypothesis H46 : V2 = 2 * V.
Hypothesis H45 : V2 < T.
Hypothesis HT : on_grid T.
Hypothesis HTV : on_grid (T + V).
Hypothesis HTV2 : on_grid (T + V2).

(** The last step of [_float_div_mod]. *)
Lemma floordiv_within div_ other :
  within (T + V) div_ ->
  within (T + V2)
    (if nonzero div_ then
       let floordiv := floor div_ in
       if ltb half (sub div_ floordiv) then add floordiv one else floordiv
     else zero_like other).
Proof.
  intros Hd. pose proof one_u_pos as HU.
  destruct (nonzero div_).
  - cbv zeta. pose proof (floor_within _ _ Hd) as Hf.
    destruct (ltb half _).
    + destruct Hf as (a & m & -> & Hm). unfold one.
      apply add_within; [exact HTV2 | lia |].
      pose proof (signed_abs a m ltac:(lia)).
      pose proof (signed_abs false one_u ltac:(lia)).
      lia.
    + eapply within_mono; [|exact Hf]. lia.
  - exists (sign_bit other), 0. split; [reflexivity|]. destruct HT. lia.
Qed.

(** [x // w] of a finite double is finite. *)
Lemma floor_div_within a m w :
  representable m -> 2 <= w < 2 ^ 53 ->
  exists q, floor_div (Finite a m) (of_int w) = Ok q /\ within (T + V2) q.
Proof.
  intros Hm Hw. pose proof one_u_pos as HU.
  destruct (Hm) as [[Hm0 Hmh] _].
  rewrite of_int_small by lia.
  set (W := w * one_u). assert (HW : 0 < W) by (unfold W; nia).
  pose proof (Z.mod_pos_bound m W HW) as Hr.
  pose proof (Z.mod_le m W Hm0 HW) as Hle.
  unfold floor_div. unfold is_zero at 1.
  destruct (Z.eqb_spec W 0); [lia|].
  eexists. split; [reflexivity|].
  unfold _float_div_mod.
  assert (Hfmod : fmod (Finite a m) (Finite false W) = Finite a (m mod W)).
  { unfold fmod. destruct (Z.eqb_spec W 0); [lia | reflexivity]. }
  rewrite Hfmod.
  assert (Hsub : within m (sub (Finite a m) (Finite a (m mod W)))).
  { apply sub_within; [apply representable_on_grid; assumption | lia |].
    destruct a; simpl; lia. }
  destruct Hsub as (s & d1 & -> & Hd1).
  assert (Hdiv : within T (div (Finite s d1) (Finite false W))).
  { apply div_within; [lia | lia | exact HT | lia |].
    unfold W. nia. }
  set (d0 := div (Finite s d1) (Finite false W)) in *.
  assert (Hone : within (T + V) (sub d0 one)).
  { destruct Hdiv as (s' & dm & -> & Hdm). unfold one.
    apply sub_within; [exact HTV | lia |].
    pose proof (signed_abs s' dm ltac:(lia)).
    pose proof (signed_abs false one_u ltac:(lia)).
    lia. }
  assert (Hd0 : within (T + V) d0).
  { eapply within_mono; [|exact Hdiv]. lia. }
  destruct (nonzero (Finite a (m mod W)));
    [destruct (xorb _ _)|]; cbv beta iota zeta delta [fst];
    apply floordiv_within; assumption.
Qed.

End Bounds.

Lemma on_grid_top : on_grid (2 ^ 2097 + 2 ^ 2046).
Proof. split; [cbv; discriminate | vm_compute; reflexivity]. Qed.

Lemma bounds :
  huge = 2 * 2 ^ 2097 /\ 2 * one_u <= 2 ^ 2045 /\ 2 ^ 2046 = 2 * 2 ^ 2045
  /\ 2 ^ 2046 < 2 ^ 2097.
Proof. repeat split; vm_compute; congruence. Qed.

Lemma floor_div_finite a m w :
  representable m -> 2 <= w < 2 ^ 53 ->
  exists q, floor_div (Finite a m) (of_int w) = Ok q /\ is_finite q = true.
Proof.
  intros Hm Hw. destruct bounds as (Hh & Hu & H46 & H45).
  destruct (floor_div_within (2 ^ 2097) (2 ^ 2045) (2 ^ 2046)
              Hh Hu H46 H45 on_grid_2097 on_grid_above on_grid_top
              a m w Hm Hw) as (q & Hq & (b & n & -> & _)).
  exists (Finite b n). split; [exact Hq | reflexivity].
Qed.

(** [x % w] of a finite float is finite, not negative and at most
    [w]. *)
Lemma rem_finite a m w :
  0 <= m -> 0 < w < 2 ^ 53 ->
  exists r, rem (Finite a m) (of_int w) = Ok (Finite false r)
            /\ 0 <= r <= w * one_u.
Proof.
  intros Hm Hw. pose proof one_u_pos as HU.
  rewrite of_int_small by lia.
  set (W := w * one_u). assert (HW : 0 < W) by (unfold W; nia).
  pose proof (Z.mod_pos_bound m W HW) as Hr.
  unfold rem. unfold is_zero at 1.
  destruct (Z.eqb_spec W 0); [lia|].
  assert (Hfmod : fmod (Finite a m) (Finite false W) = Finite a (m mod W)).
  { unfold fmod. destruct (Z.eqb_spec W 0); [lia | reflexivity]. }
  rewrite Hfmod. unfold nonzero, is_zero.
  destruct (Z.eqb_spec (m mod W) 0) as [Hz|Hnz]; simpl negb; cbv iota.
  - exists 0. split; [reflexivity | lia].
  - replace (ltb (Finite false W) zero) with false
      by (symmetry; apply Z.ltb_ge; simpl; lia).
    destruct a.
    + replace (ltb (Finite true (m mod W)) zero) with true
        by (symmetry; apply Z.ltb_lt; simpl; lia).
      simpl xorb. cbv iota. unfold add.
      replace (signed true (m mod W) + signed false W) with (W - m mod W)
        by (simpl; lia).
      destruct (Z.eqb_spec (W - m mod W) 0); [lia|].
      replace (W - m mod W <? 0) with false
        by (symmetry; apply Z.ltb_ge; lia).
      rewrite Z.abs_eq by lia.
      assert (Hgrid : on_grid W)
        by (apply representable_on_grid, representable_int; lia).
      assert (Hle : round_mag (W - m mod W) 1 <= W)
        by (apply round_mag_le; [lia | lia | assumption | lia]).
      pose proof (representable_int w ltac:(lia)) as [[_ HWh] _].
      fold W in HWh.
      rewrite round_finite by lia.
      eexists. split; [reflexivity|].
      split; [apply round_mag_nonneg; lia | assumption].
    + replace (ltb (Finite false (m mod W)) zero) with false
        by (symmetry; apply Z.ltb_ge; simpl; lia).
      simpl xorb. cbv iota.
      exists (m mod W). split; [reflexivity | lia].
Qed.

Section Fields.
Variables (a : bool) (m : Z).
Hypothesis Hm : representable m.

Lemma hours_returns :
  exists hours,
    (q ← floor_div (Finite a m) (of_int 3600); to_int q) = Ok hours.
Proof.
  destruct (floor_div_finite a m 3600 Hm ltac:(lia)) as (q & -> & Hq).
  rewrite TimestampFacts.bind_Ok.
  destruct q; try discriminate Hq. simpl. eauto.
Qed.

Lemma minutes_returns :
  exists minutes,
    (r ← rem (Finite a m) (of_int 3600);
     q ← floor_div r (of_int 60); to_int q) = Ok minutes.
Proof.
  pose proof one_u_pos as HU. destruct Hm as [[Hm0 _] _].
  destruct (rem_finite a m 3600 Hm0 ltac:(lia)) as (r & -> & Hr).
  rewrite TimestampFacts.bind_Ok.
  rewrite floor_div_small; [| nia | left; reflexivity | lia].
  rewrite TimestampFacts.bind_Ok. simpl. eauto.
Qed.

Lemma secs_returns :
  exists secs, (r ← rem (Finite a m) (of_int 60); to_int r) = Ok secs.
Proof.
  destruct Hm as [[Hm0 _] _].
  destruct (rem_finite a m 60 Hm0 ltac:(lia)) as (r & -> & Hr).
  rewrite TimestampFacts.bind_Ok. simpl. eauto.
Qed.

Lemma millis_returns :
  exists millis,
    (r ← rem (Finite a m) (of_int 1);
     to_int (mul r (of_int 1000))) = Ok millis.
Proof.
  pose proof one_u_pos as HU. destruct Hm as [[Hm0 _] _].
  destruct (rem_finite a m 1 Hm0 ltac:(lia)) as (r & -> & Hr).
  rewrite TimestampFacts.bind_Ok.
  rewrite (of_int_small 1000) by lia.
  pose proof (representable_int 1000 ltac:(lia)) as Hk.
  eapply within_to_int.
  apply (mul_within false r false (1000 * one_u) (1000 * one_u));
    [lia | lia | apply representable_on_grid; assumption
     | destruct Hk; lia | nia].
Qed.

End Fields.

Lemma codec_total x :
  valid x -> is_finite x = true ->
  (exists out, seconds_to_srt_time x = Ok out)
  /\ (exists out, seconds_to_vtt_time x = Ok out).
Proof.
  intros Hv Hf. destruct x as [a m| |]; try discriminate. simpl in Hv.
  destruct (hours_returns a m Hv) as [hours Hh].
  destruct (minutes_returns a m Hv) as [minutes Hmi].
  destruct (secs_returns a m Hv) as [secs Hse].
  destruct (millis_returns a m Hv) as [millis Hms].
  rewrite TimestampFacts.srt_time_fields, TimestampFacts.vtt_time_fields.
  rewrite Hh, Hmi, Hse, Hms. rewrite !TimestampFacts.bind_Ok. eauto.
Qed.

Lemma codec_rejects x :
  is_finite x = false ->
  seconds_to_srt_time x = Raise nan_to_integer
  /\ seconds_to_vtt_time x = Raise nan_to_integer.
Proof.
  destruct x as [a m|[|]|]; try discriminate; intros _;
    split; vm_compute; reflexivity.
Qed.

End TotalFacts.

(** ** Base names *)

(** X20.  Whatever the source, the base name that
    [FileUtils.extract_base_name] returns is a usable file name: not
    empty, at most 200 characters, made of word characters, hyphens,
    dots and spaces only (so without a path separator), and not
    beginning with a dot or a space.  For a file path it always returns;
    for a URL it raises only what [urlparse] raised on that URL. *)
Theorem extract_base_name_safe (py : python) (lib : urllib)
  (qlib : querylib) (source : source) :
  match FileUtils.extract_base_name py lib qlib source with
  | Ok name =>
      name <> [] /\ len name <= 200
      /\ forallb (is_safe py) name = true
      /\ Forall (fun c => c <> slash) name
      /\ (forall c, head name = Some c -> c <> space /\ c <> dot)
  | Raise e => exists url, source = Url url /\ urlparse lib url = Raise e
  end.
Proof.
  assert (Hsafe : forall name,
            let safe := FileUtils.sanitize_filename py name 200 in
            safe <> [] /\ len safe <= 200
            /\ forallb (is_safe py) safe = true
            /\ Forall (fun c => c <> slash) safe
            /\ (forall c, head safe = Some c -> c <> space /\ c <> dot)).
  { intros name. cbv zeta.
    destruct (SanitizeFacts.sanitize_tidy py name 200)
      as (Hne & (H1 & H2 & H3 & H4) & H5).
    pose proof (SanitizeFacts.sanitize_length py name 200 ltac:(lia)) as Hl.
    split; [assumption|]. split; [lia|]. split; [assumption|].
    split; [apply (SanitizeFacts.safe_not_slash py); assumption|].
    intros c Hc. specialize (H4 c Hc). unfold space_or_dot in H4.
    apply orb_false_iff in H4. destruct H4 as [Ha Hb].
    split; apply N.eqb_neq; assumption. }
  unfold FileUtils.extract_base_name. destruct source as [url|path].
  - unfold FileUtils._extract_from_url.
    destruct (contains (lit "youtube.com") url || contains (lit "youtu.be") url).
    + destruct (contains (lit "youtu.be/") url).
      * rewrite !TimestampFacts.bind_Ok. apply Hsafe.
      * destruct (urlparse lib url) as [parsed|e] eqn:Hp.
        -- rewrite !TimestampFacts.bind_Ok. apply Hsafe.
        -- simpl. eauto.
    + destruct (urlparse lib url) as [parsed|e] eqn:Hp.
      * rewrite !TimestampFacts.bind_Ok. apply Hsafe.
      * simpl. eauto.
  - rewrite TimestampFacts.bind_Ok. apply Hsafe.
Qed.

(** ** Which times the codec and the renderers take *)

Module FiniteFacts.

Lemma markdown_each segments : forall lines,
  Forall valid_times segments ->
  if forallb finite_times segments
  then exists out, MarkdownFormatter.each_segment segments lines = Ok out
  else MarkdownFormatter.each_segment segments lines = Raise nan_to_integer.
Proof.
  induction segments as [|segment rest IH]; intros lines Hall;
    cbn [MarkdownFormatter.each_segment forallb]; [eauto|].
  inversion Hall as [|? ? [Hs He] Hrest]; subst. unfold finite_times at 1.
  destruct (Float.is_finite (Segment.start_time segment)) eqn:Fs.
  - destruct (TotalFacts.codec_total _ Hs Fs) as [[start ->] _].
    rewrite TimestampFacts.bind_Ok.
    destruct (Float.is_finite (Segment.end_time segment)) eqn:Fe.
    + destruct (TotalFacts.codec_total _ He Fe) as [[end_ ->] _].
      rewrite TimestampFacts.bind_Ok. apply IH. assumption.
    + destruct (TotalFacts.codec_rejects _ Fe) as [-> _]. reflexivity.
  - destruct (TotalFacts.codec_rejects _ Fs) as [-> _]. reflexivity.
Qed.

Lemma srt_each segments : forall idx lines,
  Forall valid_times segments ->
  if forallb finite_times segments
  then exists out, SRTFormatter.each_segment idx segments lines = Ok out
  else SRTFormatter.each_segment idx segments lines = Raise nan_to_integer.
Proof.
  induction segments as [|segment rest IH]; intros idx lines Hall;
    cbn [SRTFormatter.each_segment forallb]; [eauto|].
  inversion Hall as [|? ? [Hs He] Hrest]; subst. unfold finite_times at 1.
  destruct (Float.is_finite (Segment.start_time segment)) eqn:Fs.
  - destruct (TotalFacts.codec_total _ Hs Fs) as [[start ->] _].
    rewrite TimestampFacts.bind_Ok.
    destruct (Float.is_finite (Segment.end_time segment)) eqn:Fe.
    + destruct (TotalFacts.codec_total _ He Fe) as [[end_ ->] _].
      rewrite TimestampFacts.bind_Ok. apply IH. assumption.
    + destruct (TotalFacts.codec_rejects _ Fe) as [-> _]. reflexivity.
  - destruct (TotalFacts.codec_rejects _ Fs) as [-> _]. reflexivity.
Qed.

Lemma vtt_each segments : forall lines,
  Forall valid_times segments ->
  if forallb finite_times segments
  then exists out, VTTFormatter.each_segment segments lines = Ok out
  else VTTFormatter.each_segment segments lines = Raise nan_to_integer.
Proof.
  induction segments as [|segment rest IH]; intros lines Hall;
    cbn [VTTFormatter.each_segment forallb]; [eauto|].
  inversion Hall as [|? ? [Hs He] Hrest]; subst. unfold finite_times at 1.
  destruct (Float.is_finite (Segment.start_time segment)) eqn:Fs.
  - destruct (TotalFacts.codec_total _ Hs Fs) as [_ [start ->]].
    rewrite TimestampFacts.bind_Ok.
    destruct (Float.is_finite (Segment.end_time segment)) eqn:Fe.
    + destruct (TotalFacts.codec_total _ He Fe) as [_ [end_ ->]].
      rewrite TimestampFacts.bind_Ok. apply IH. assumption.
    + destruct (TotalFacts.codec_rejects _ Fe) as [_ ->]. reflexivity.
  - destruct (TotalFacts.codec_rejects _ Fs) as [_ ->]. reflexivity.
Qed.

End FiniteFacts.

(** X21.  On a double, [seconds_to_srt_time] and [seconds_to_vtt_time]
    return a string exactly when the input is finite, negative inputs
    included; on NaN and on either infinity both raise
    [ValueError: cannot convert float NaN to integer], and they raise
    nothing else (no [OverflowError], no [ZeroDivisionError]). *)
Theorem codec_returns_iff_finite (x : float) :
  Float.valid x ->
  if Float.is_finite x
  then (exists out, seconds_to_srt_time x = Ok out)
       /\ (exists out, seconds_to_vtt_time x = Ok out)
  else seconds_to_srt_time x = Raise nan_to_integer
       /\ seconds_to_vtt_time x = Raise nan_to_integer.
Proof.
  intros Hv. destruct (Float.is_finite x) eqn:Hf.
  - apply TotalFacts.codec_total; assumption.
  - apply TotalFacts.codec_rejects; assumption.
Qed.

Lemma codec_returns_iff_finite_witness :
  (exists out, seconds_to_srt_time (Finite true Float.one_u) = Ok out)
  /\ (exists out, seconds_to_vtt_time (Finite true Float.one_u) = Ok out).
Proof.
  apply (codec_returns_iff_finite (Finite true Float.one_u)).
  apply validb_true. vm_compute. reflexivity.
Defined.

(** X22.  The renderers that write timestamps (Markdown, SRT, VTT)
    return a document exactly when every segment time is finite; when a
    time is NaN or infinite they raise
    [ValueError: cannot convert float NaN to integer], and they raise
    nothing else, whatever the texts, the speakers and the clock. *)
Theorem renderers_return_iff_finite (py : python)
  (formatter : OutputFormatter) (now : datetime)
  (result : TranscriptionResult.t) :
  Forall valid_times (TranscriptionResult.segments result) ->
  writes_timestamps formatter = true ->
  if forallb finite_times (TranscriptionResult.segments result)
  then exists out, OutputFormatter.format py formatter now result = Ok out
  else OutputFormatter.format py formatter now result = Raise nan_to_integer.
Proof.
  intros Hall Hf. destruct formatter; try discriminate Hf; simpl.
  - unfold MarkdownFormatter.format.
    pose proof (FiniteFacts.markdown_each _ (markdown_header now result) Hall)
      as H.
    unfold markdown_header in H.
    destruct (forallb finite_times _); [destruct H as [lines ->] | rewrite H];
      simpl; eauto.
  - unfold SRTFormatter.format.
    pose proof (FiniteFacts.srt_each _ 1 [] Hall) as H.
    destruct (forallb finite_times _); [destruct H as [lines ->] | rewrite H];
      simpl; eauto.
  - unfold VTTFormatter.format.
    pose proof (FiniteFacts.vtt_each _ [lit "WEBVTT"; []] Hall) as H.
    destruct (forallb finite_times _); [destruct H as [lines ->] | rewrite H];
      simpl; eauto.
Qed.

Lemma renderers_return_iff_finite_witness :
  SRTFormatter.format nan_start = Raise nan_to_integer.
Proof.
  apply (renderers_return_iff_finite some_python SRTFormatter new_year
           nan_start).
  - constructor; [|constructor].
    split; [exact I | apply validb_true; vm_compute; reflexivity].
  - reflexivity.
Defined.

(** ** Timestamps keep the order of the times *)

Module MonotoneFacts.
Import Float FloatFacts.

Lemma rne_mono p p' q : 0 <= p <= p' -> 0 < q -> rne p q <= rne p' q.
Proof.
  intros Hp Hq.
  assert (Hd : p / q <= p' / q) by (apply Z.div_le_mono; lia).
  pose proof (Z.div_mod p q ltac:(lia)) as E.
  pose proof (Z.div_mod p' q ltac:(lia)) as E'.
  pose proof (Z.mod_pos_bound p q Hq) as Hr.
  pose proof (Z.mod_pos_bound p' q Hq) as Hr'.
  unfold rne.
  destruct (Z.eq_dec (p / q) (p' / q)) as [Heq|Hne].
  - rewrite <- Heq in *.
    assert (p mod q <= p' mod q) by nia.
    destruct (Z.compare_spec (2 * (p mod q)) q);
      destruct (Z.compare_spec (2 * (p' mod q)) q);
      destruct (Z.even (p / q)); lia.
  - destruct (2 * (p mod q) ?= q); destruct (2 * (p' mod q) ?= q);
      destruct (Z.even (p / q)); destruct (Z.even (p' / q)); lia.
Qed.

Lemma rne_at_most p q b : 0 <= p -> 0 < q -> p <= b * q -> rne p q <= b.
Proof. intros. apply rne_le; assumption. Qed.

Lemma round_mag_mono p p' q :
  0 <= p <= p' -> 0 < q -> round_mag p q <= round_mag p' q.
Proof.
  intros Hp Hq. unfold round_mag.
  assert (Hn : 0 <= p / q <= p' / q).
  { split; [apply Z.div_pos; lia | apply Z.div_le_mono; lia]. }
  pose proof (shift_of_mono _ _ (proj2 Hn)) as Hs.
  pose proof (shift_of_nonneg (p / q)) as Hs0.
  set (s := shift_of (p / q)) in *. set (s' := shift_of (p' / q)) in *.
  pose proof (pow2_pos s Hs0) as Hpow.
  pose proof (pow2_pos s' ltac:(lia)) as Hpow'.
  destruct (Z.eq_dec s s') as [<-|Hne].
  - apply Z.mul_le_mono_nonneg_r; [lia|].
    apply rne_mono; [lia | nia].
  - assert (Hlow : rne p (q * 2 ^ s) <= 2 ^ 53).
    { apply rne_le; [nia|].
      pose proof (below_pow2_shift (p / q) (proj1 Hn)) as Hlt. fold s in Hlt.
      rewrite Z.pow_add_r in Hlt by lia.
      pose proof (Z.mul_succ_div_gt p q Hq).
      assert (p / q + 1 <= 2 ^ s * 2 ^ 53) by lia.
      assert (q * (p / q + 1) <= q * (2 ^ s * 2 ^ 53))
        by (apply Z.mul_le_mono_nonneg_l; lia).
      lia. }
    assert (Hhigh : 2 ^ 52 <= rne p' (q * 2 ^ s')).
    { apply rne_ge; [nia|].
      pose proof (above_pow2_shift (p' / q) ltac:(fold s'; lia)) as Hge.
      fold s' in Hge. rewrite Z.pow_add_r in Hge by lia.
      pose proof (Z.mul_div_le p' q Hq).
      assert (q * (2 ^ s' * 2 ^ 52) <= q * (p' / q))
        by (apply Z.mul_le_mono_nonneg_l; lia).
      lia. }
    assert (Hstep : 2 ^ 53 * 2 ^ s <= 2 ^ 52 * 2 ^ s').
    { rewrite <- !Z.pow_add_r by lia. apply Z.pow_le_mono_r; lia. }
    assert (rne p (q * 2 ^ s) * 2 ^ s <= 2 ^ 53 * 2 ^ s)
      by (apply Z.mul_le_mono_nonneg_r; lia).
    assert (2 ^ 52 * 2 ^ s' <= rne p' (q * 2 ^ s') * 2 ^ s')
      by (apply Z.mul_le_mono_nonneg_r; lia).
    lia.
Qed.

(** The whole seconds of a time are its three fields. *)
Lemma fields_sum m :
  0 <= m ->
  (m / (3600 * one_u) * 60 + minutes_of m) * 60 + secs_of m = m / one_u.
Proof.
  intros Hm. pose proof one_u_pos as HU. unfold minutes_of, secs_of.
  pose proof (Z.div_mod m (3600 * one_u) ltac:(lia)) as E1.
  pose proof (Z.div_mod (m mod (3600 * one_u)) (60 * one_u) ltac:(lia)) as E2.
  pose proof (Z.div_mod (m mod (60 * one_u)) one_u ltac:(lia)) as E3.
  assert (H60 : (m mod (3600 * one_u)) mod (60 * one_u) = m mod (60 * one_u)).
  { apply Z.mod_mod_divide. exists 60. ring. }
  assert (H1 : (m mod (60 * one_u)) mod one_u = m mod one_u).
  { apply Z.mod_mod_divide. exists 60. ring. }
  rewrite H60 in E2. rewrite H1 in E3.
  pose proof (Z.mod_pos_bound m one_u HU) as Hr.
  set (h := m / (3600 * one_u)) in *.
  set (mi := m mod (3600 * one_u) / (60 * one_u)) in *.
  set (se := m mod (60 * one_u) / one_u) in *.
  apply (Z.div_unique m one_u _ (m mod one_u)); [left; lia|]. nia.
Qed.

Lemma millis_of_mono m n :
  0 <= m -> m / one_u = n / one_u -> m <= n -> millis_of m <= millis_of n.
Proof.
  intros Hm Hfloor Hle. pose proof one_u_pos as HU. unfold millis_of.
  pose proof (Z.div_mod m one_u ltac:(lia)).
  pose proof (Z.div_mod n one_u ltac:(lia)).
  pose proof (Z.mod_pos_bound m one_u HU).
  apply Z.div_le_mono; [lia|].
  apply round_mag_mono; [|lia]. nia.
Qed.

Lemma millis_total_mono m n :
  representable m -> representable n -> m <= n ->
  millis_total m <= millis_total n.
Proof.
  intros Hm Hn Hle. pose proof one_u_pos as HU. unfold millis_total.
  destruct (Hm) as [[Hm0 _] _].
  assert (Hd : m / one_u <= n / one_u) by (apply Z.div_le_mono; lia).
  pose proof (TimestampFacts.millis_bounds m Hm) as (_ & Hx & _).
  pose proof (TimestampFacts.millis_bounds n Hn) as (_ & Hy & _).
  destruct (Z.eq_dec (m / one_u) (n / one_u)) as [Heq|Hne].
  - pose proof (millis_of_mono m n Hm0 Heq Hle). lia.
  - lia.
Qed.

Lemma decode_two n : 0 <= n <= 99 -> decode (two_digits n) = n.
Proof.
  intros Hn. unfold two_digits, decode. simpl.
  pose proof (Z.mod_pos_bound n 10 ltac:(lia)).
  assert (0 <= n / 10 <= 9).
  { split; [apply Z.div_pos; lia|].
    assert (n / 10 < 10) by (apply Z.div_lt_upper_bound; lia). lia. }
  rewrite !DigitFacts.digit_value by lia.
  pose proof (Z.div_mod n 10 ltac:(lia)). lia.
Qed.

Lemma decode_three n : 0 <= n <= 999 -> decode (three_digits n) = n.
Proof.
  intros Hn. unfold three_digits, decode. simpl.
  pose proof (Z.mod_pos_bound n 10 ltac:(lia)).
  pose proof (Z.mod_pos_bound (n / 10) 10 ltac:(lia)).
  assert (0 <= n / 100 <= 9).
  { split; [apply Z.div_pos; lia|].
    assert (n / 100 < 10) by (apply Z.div_lt_upper_bound; lia). lia. }
  rewrite !DigitFacts.digit_value by lia.
  pose proof (Z.div_mod n 10 ltac:(lia)).
  pose proof (Z.div_mod (n / 10) 10 ltac:(lia)).
  assert (n / 10 / 10 = n / 100) by (rewrite Z.div_div by lia; reflexivity).
  lia.
Qed.

(** Reading back what the codec writes. *)
Lemma timestamp_millis_fields sep hours minutes secs millis :
  is_digit sep = false ->
  0 <= hours -> 0 <= minutes <= 99 -> 0 <= secs <= 99 ->
  0 <= millis <= 999 ->
  timestamp_millis
    (format_0d 2 hours ++ lit ":" ++ two_digits minutes ++ lit ":"
     ++ two_digits secs ++ [sep] ++ three_digits millis)
  = ((hours * 60 + minutes) * 60 + secs) * 1000 + millis.
Proof.
  intros Hsep Hh Hmi Hse Hms.
  destruct (DigitFacts.format_02d_spec hours Hh) as (Hd & _ & Hdec & _).
  pose proof (decode_two minutes Hmi) as Dmi.
  pose proof (decode_two secs Hse) as Dse.
  pose proof (decode_three millis Hms) as Dms.
  unfold timestamp_millis. change (lit ":") with [58%N].
  unfold two_digits, three_digits in *. simpl app.
  rewrite DigitFacts.take_digits_app, DigitFacts.drop_digits_app
    by (assumption || reflexivity).
  rewrite Hdec, Dmi, Dse, Dms. reflexivity.
Qed.

(** What the two codecs print for a time below [2^53] seconds reads
    back as [millis_total]. *)
Lemma codec_reads_back a m :
  representable m -> nonneg a m -> m < 2 ^ 53 * one_u ->
  exists srt vtt,
    seconds_to_srt_time (Finite a m) = Ok srt
    /\ seconds_to_vtt_time (Finite a m) = Ok vtt
    /\ timestamp_millis srt = millis_total m
    /\ timestamp_millis vtt = millis_total m.
Proof.
  intros Hm Ha Hsmall. pose proof one_u_pos as HU.
  destruct (Hm) as [[Hm0 _] _].
  destruct (CodecFacts.codec_fields a m Hm Ha)
    as (hours & Hh0 & Hh & -> & ->).
  specialize (Hh Hsmall).
  pose proof (TimestampFacts.minutes_range m) as Hmi.
  pose proof (TimestampFacts.secs_range m) as Hse.
  pose proof (TimestampFacts.millis_bounds m Hm) as (_ & Hms & _).
  pose proof (fields_sum m Hm0) as Hsum. rewrite <- Hh in Hsum.
  eexists. eexists. split; [reflexivity|]. split; [reflexivity|].
  change (lit ",") with [44%N]. change (lit ".") with [46%N].
  rewrite !timestamp_millis_fields by (reflexivity || lia).
  unfold millis_total. rewrite <- Hsum. split; reflexivity.
Qed.

End MonotoneFacts.

(** X23.  Timestamps keep the order of the times: for two times
    [x <= y] below [2^53] seconds, what [seconds_to_srt_time] and
    [seconds_to_vtt_time] print for [x], read back as hours, minutes,
    seconds and milliseconds, is not later than what they print for
    [y].  A cue whose end is not before its start is never printed with
    the end before the start. *)
Theorem timestamps_keep_order (x y : float) :
  is_time x -> is_time y -> Float.ltb y x = false ->
  Float.units y < 2 ^ 53 * Float.one_u ->
  exists srt_x srt_y vtt_x vtt_y,
    seconds_to_srt_time x = Ok srt_x /\ seconds_to_srt_time y = Ok srt_y
    /\ seconds_to_vtt_time x = Ok vtt_x /\ seconds_to_vtt_time y = Ok vtt_y
    /\ timestamp_millis srt_x <= timestamp_millis srt_y
    /\ timestamp_millis vtt_x <= timestamp_millis vtt_y.
Proof.
  intros (Hvx & Hfx & Hgx) (Hvy & Hfy & Hgy) Hle Hsmall.
  destruct x as [a m| |]; try discriminate.
  destruct y as [b n| |]; try discriminate.
  simpl in Hvx, Hvy.
  assert (Ha : nonneg a m).
  { apply TimestampFacts.ge0_finite; [destruct Hvx; lia | assumption]. }
  assert (Hb : nonneg b n).
  { apply TimestampFacts.ge0_finite; [destruct Hvy; lia | assumption]. }
  assert (Hmn : m <= n /\ n < 2 ^ 53 * Float.one_u).
  { unfold Float.ltb in Hle. apply Z.ltb_ge in Hle.
    destruct (Hvx) as [[Hm0 _] _]. destruct (Hvy) as [[Hn0 _] _].
    unfold Float.units in Hsmall.
    destruct Ha as [-> | ->], Hb as [-> | ->]; simpl in *;
      try destruct a; try destruct b; simpl in *; lia. }
  destruct Hmn as [Hmn Hn].
  destruct (MonotoneFacts.codec_reads_back a m Hvx Ha ltac:(lia))
    as (sx & vx & -> & -> & Rx & Vx).
  destruct (MonotoneFacts.codec_reads_back b n Hvy Hb Hn)
    as (sy & vy & -> & -> & Ry & Vy).
  exists sx, sy, vx, vy.
  pose proof (MonotoneFacts.millis_total_mono m n Hvx Hvy Hmn).
  repeat split; lia.
Qed.

Lemma timestamps_keep_order_witness :
  exists srt_x srt_y vtt_x vtt_y,
    seconds_to_srt_time nine_thousandths = Ok srt_x
    /\ seconds_to_srt_time sample_time = Ok srt_y
    /\ seconds_to_vtt_time nine_thousandths = Ok vtt_x
    /\ seconds_to_vtt_time sample_time = Ok vtt_y
    /\ timestamp_millis srt_x <= timestamp_millis srt_y
    /\ timestamp_millis vtt_x <= timestamp_millis vtt_y.
Proof.
  apply (timestamps_keep_order nine_thousandths sample_time).
  - split; [apply validb_true; vm_compute; reflexivity|].
    split; vm_compute; reflexivity.
  - split; [apply validb_true; vm_compute; reflexivity|].
    split; vm_compute; reflexivity.
  - vm_compute. reflexivity.
  - vm_compute. reflexivity.
Defined.
